(** * compare_and_replace.py: a shallow embedding and its properties

    The script reconciles a current file or directory with a candidate
    that carries the suffix [.new].  This development embeds the script
    function by function and proves properties of the interactive
    single-file workflow ([handle_files]), of the directory workflow
    ([handle_dirs] and its inner [recurse_on_rel_path]) and of the
    argument loop ([main]).

    Modelling decisions.
    - Strings are Rocq strings (sequences of 8-bit characters); Python's
      ordering of [str] is the lexicographic ordering by character code,
      which is [String.le].
    - The filesystem is a finite map from the path strings handed to the
      [os] functions at top level to the object found there.  Distinct
      path strings name distinct objects, none of them inside another.
      A directory carries its listing in the order [os.scandir] yields
      it; a symbolic link carries the object its path resolves to.
    - Inside a directory workflow the script reaches the lower levels by
      path ([root + '/' + dir_rel_path]); the embedding hands the object
      found at that path to the recursive function together with the
      path.
    - Console input is the list of lines the operator will type.
      Standard output, standard error and the commands given to
      [os.system] are recorded in the order they are produced.  The
      external viewer is read-only ([-R]): running it changes nothing in
      the filesystem, and its exit status is a function of the command.
    - Permissions and I/O failures are outside the model: a system call
      fails only for the reasons written out below (missing path, wrong
      kind of object, non-empty target directory).
    - A Python exception is an outcome that carries the world at the
      point of the raise; changes made before the raise stay.
    - Loops and the recursion run on fuel that is shown to suffice: the
      lines still to be read for the two prompts, the depth of the
      current tree for the recursion.  The outcome [Diverge], fuel
      spent, is never reached. *)

From Stdlib Require Import ZArith Ascii.
From stdpp Require Import gmap strings list sorting pretty.

(** ** Python string operations used by the script *)

(** [s.endswith(suffix)] *)
Definition endswith (s suffix : string) : bool :=
  let n := String.length s in
  let m := String.length suffix in
  (m <=? n)%nat && String.eqb (String.substring (n - m) m s) suffix.

(** [s[:-k]] *)
Definition drop_last (k : nat) (s : string) : string :=
  String.substring 0 (String.length s - k) s.

(** [s.replace(old, new)] for a non-empty [old]: occurrences are replaced
    from left to right and do not overlap.  [skip] counts the characters
    of a matched occurrence that are still to be dropped. *)
Fixpoint replace_from (old new : string) (skip : nat) (s : string) : string :=
  match s with
  | "" => ""
  | String a s' =>
      match skip with
      | S k => replace_from old new k s'
      | O =>
          if String.prefix old s
          then new +:+ replace_from old new (String.length old - 1) s'
          else String a (replace_from old new 0 s')
      end
  end.

Definition str_replace (s old new : string) : string := replace_from old new 0 s.

(** [fnmatch.fnmatchcase(name, pat)] for patterns made of literal
    characters, [?] and [*] (the script's pattern has no bracket
    expression).  The match is anchored at both ends and case-sensitive;
    a leading dot is not special. *)
Fixpoint glob_match (pat : list ascii) (s : list ascii) : bool :=
  match pat with
  | [] => match s with [] => true | _ => false end
  | p :: pat' =>
      if Ascii.eqb p "*"%char then
        (fix star (s : list ascii) : bool :=
           glob_match pat' s ||
           match s with [] => false | _ :: s' => star s' end) s
      else if Ascii.eqb p "?"%char then
        match s with [] => false | _ :: s' => glob_match pat' s' end
      else
        match s with [] => false | a :: s' => Ascii.eqb a p && glob_match pat' s' end
  end.

Definition fnmatchcase (name pat : string) : bool :=
  glob_match (String.list_ascii_of_string pat) (String.list_ascii_of_string name).

(** ** Filesystem objects *)

#[warnings="-register-all"]
Inductive node : Type :=
  | Reg (content : string)
  | Dir (entries : list (string * node))
  | Symlink (target : option node)
  | Other.

(** The object a [stat] call (which follows links) lands on; [None] for a
    dangling link. *)
Fixpoint follow (n : node) : option node :=
  match n with
  | Symlink None => None
  | Symlink (Some t) => follow t
  | _ => Some n
  end.

Definition S_ISDIR (n : node) : bool := match n with Dir _ => true | _ => false end.
Definition S_ISREG (n : node) : bool := match n with Reg _ => true | _ => false end.

(** Nesting depth of directories, links followed. *)
Fixpoint node_depth (n : node) : nat :=
  match n with
  | Dir es =>
      S ((fix go (es : list (string * node)) : nat :=
            match es with
            | [] => 0
            | (_, c) :: es' => Nat.max (node_depth c) (go es')
            end) es)
  | Symlink (Some t) => node_depth t
  | _ => 0
  end.

(** ** The world the script runs in *)

Inductive output : Type :=
  | Line (text : string)      (* print(text) *)
  | Prompt (text : string).   (* the prompt written by input(text) *)

Record world : Type := World {
  fs : gmap string node;
  stdin : list string;
  out : list output;
  err : list string;
  commands : list string;
  exit_status : string → Z
}.

Definition set_fs (f : gmap string node → gmap string node) (w : world) : world :=
  World (f (fs w)) (stdin w) (out w) (err w) (commands w) (exit_status w).
Definition set_stdin (l : list string) (w : world) : world :=
  World (fs w) l (out w) (err w) (commands w) (exit_status w).
Definition write_out (o : output) (w : world) : world :=
  World (fs w) (stdin w) (out w ++ [o]) (err w) (commands w) (exit_status w).
Definition write_err (s : string) (w : world) : world :=
  World (fs w) (stdin w) (out w) (err w ++ [s]) (commands w) (exit_status w).
Definition run_command (c : string) (w : world) : world :=
  World (fs w) (stdin w) (out w) (err w) (commands w ++ [c]) (exit_status w).

Inductive exn : Type :=
  | AssertionError
  | EOFError
  | IndexError
  | KeyError
  | OSError
  | SystemExit (code : Z).

(** The outcome of running a piece of the script: a value, a raised
    exception, or [Diverge] when a fuel-bounded loop runs dry. *)
Inductive result (A : Type) : Type :=
  | Return (a : A) (w : world)
  | Raise (e : exn) (w : world)
  | Diverge.
Arguments Return {A} a w.
Arguments Raise {A} e w.
Arguments Diverge {A}.

Definition M (A : Type) : Type := world → result A.

Definition ret {A} (a : A) : M A := λ w, Return a w.
Definition bind {A B} (m : M A) (k : A → M B) : M B :=
  λ w, match m w with
       | Return a w' => k a w'
       | Raise e w' => Raise e w'
       | Diverge => Diverge
       end.
Definition raise {A} (e : exn) : M A := λ w, Raise e w.

Declare Scope py_scope.
Delimit Scope py_scope with py.
Notation "x <- m ;; k" := (bind m (λ x, k))
  (at level 100, m at next level, right associativity) : py_scope.
Notation "m ;;; k" := (bind m (λ _, k))
  (at level 100, right associativity) : py_scope.
Local Open Scope py_scope.

(** [for x in l: body(x)] *)
Fixpoint for_each {A} (l : list A) (body : A → M unit) : M unit :=
  match l with
  | [] => ret tt
  | x :: l' => body x ;;; for_each l' body
  end.

(** A loop that threads an accumulator through its iterations. *)
Fixpoint for_fold {A S} (l : list A) (body : S → A → M S) (s : S) : M S :=
  match l with
  | [] => ret s
  | x :: l' => s' <- body s x ;; for_fold l' body s'
  end.

(** ** Console *)

(** [print(text)] *)
Definition print (text : string) : M unit := λ w, Return tt (write_out (Line text) w).

(** [stderr(text)]: one line on standard error. *)
Definition stderr (text : string) : M unit := λ w, Return tt (write_err text w).

(** [input(prompt)]: writes the prompt, then takes the next line. *)
Definition input (prompt : string) : M string :=
  λ w, match stdin w with
       | [] => Raise EOFError (write_out (Prompt prompt) w)
       | line :: rest => Return line (set_stdin rest (write_out (Prompt prompt) w))
       end.

(** [sys.exit(code)] *)
Definition sys_exit {A} (code : Z) : M A := raise (SystemExit code).

(** ** System calls *)

Definition os_path_exists (path : string) : M bool :=
  λ w, Return (bool_decide (is_Some (fs w !! path ≫= follow))) w.

Definition os_path_isdir (path : string) : M bool :=
  λ w, Return (match fs w !! path ≫= follow with Some (Dir _) => true | _ => false end) w.

Definition os_lstat (path : string) : M node :=
  λ w, match fs w !! path with Some n => Return n w | None => Raise OSError w end.

(** [os.stat] of the object a path names ([None]: no such path). *)
Definition stat_obj (obj : option node) : M node :=
  match obj ≫= follow with Some n => ret n | None => raise OSError end.

Definition os_stat (path : string) : M node := λ w, stat_obj (fs w !! path) w.

(** [os.remove]: unlinks anything but a directory. *)
Definition os_remove (path : string) : M unit :=
  λ w, match fs w !! path with
       | None | Some (Dir _) => Raise OSError w
       | Some _ => Return tt (set_fs (delete path) w)
       end.

(** [shutil.rmtree]: the path must be a directory itself, not a link to
    one. *)
Definition shutil_rmtree (path : string) : M unit :=
  λ w, match fs w !! path with
       | Some (Dir _) => Return tt (set_fs (delete path) w)
       | _ => Raise OSError w
       end.

(** [os.rename(src, dst)] with the POSIX rules: an existing target is
    replaced, except that a directory replaces only an empty directory
    and a non-directory never replaces a directory. *)
Definition os_rename (src dst : string) : M unit :=
  λ w, match fs w !! src with
       | None => Raise OSError w
       | Some s =>
           if decide (src = dst) then Return tt w
           else
             let moved := set_fs (λ m, <[dst := s]> (delete src m)) w in
             match fs w !! dst, s with
             | None, _ => Return tt moved
             | Some (Dir []), Dir _ => Return tt moved
             | Some (Dir _), _ => Raise OSError w
             | Some _, Dir _ => Raise OSError w
             | Some _, _ => Return tt moved
             end
       end.

(** [os.system(command)]: the command is run and its status returned. *)
Definition os_system (command : string) : M Z :=
  λ w, Return (exit_status w command) (run_command command w).

(** Byte-for-byte comparison of two objects, as [filecmp.cmp] makes it
    with [shallow=False]: false unless both are regular files. *)
Definition same_content (a b : node) : bool :=
  match a, b with
  | Reg x, Reg y => bool_decide (x = y)
  | _, _ => false
  end.

(** [filecmp.cmp(f1, f2, shallow=False)], on the objects the two paths
    name and on the paths themselves. *)
Definition filecmp_cmp_obj (f1 f2 : option node) : M bool :=
  s1 <- stat_obj f1 ;;
  s2 <- stat_obj f2 ;;
  ret (same_content s1 s2).

Definition filecmp_cmp (f1 f2 : string) : M bool :=
  λ w, filecmp_cmp_obj (fs w !! f1) (fs w !! f2) w.

(** ** The viewer and the prompt *)

(** [gdiff(L_path, R_path)].  The message of the source is not an
    f-string, so the braces are printed as they stand. *)
Definition gdiff (L_path R_path : string) : M unit :=
  retcode <- os_system ("gdiff -f -R -c 'windo set nonu| syntax off' '"
                        +:+ L_path +:+ "' '" +:+ R_path +:+ "'") ;;
  if decide (retcode ≠ 0%Z) then stderr "return code was {retcode}" else ret tt.

(** [get_input(prompt, valid_responses)].  The [while True] loop reads a
    line per iteration, so the lines still to be read bound it: with no
    line left [input] raises [EOFError], and the branch for spent fuel is
    never taken. *)
Fixpoint get_input_loop (prompt : string) (valid_responses : list string)
    (lines : list string) : M string :=
  response <- input (prompt +:+ " ") ;;
  if bool_decide (response ∈ valid_responses) then ret response
  else
    stderr ("You responded '" +:+ response +:+ "'") ;;;
    match lines with
    | [] => λ _, Diverge
    | _ :: lines' => get_input_loop prompt valid_responses lines'
    end.

Definition get_input (prompt : string) (valid_responses : list string) : M string :=
  λ w, get_input_loop prompt valid_responses (stdin w) w.

(** ** Single files *)

Definition handle_files (cur_path new_path : string) : M unit :=
  same <- filecmp_cmp cur_path new_path ;;
  if same : bool then
    (* same content *)
    stderr ("No change from " +:+ cur_path) ;;;
    os_remove new_path
  else
    (* different content *)
    gdiff cur_path new_path ;;;
    response <- get_input ("update " +:+ cur_path +:+ " ?") ["y"; "b"; "n"; "q"] ;;
    if decide (response = "y") then
      os_rename new_path cur_path
    else if decide (response = "b") then
      let bak_path := cur_path +:+ ".bak" in
      (* remove any previous backup *)
      (isdir <- os_path_isdir bak_path ;;
       if isdir : bool then shutil_rmtree bak_path
       else
         exists_ <- os_path_exists bak_path ;;
         if exists_ : bool then os_remove bak_path else ret tt) ;;;
      (* backup the current content *)
      os_rename cur_path bak_path ;;;
      (* install the new *)
      os_rename new_path cur_path
    else if decide (response = "n") then
      stderr "(not overwriting)"
    else if decide (response = "q") then
      sys_exit 1
    else
      raise AssertionError.

(** ** Directory trees *)

(** What [os.scandir] yields for one name of a listing. *)
Record DirEntry : Type := mkDirEntry {
  name : string;
  path : string;
  entry_node : node
}.

(** [entry.is_file(follow_symlinks=...)] and [entry.is_dir(follow_symlinks=...)];
    Python's default for the flag is [True]. *)
Definition is_file (follow_symlinks : bool) (e : DirEntry) : bool :=
  if follow_symlinks
  then from_option S_ISREG false (follow (entry_node e))
  else S_ISREG (entry_node e).
Definition is_dir (follow_symlinks : bool) (e : DirEntry) : bool :=
  if follow_symlinks
  then from_option S_ISDIR false (follow (entry_node e))
  else S_ISDIR (entry_node e).

(** The entries of a directory listed under [path]: the path of an entry
    is [os.path.join(path, name)], and no path the script lists ends with
    a slash. *)
Definition listing (path : string) (es : list (string * node)) : list DirEntry :=
  map (λ e : string * node, mkDirEntry e.1 (path +:+ "/" +:+ e.1) e.2) es.

(** [os.scandir(path)], where [obj] is what [path] names: the entries of
    the directory the path resolves to, in listing order. *)
Definition os_scandir (path : string) (obj : option node) : M (list DirEntry) :=
  match obj ≫= follow with
  | Some (Dir es) => ret (listing path es)
  | _ => raise OSError
  end.

Inductive verb : Type := Delete | Create | Alter | Leave.

Global Instance verb_eq_dec : EqDecision verb.
Proof. solve_decision. Defined.

Definition verb_name (v : verb) : string :=
  match v with
  | Delete => "delete" | Create => "create" | Alter => "alter" | Leave => "leave"
  end.

(** An action is the tuple of the source: its verb, then one or two
    entries. *)
Abbreviation action := (verb * list DirEntry)%type.

(** The two slots [[None, None]] the [defaultdict] holds for a name;
    [side] is the index into [roots]. *)
Inductive side : Type := cur_side | new_side.
Abbreviation slots := (option DirEntry * option DirEntry)%type.

(** [d[entry.name][i] = entry] *)
Definition set_slot (i : side) (e : DirEntry) (d : gmap string slots) : gmap string slots :=
  let s := default (None, None) (d !! name e) in
  <[name e := match i with
              | cur_side => (Some e, s.2)
              | new_side => (s.1, Some e)
              end]> d.

(** [sorted(m.items())]: the keys of a dict are distinct, so the pairs
    are ordered by their keys alone. *)
Definition key_le {V} (a b : string * V) : Prop := String.le a.1 b.1.
Global Instance key_le_dec {V} : RelDecision (@key_le V).
Proof. intros a b. unfold key_le. apply _. Defined.

Definition sorted_items {V} (m : gmap string V) : list (string * V) :=
  merge_sort key_le (map_to_list m).

(** The listing loop of one root: swap files are logged and skipped. *)
Definition scan_root (i : side) (root dir_rel_path : string) (obj : option node)
    (d : gmap string slots) : M (gmap string slots) :=
  let path := root +:+ "/" +:+ dir_rel_path in
  entries <- os_scandir path obj ;;
  for_fold entries (λ d entry,
    if fnmatchcase (name entry) ".*.swp" then
      stderr ("ignoring: " +:+ path +:+ "/" +:+ name entry) ;;; ret d
    else ret (set_slot i entry d)) d.

(** [recurse_on_rel_path(dir_rel_path)], the closure of [handle_dirs].
    [c_obj] and [n_obj] are the objects at [dir_rel_path] under the two
    roots; [action_for_item_] is the dict of the enclosing function, which
    the closure updates.  [fuel] bounds the depth of the recursion. *)
Fixpoint recurse_on_rel_path (fuel : nat) (cur_root new_root : string)
    (c_obj n_obj : option node) (dir_rel_path : string)
    (action_for_item_ : gmap string action) : M (gmap string action) :=
  match fuel with
  | O => λ _, Diverge
  | S fuel =>
      d <- scan_root cur_side cur_root dir_rel_path c_obj ∅ ;;
      d <- scan_root new_side new_root dir_rel_path n_obj d ;;
      for_fold (sorted_items d) (λ action_for_item_ item,
        let item_name := item.1 in
        let item_rel_path := dir_rel_path +:+ "/" +:+ item_name in
        match item.2 with
        | (None, None) => raise AssertionError (* can't happen *)
        | (Some c_entry, None) =>
            ret (<[item_rel_path := (Delete, [c_entry])]> action_for_item_)
        | (None, Some n_entry) =>
            ret (<[item_rel_path := (Create, [n_entry])]> action_for_item_)
        | (Some c_entry, Some n_entry) =>
            (* alter or leave... *)
            if is_file false c_entry && is_file false n_entry then
              (* both files *)
              same <- filecmp_cmp_obj (Some (entry_node c_entry)) (Some (entry_node n_entry)) ;;
              if same : bool
              then ret (<[item_rel_path := (Leave, [c_entry; n_entry])]> action_for_item_)
              else ret (<[item_rel_path := (Alter, [c_entry; n_entry])]> action_for_item_)
            else if is_dir true c_entry && is_dir true n_entry then
              (* both dirs *)
              recurse_on_rel_path fuel cur_root new_root
                (Some (entry_node c_entry)) (Some (entry_node n_entry))
                item_rel_path action_for_item_
            else
              (* change of type! *)
              raise AssertionError
        end) action_for_item_
  end.

(** The dict [would_]: one list of paths per verb, in the order the keys
    were written. *)
Definition would_empty : list (verb * list string) :=
  [(Delete, []); (Create, []); (Alter, []); (Leave, [])].

(** [would_[v]] *)
Fixpoint would_get (would_ : list (verb * list string)) (v : verb) : list string :=
  match would_ with
  | [] => []
  | g :: would_' => if decide (g.1 = v) then g.2 else would_get would_' v
  end.

(** [would_[v].append(item_rel_path)] *)
Definition would_append (v : verb) (item_rel_path : string)
    (would_ : list (verb * list string)) : list (verb * list string) :=
  map (λ g : verb * list string,
         if decide (g.1 = v) then (g.1, g.2 ++ [item_rel_path]) else g) would_.

(** The grouping loop over [sorted(action_for_item_.items())]. *)
Definition group_actions (action_for_item_ : gmap string action) : list (verb * list string) :=
  foldl (λ would_ item, would_append item.2.1 item.1 would_)
        would_empty (sorted_items action_for_item_).

(** [all(len(would_[verb]) == 0 for verb in ['delete','create','alter'])] *)
Definition no_effect (would_ : list (verb * list string)) : bool :=
  forallb (λ v, bool_decide (length (would_get would_ v) = 0)) [Delete; Create; Alter].

(** The report of one group. *)
Definition print_group (g : verb * list string) : M unit :=
  print "" ;;;
  print ("    " +:+ verb_name g.1 +:+ ":") ;;;
  if decide (g.2 = []) then print "        (nothing)"
  else if bool_decide (g.1 = Leave) && bool_decide (10 < length g.2) then
    print ("        (" +:+ pretty (length g.2) +:+ " items)")
  else
    for_each g.2 (λ item_path, print ("        " +:+ str_replace item_path "./" "")).

(** The [while True] loop of [handle_dirs].  Every iteration reads at
    least one line, so the lines still to be read bound it. *)
Fixpoint select_loop (lines : list string) (cur_root new_root : string)
    (would_ : list (verb * list string)) : M unit :=
  stderr "" ;;;
  response <- get_input
    "select a group to examine [dcal] or 'y' to install the new or 'n' to skip it:"
    ["d"; "c"; "a"; "l"; "y"; "n"] ;;
  if decide (response = "y") then
    stderr ("installing " +:+ new_root +:+ "...") ;;;
    shutil_rmtree cur_root ;;;
    os_rename new_root cur_root
  else if decide (response = "n") then
    stderr ("skipping " +:+ new_root +:+ "...")
  else
    v <- (if decide (response = "d") then ret Delete
          else if decide (response = "c") then ret Create
          else if decide (response = "a") then ret Alter
          else if decide (response = "l") then ret Leave
          else raise KeyError) ;;
    for_each (would_get would_ v) (λ item_rel_path,
      let c_path := cur_root +:+ "/" +:+ item_rel_path in
      let n_path := new_root +:+ "/" +:+ item_rel_path in
      gdiff c_path n_path) ;;;
    match lines with
    | [] => λ _, Diverge
    | _ :: lines' => select_loop lines' cur_root new_root would_
    end.

(** The comparison of the two trees: the first statements of
    [handle_dirs], up to the call of the closure on ['.'].  The recursion
    goes no deeper than the current tree, so its depth is fuel enough. *)
Definition diff_trees (cur_root new_root : string) : M (gmap string action) :=
  λ w, recurse_on_rel_path (S (from_option node_depth 0 (fs w !! cur_root)))
         cur_root new_root (fs w !! cur_root) (fs w !! new_root) "." ∅ w.

Definition handle_dirs (cur_root new_root : string) : M unit :=
  action_for_item_ <- diff_trees cur_root new_root ;;
  let would_ := group_actions action_for_item_ in
  print "" ;;;
  print ("Replacing " +:+ cur_root +:+ " with " +:+ new_root +:+ " would...") ;;;
  if no_effect would_ then
    print "    have no effect," ;;;
    print ("    so removing " +:+ new_root +:+ "...") ;;;
    shutil_rmtree new_root
  else
    for_each would_ print_group ;;;
    λ w, select_loop (stdin w) cur_root new_root would_ w.

(** ** The argument loop *)

(** [get_type(path)]: the kind the link-aware status call reports. *)
Inductive file_type : Type := type_dir | type_reg | type_other.

Global Instance file_type_eq_dec : EqDecision file_type.
Proof. solve_decision. Defined.

Definition type_name (t : file_type) : string :=
  match t with type_dir => "dir" | type_reg => "reg" | type_other => "other" end.

Definition get_type (path : string) : M file_type :=
  stat_result <- os_lstat path ;;
  if S_ISDIR stat_result then ret type_dir
  else if S_ISREG stat_result then ret type_reg
  else ret type_other.

(** The body of [for arg in argv]; every [continue] ends it. *)
Definition main_body (common_dir_prefix : option string) (arg : string) : M unit :=
  let path :=
    match common_dir_prefix with
    | Some prefix => if decide (prefix = "") then arg else prefix +:+ "/" +:+ arg
    | None => arg
    end in
  let '(cur_path, new_path) :=
    if endswith path ".new" then (drop_last 4 path, path)
    else (path, path +:+ ".new") in
  new_exists <- os_path_exists new_path ;;
  if negb new_exists then
    stderr ("ERROR: new_path does not exist: " +:+ new_path)
  else
  cur_exists <- os_path_exists cur_path ;;
  if negb cur_exists then
    stderr (cur_path +:+ " does not exist, so installing " +:+ new_path +:+ " there") ;;;
    os_rename new_path cur_path
  else
  (* At this point, we know that both things exist. *)
  cur_type <- get_type cur_path ;;
  if decide (cur_type = type_other) then
    stderr ("ERROR: " +:+ cur_path +:+ " is neither a regular file nor a directory.")
  else
  new_type <- get_type new_path ;;
  if decide (new_type = type_other) then
    stderr ("ERROR: " +:+ new_path +:+ " is neither a regular file nor a directory.")
  else
  if decide (cur_type ≠ new_type) then
    stderr ("ERROR: " +:+ cur_path +:+ " is a " +:+ type_name cur_type +:+ ", but "
            +:+ new_path +:+ " is a " +:+ type_name new_type)
  else
  (* At this point, we know they have the same type. *)
  match cur_type with
  | type_reg => handle_files cur_path new_path
  | type_dir => handle_dirs cur_path new_path
  | type_other => raise AssertionError
  end.

(** [main()], given [sys.argv]. *)
Definition main (argv : list string) : M unit :=
  match argv with
  | [] => raise IndexError
  | executable :: argv =>
      match argv with
      | [] => raise IndexError
      | first :: rest =>
          if decide (first = "-d") then
            match rest with
            | [] => raise IndexError
            | common_dir_prefix :: argv => for_each argv (main_body (Some common_dir_prefix))
            end
          else for_each argv (main_body None)
      end
  end.

(** * Vocabulary of the statements *)

Definition valid_file_responses : list string := ["y"; "b"; "n"; "q"].

(** What [handle_files] does with a valid response. *)
Definition file_response (cur_path new_path response : string) : M unit :=
  if decide (response = "y") then os_rename new_path cur_path
  else if decide (response = "b") then
    (isdir <- os_path_isdir (cur_path +:+ ".bak") ;;
     if isdir : bool then shutil_rmtree (cur_path +:+ ".bak")
     else
       exists_ <- os_path_exists (cur_path +:+ ".bak") ;;
       if exists_ : bool then os_remove (cur_path +:+ ".bak") else ret tt) ;;;
    os_rename cur_path (cur_path +:+ ".bak") ;;;
    os_rename new_path cur_path
  else if decide (response = "n") then stderr "(not overwriting)"
  else if decide (response = "q") then sys_exit 1
  else raise AssertionError.

Definition is_swap (nm : string) : bool := fnmatchcase nm ".*.swp".

(** Several lines on standard error at once. *)
Definition write_errs (lines : list string) (w : world) : world :=
  World (fs w) (stdin w) (out w) (err w ++ lines) (commands w) (exit_status w).

(** What the listing loop leaves in the dict, and what it logs. *)
Definition fill (i : side) (entries : list DirEntry) (d : gmap string slots) : gmap string slots :=
  foldl (λ d e, if is_swap (name e) then d else set_slot i e d) d entries.

Definition ignored (path : string) (entries : list DirEntry) : list string :=
  (λ e, "ignoring: " +:+ path +:+ "/" +:+ name e)
    <$> filter (λ e, is_swap (name e) = true) entries.

(** The dict [d] of one level, both roots listed. *)
Definition level_dict (cur_root new_root dir_rel_path : string)
    (ces nes : list (string * node)) : gmap string slots :=
  fill new_side (listing (new_root +:+ "/" +:+ dir_rel_path) nes)
    (fill cur_side (listing (cur_root +:+ "/" +:+ dir_rel_path) ces) ∅).

Definition level_log (cur_root new_root dir_rel_path : string)
    (ces nes : list (string * node)) : list string :=
  ignored (cur_root +:+ "/" +:+ dir_rel_path) (listing (cur_root +:+ "/" +:+ dir_rel_path) ces)
  ++ ignored (new_root +:+ "/" +:+ dir_rel_path) (listing (new_root +:+ "/" +:+ dir_rel_path) nes).

(** The body of the loop over [sorted(d.items())], with the recursive
    call as a parameter. *)
Definition item_step
    (recurse : option node → option node → string → gmap string action → M (gmap string action))
    (dir_rel_path : string) (action_for_item_ : gmap string action)
    (item : string * slots) : M (gmap string action) :=
  let item_rel_path := dir_rel_path +:+ "/" +:+ item.1 in
  match item.2 with
  | (None, None) => raise AssertionError
  | (Some c_entry, None) =>
      ret (<[item_rel_path := (Delete, [c_entry])]> action_for_item_)
  | (None, Some n_entry) =>
      ret (<[item_rel_path := (Create, [n_entry])]> action_for_item_)
  | (Some c_entry, Some n_entry) =>
      if is_file false c_entry && is_file false n_entry then
        same <- filecmp_cmp_obj (Some (entry_node c_entry)) (Some (entry_node n_entry)) ;;
        if same : bool
        then ret (<[item_rel_path := (Leave, [c_entry; n_entry])]> action_for_item_)
        else ret (<[item_rel_path := (Alter, [c_entry; n_entry])]> action_for_item_)
      else if is_dir true c_entry && is_dir true n_entry then
        recurse (Some (entry_node c_entry)) (Some (entry_node n_entry))
          item_rel_path action_for_item_
      else raise AssertionError
  end.

(** What holds of an outcome: [Q] of a value, [E] of an exception, [D] if
    the fuel ran dry. *)
Definition post {A} (r : result A) (Q : A → world → Prop)
    (E : exn → world → Prop) (D : Prop) : Prop :=
  match r with
  | Return a w => Q a w
  | Raise e w => E e w
  | Diverge => D
  end.

Definition put_slot (i : side) (e : DirEntry) (s : slots) : slots :=
  match i with cur_side => (Some e, s.2) | new_side => (s.1, Some e) end.

(** A slot holds entries of the two listings under the name that is its
    key, the name is not a swap-file name, and one side at least is
    present. *)
Definition slot_from (cl nl : list DirEntry) (k : string) (s : slots) : Prop :=
  (∀ e, s.1 = Some e → name e = k ∧ e ∈ cl)
  ∧ (∀ e, s.2 = Some e → name e = k ∧ e ∈ nl)
  ∧ is_swap k = false
  ∧ s ≠ (None, None).

(** Relative paths built from ['.'] by appending names that are not
    swap-file names. *)
Inductive clean_path : string → Prop :=
  | clean_root : clean_path "."
  | clean_step rel nm :
      clean_path rel → is_swap nm = false → clean_path (rel +:+ "/" +:+ nm).

(** An action under key [k]: the key is a clean path that ends with the
    name of each entry of the action, none of them a swap-file name. *)
Definition clean_action (k : string) (a : action) : Prop :=
  clean_path k
  ∧ Forall (λ e, is_swap (name e) = false
                 ∧ ∃ rel, clean_path rel ∧ k = rel +:+ "/" +:+ name e) a.2.

Definition valid_dir_responses : list string := ["d"; "c"; "a"; "l"; "y"; "n"].

(** The three mutating groups of a dict of actions. *)
Definition mutating_groups_empty (acts : gmap string action) : Prop :=
  would_get (group_actions acts) Delete = []
  ∧ would_get (group_actions acts) Create = []
  ∧ would_get (group_actions acts) Alter = [].

Definition verbs : list verb := [Delete; Create; Alter; Leave].

(** [w'] is [w] with more lines on standard error. *)
Definition err_grows (w w' : world) : Prop := ∃ lines, w' = write_errs lines w.

(** [reaches rel c n rel' ces' nes']: starting at [rel], where the two
    roots hold [c] and [n], the recursion comes to [rel'], where they
    hold directories listed as [ces'] and [nes']. *)
Inductive reaches (cur_root new_root : string) :
    string → option node → option node →
    string → list (string * node) → list (string * node) → Prop :=
  | reaches_here rel c_obj n_obj ces nes :
      c_obj ≫= follow = Some (Dir ces) → n_obj ≫= follow = Some (Dir nes) →
      reaches cur_root new_root rel c_obj n_obj rel ces nes
  | reaches_down rel c_obj n_obj ces nes k ce ne rel' ces' nes' :
      c_obj ≫= follow = Some (Dir ces) → n_obj ≫= follow = Some (Dir nes) →
      level_dict cur_root new_root rel ces nes !! k = Some (Some ce, Some ne) →
      is_file false ce && is_file false ne = false →
      is_dir true ce && is_dir true ne = true →
      reaches cur_root new_root (rel +:+ "/" +:+ k)
        (Some (entry_node ce)) (Some (entry_node ne)) rel' ces' nes' →
      reaches cur_root new_root rel c_obj n_obj rel' ces' nes'.

(** The two paths the argument loop derives from an argument. *)
Definition arg_paths (common_dir_prefix : option string) (arg : string) : string * string :=
  let path :=
    match common_dir_prefix with
    | Some prefix => if decide (prefix = "") then arg else prefix +:+ "/" +:+ arg
    | None => arg
    end in
  if endswith path ".new" then (drop_last 4 path, path) else (path, path +:+ ".new").

(** File against directory, either way round. *)
Definition file_vs_dir (c n : node) : bool :=
  (S_ISREG c && S_ISDIR n) || (S_ISDIR c && S_ISREG n).

(** Two objects that differ only in the order of directory listings. *)
#[warnings="-register-all"]
Inductive node_equiv : node → node → Prop :=
  | equiv_reg x : node_equiv (Reg x) (Reg x)
  | equiv_other : node_equiv Other Other
  | equiv_dangling : node_equiv (Symlink None) (Symlink None)
  | equiv_link t t' : node_equiv t t' → node_equiv (Symlink (Some t)) (Symlink (Some t'))
  | equiv_dir es mid es' :
      es ≡ₚ mid →
      Forall2 (λ a b : string * node, a.1 = b.1 ∧ node_equiv a.2 b.2) mid es' →
      node_equiv (Dir es) (Dir es').

(** Every directory lists each name once. *)
#[warnings="-register-all"]
Inductive well_listed : node → Prop :=
  | wl_reg x : well_listed (Reg x)
  | wl_other : well_listed Other
  | wl_dangling : well_listed (Symlink None)
  | wl_link t : well_listed t → well_listed (Symlink (Some t))
  | wl_dir es :
      NoDup es.*1 → Forall (λ e : string * node, well_listed e.2) es →
      well_listed (Dir es).

Definition obj_rel (x x' : node) : Prop := node_equiv x x' ∧ well_listed x.

Definition entry_equiv (e e' : DirEntry) : Prop :=
  name e = name e' ∧ path e = path e' ∧ obj_rel (entry_node e) (entry_node e').

Definition slot_equiv (s s' : slots) : Prop :=
  option_Forall2 entry_equiv s.1 s'.1 ∧ option_Forall2 entry_equiv s.2 s'.2.

(** Two outcomes of the comparison agree: the same exception, or dicts
    with the same verb under the same keys. *)
Definition same_outcome (r r' : result (gmap string action)) : Prop :=
  match r, r' with
  | Return a _, Return a' _ => fst <$> a = fst <$> a'
  | Raise e _, Raise e' _ => e = e'
  | Diverge, Diverge => True
  | _, _ => False
  end.

(** The object a listing holds under a name that is not a swap-file
    name. *)
Definition listed (es : list (string * node)) (k : string) : option node :=
  if is_swap k then None else (list_to_map es : gmap string node) !! k.

Definition world_of (files : list (string * node)) (lines : list string) : world :=
  World (list_to_map files) lines [] [] [] (λ _, 0%Z).

(** A file and a different candidate; the operator types a stray line
    first. *)
Definition two_files (lines : list string) : world :=
  world_of [("f", Reg "1"); ("f.new", Reg "2");
            ("f.bak", Dir [("old", Reg "0")])] lines.

(** The same, with a previous backup that is a link to a directory. *)
Definition linked_backup : world :=
  world_of [("f", Reg "1"); ("f.new", Reg "2");
            ("f.bak", Symlink (Some (Dir [])))] ["b"].

(** A file and an identical candidate; nobody at the console. *)
Definition same_files : world :=
  world_of [("f", Reg "1"); ("f.new", Reg "1")] [].

(** Two trees that differ, with a swap file on one side and a
    sub-directory on both. *)
Definition cur_tree_entries : list (string * node) :=
  [("a", Reg "1"); ("b", Reg "2"); (".x.swp", Reg "s"); ("sub", Dir [("k", Reg "k")])].
Definition cur_tree : node := Dir cur_tree_entries.
Definition new_tree_entries : list (string * node) :=
  [("c", Reg "3"); ("a", Reg "1"); ("sub", Dir [("k", Reg "kk"); ("j", Other)])].
Definition new_tree : node := Dir new_tree_entries.
Definition two_trees (lines : list string) : world :=
  world_of [("t", cur_tree); ("t.new", new_tree)] lines.

(** The same tree twice, listed in two orders. *)
Definition cur_tree_relisted_entries : list (string * node) :=
  [("sub", Dir [("k", Reg "k")]); (".x.swp", Reg "s"); ("b", Reg "2"); ("a", Reg "1")].
Definition cur_tree_relisted : node := Dir cur_tree_relisted_entries.
Definition same_trees : world :=
  world_of [("t", cur_tree); ("t.new", cur_tree_relisted)] ["y"].

(** A name that is a file under one root and a directory under the
    other, one level down; a second argument follows. *)
Definition mismatched_trees : world :=
  world_of [("t", Dir [("sub", Dir [("x", Reg "1")])]);
            ("t.new", Dir [("sub", Dir [("x", Dir [])])]);
            ("f", Reg "9"); ("f.new", Reg "9");
            ("m", Reg "1"); ("m.new", Dir [])] [].

(** The same name is a link to a directory under both roots. *)
Definition linked_trees : world :=
  world_of [("t", Dir [("x", Symlink (Some (Dir [("f", Reg "1")])))]);
            ("t.new", Dir [("x", Symlink (Some (Dir [("f", Reg "2")])))])] [].

(** The scenario of the specification: [a] on both sides with the same
    content, [b] in the current tree only, [c] in the new tree only. *)
Definition scenario : world :=
  world_of [("t", Dir [("a", Reg "1"); ("b", Reg "2")]);
            ("t.new", Dir [("a", Reg "1"); ("c", Reg "3")])] [].

(** The comparison of these trees, evaluated once. *)
Definition diff_of (w : world) : gmap string action * world :=
  match diff_trees "t" "t.new" w with
  | Return acts w' => (acts, w')
  | _ => (∅, w)
  end.
Definition two_trees_diff : gmap string action * world :=
  Eval vm_compute in diff_of (two_trees ["d"; "zz"; "n"; "r"]).
Definition same_trees_diff : gmap string action * world :=
  Eval vm_compute in diff_of same_trees.
Definition linked_trees_diff : gmap string action * world :=
  Eval vm_compute in diff_of linked_trees.
Definition scenario_diff : gmap string action * world :=
  Eval vm_compute in diff_of scenario.

Ltac distinct_names := apply (bool_decide_unpack _); vm_compute; exact I.

(** ** Vocabulary of the further properties *)

(** The console after [get_input] has rejected the lines [junk]: the
    prompt was written once per line read, the one that ended the loop
    included, and every rejected line was echoed. *)
Definition asked (prompt : string) (junk : list string) (w : world) : world :=
  World (fs w) (stdin w)
        (out w ++ replicate (S (length junk)) (Prompt (prompt +:+ " ")))
        (err w ++ ((λ l, "You responded '" +:+ l +:+ "'") <$> junk))
        (commands w) (exit_status w).

(** The command line [gdiff] hands to the shell. *)
Definition viewer_command (L_path R_path : string) : string :=
  "gdiff -f -R -c 'windo set nonu| syntax off' '" +:+ L_path +:+ "' '" +:+ R_path +:+ "'".

(** The world after one run of the viewer. *)
Definition viewed (L_path R_path : string) (w : world) : world :=
  let w1 := run_command (viewer_command L_path R_path) w in
  if decide (exit_status w (viewer_command L_path R_path) ≠ 0%Z)
  then write_err "return code was {retcode}" w1 else w1.

(** [w'] holds at every path outside [paths] what [w] holds there. *)
Definition fs_outside (paths : list string) (w w' : world) : Prop :=
  ∀ p, p ∉ paths → fs w' !! p = fs w !! p.

(** A run from [w] that ends, changes the filesystem at [paths] only and
    raises no exception outside [E]. *)
Definition run_within {A} (paths : list string) (E : exn → Prop)
    (w : world) (r : result A) : Prop :=
  post r (λ _ w', fs_outside paths w w') (λ e w', E e ∧ fs_outside paths w w') False.

(** The paths the argument loop may change for one argument. *)
Definition touched (common_dir_prefix : option string) (arg : string) : list string :=
  let '(cur_path, new_path) := arg_paths common_dir_prefix arg in
  [cur_path; new_path; cur_path +:+ ".bak"].

(** A line the listing loop writes for a swap file. *)
Definition ignoring_line (line : string) : Prop :=
  ∃ pth nm, is_swap nm = true ∧ line = "ignoring: " +:+ pth +:+ "/" +:+ nm.

(** [w'] is [w] with such lines added on standard error. *)
Definition logs (w w' : world) : Prop :=
  ∃ lines, w' = write_errs lines w ∧ Forall ignoring_line lines.

(** The group a line typed at the prompt of [handle_dirs] selects; a line
    that selects none shows nothing. *)
Definition selected (would_ : list (verb * list string)) (response : string) : list string :=
  if decide (response = "d") then would_get would_ Delete
  else if decide (response = "c") then would_get would_ Create
  else if decide (response = "a") then would_get would_ Alter
  else if decide (response = "l") then would_get would_ Leave
  else [].

(** The viewer's command for one item of the two trees. *)
Definition item_command (cur_root new_root item_rel_path : string) : string :=
  viewer_command (cur_root +:+ "/" +:+ item_rel_path) (new_root +:+ "/" +:+ item_rel_path).

(** [sub] occurs in [s]. *)
Definition occurs (sub s : string) : Prop := ∃ p q, s = p +:+ sub +:+ q.

(** A tree as a filesystem holds it: in every directory, at any depth
    and behind any link, each name is listed once and holds no slash. *)
#[warnings="-register-all"]
Inductive proper : node → Prop :=
  | proper_reg x : proper (Reg x)
  | proper_other : proper Other
  | proper_dangling : proper (Symlink None)
  | proper_link t : proper t → proper (Symlink (Some t))
  | proper_dir es :
      NoDup es.*1 → Forall (λ e : string * node, ¬ occurs "/" e.1 ∧ proper e.2) es →
      proper (Dir es).

(** [key] lies strictly below [base], and at or below it. *)
Definition below (base key : string) : Prop := ∃ t, key = base +:+ "/" +:+ t.
Definition under (base key : string) : Prop := key = base ∨ below base key.

(** The action the loop of a level records for a name, from the two
    slots of the name; [None] for a pair of directories, which gets no
    action of its own. *)
Definition slot_action (s : slots) : option action :=
  match s with
  | (Some c_entry, None) => Some (Delete, [c_entry])
  | (None, Some n_entry) => Some (Create, [n_entry])
  | (Some c_entry, Some n_entry) =>
      match entry_node c_entry, entry_node n_entry with
      | Reg x, Reg y => Some (if bool_decide (x = y) then Leave else Alter, [c_entry; n_entry])
      | _, _ => None
      end
  | (None, None) => None
  end.

(** The verb for a name, from what the two directories hold under it. *)
Definition verdict (c n : option node) : option verb :=
  match c, n with
  | None, None => None
  | Some _, None => Some Delete
  | None, Some _ => Some Create
  | Some (Reg x), Some (Reg y) => Some (if bool_decide (x = y) then Leave else Alter)
  | Some _, Some _ => None
  end.



(** Only regular files and directories, at any depth. *)
#[warnings="-register-all"]
Inductive plain : node → Prop :=
  | plain_reg x : plain (Reg x)
  | plain_dir es : Forall (λ e : string * node, plain e.2) es → plain (Dir es).

(** The line of the report for one item. *)
Definition item_line (item_path : string) : output :=
  Line ("        " +:+ str_replace item_path "./" "").

(** [w'] is [w] with more written on standard output; an outcome that
    has only added to standard output. *)
Definition out_grows (w w' : world) : Prop := ∃ o, out w' = out w ++ o.
Definition adds_output {A} (w : world) (r : result A) : Prop :=
  post r (λ _ w', out_grows w w') (λ _ w', out_grows w w') True.


(** A current path that is a link to a regular file, and a candidate
    that is a special file. *)
Definition linked_file : world :=
  world_of [("l", Symlink (Some (Reg "1"))); ("l.new", Reg "2");
            ("s", Reg "1"); ("s.new", Other)] [].

(** [String] brought to the front of an append, in a hypothesis. *)
Ltac push_append H :=
  repeat match type of H with
         | context [String ?a ?s +:+ ?t] =>
             change (String a s +:+ t) with (String a (s +:+ t)) in H
         | context ["" +:+ ?t] => change ("" +:+ t) with t in H
         end.

(** A given string holds no occurrence of another: every position is
    tried. *)
Ltac no_occurrence :=
  cbn [fst snd]; intros (? & ? & ?);
  repeat match goal with
         | H : _ = ?p +:+ _ |- _ =>
             let c := fresh "c" in
             let p' := fresh "p" in
             destruct p as [|c p']; push_append H; [done|simplify_eq]
         end.

(** * Properties *)

(** ** The monad *)

Lemma bind_Return {A B} (m : M A) (k : A → M B) w a w' :
  m w = Return a w' → bind m k w = k a w'.
Proof. unfold bind. by intros ->. Qed.

Lemma bind_Raise {A B} (m : M A) (k : A → M B) w e w' :
  m w = Raise e w' → bind m k w = Raise e w'.
Proof. unfold bind. by intros ->. Qed.

(** ** Strings *)

Lemma length_app_string (s t : string) :
  String.length (s +:+ t) = String.length s + String.length t.
Proof. induction s as [|a s IH]; simpl; [done|]. by rewrite IH. Qed.

Lemma app_string_ne_self (s t : string) : t ≠ "" → s +:+ t ≠ s.
Proof.
  intros Ht Heq. apply (f_equal String.length) in Heq.
  rewrite length_app_string in Heq. destruct t; [done|]. simpl in Heq. lia.
Qed.

(** ** The prompt *)

(** Lines outside the valid responses are answered with a complaint and
    skipped; the first valid line is returned.  Only the console
    changes. *)
Lemma get_input_loop_valid prompt valid junk r rest lines w :
  Forall (λ l, l ∉ valid) junk → r ∈ valid →
  stdin w = junk ++ r :: rest → length junk ≤ length lines →
  ∃ w', get_input_loop prompt valid lines w = Return r w'
        ∧ fs w' = fs w ∧ stdin w' = rest ∧ commands w' = commands w
        ∧ exit_status w' = exit_status w.
Proof.
  intros Hjunk Hr. revert lines w.
  induction Hjunk as [|l junk Hl _ IH]; intros lines w Hin Hlen.
  - destruct lines; simpl; unfold bind, input; rewrite Hin; simpl.
    all: rewrite bool_decide_eq_true_2 by done; eauto 10.
  - destruct lines as [|l0 lines]; [simpl in Hlen; lia|].
    simpl. unfold bind at 1. unfold input. rewrite Hin. simpl.
    rewrite bool_decide_eq_false_2 by done.
    unfold bind, stderr.
    edestruct (IH lines) as (w' & -> & ? & ? & ? & ?); [| |eauto 10].
    + done.
    + simpl in Hlen. lia.
Qed.

Lemma get_input_valid prompt valid junk r rest w :
  Forall (λ l, l ∉ valid) junk → r ∈ valid →
  stdin w = junk ++ r :: rest →
  ∃ w', get_input prompt valid w = Return r w'
        ∧ fs w' = fs w ∧ stdin w' = rest ∧ commands w' = commands w
        ∧ exit_status w' = exit_status w.
Proof.
  intros ?? Hin. unfold get_input. eapply get_input_loop_valid; eauto.
  rewrite Hin, length_app. lia.
Qed.

(** The viewer changes neither the filesystem nor the pending input. *)
Lemma gdiff_frame L R w :
  ∃ w', gdiff L R w = Return tt w' ∧ fs w' = fs w ∧ stdin w' = stdin w.
Proof.
  unfold gdiff, bind, os_system. case_decide; unfold stderr, ret; eauto.
Qed.

(** ** Single files *)

Lemma filecmp_cmp_regular f1 f2 x y w :
  fs w !! f1 = Some (Reg x) → fs w !! f2 = Some (Reg y) →
  filecmp_cmp f1 f2 w = Return (bool_decide (x = y)) w.
Proof.
  intros H1 H2. unfold filecmp_cmp, filecmp_cmp_obj, bind, stat_obj. by rewrite H1, H2.
Qed.



(** C6, amended.  Two byte-identical regular files: no change is
    reported, the current file keeps its content and the candidate is
    removed, with no prompt, no line of input read and the viewer not
    run; nothing else in the filesystem changes. *)
Theorem handle_files_identical cur_path new_path x w :
  fs w !! cur_path = Some (Reg x) → fs w !! new_path = Some (Reg x) →
  cur_path ≠ new_path →
  ∃ w', handle_files cur_path new_path w = Return tt w'
        ∧ fs w' = delete new_path (fs w)
        ∧ fs w' !! cur_path = Some (Reg x)
        ∧ fs w' !! new_path = None
        ∧ stdin w' = stdin w
        ∧ out w' = out w
        ∧ commands w' = commands w
        ∧ err w' = err w ++ ["No change from " +:+ cur_path].
Proof.
  intros Hc Hn Hne. unfold handle_files.
  rewrite (bind_Return _ _ _ _ _ (filecmp_cmp_regular _ _ _ _ _ Hc Hn)).
  rewrite bool_decide_eq_true_2 by done.
  unfold bind, stderr, os_remove. simpl. rewrite Hn.
  eexists. split; [reflexivity|]. simpl.
  rewrite lookup_delete_ne by done. rewrite lookup_delete_eq. done.
Qed.


(** ** One directory level *)

(** The glob [.*.swp] matches the names that start with a dot and end
    with [.swp], the two not overlapping. *)
Lemma glob_star_spec pat s :
  (fix star (s : list ascii) : bool :=
     glob_match pat s || match s with [] => false | _ :: s' => star s' end) s = true
  ↔ ∃ pre post, s = pre ++ post ∧ glob_match pat post = true.
Proof.
  induction s as [|a s IH].
  - split.
    + intros H. exists [], []. split; [done|]. by rewrite orb_false_r in H.
    + intros (pre & post & Hs & Hm). symmetry in Hs. apply app_eq_nil in Hs as [-> ->].
      by rewrite Hm.
  - split.
    + intros [H|H]%orb_true_iff.
      * by exists [], (a :: s).
      * apply IH in H as (pre & post & -> & Hm). by exists (a :: pre), post.
    + intros (pre & post & Hs & Hm). apply orb_true_iff.
      destruct pre as [|b pre]; simpl in Hs.
      * left. by rewrite Hs.
      * right. injection Hs as -> ->. apply IH. eauto.
Qed.

Lemma glob_literal_spec (lit s : list ascii) :
  Forall (λ c, c ≠ "*"%char ∧ c ≠ "?"%char) lit →
  glob_match lit s = true ↔ s = lit.
Proof.
  intros Hlit. revert s. induction Hlit as [|c lit [H1 H2] _ IH]; intros s.
  - destruct s; simpl; split; congruence.
  - simpl. rewrite (proj2 (Ascii.eqb_neq _ _) H1), (proj2 (Ascii.eqb_neq _ _) H2).
    destruct s as [|a s]; [split; congruence|].
    rewrite andb_true_iff, Ascii.eqb_eq, IH.
    split; [by intros [-> ->] | by intros [= -> ->]].
Qed.

Lemma glob_match_star pat s :
  glob_match ("*"%char :: pat) s = true
  ↔ ∃ pre post, s = pre ++ post ∧ glob_match pat post = true.
Proof. apply glob_star_spec. Qed.

Lemma glob_match_char c pat s :
  c ≠ "*"%char → c ≠ "?"%char →
  glob_match (c :: pat) s = true ↔ ∃ s', s = c :: s' ∧ glob_match pat s' = true.
Proof.
  intros H1 H2. simpl.
  rewrite (proj2 (Ascii.eqb_neq _ _) H1), (proj2 (Ascii.eqb_neq _ _) H2).
  destruct s as [|a s].
  - split; [done|]. by intros (? & ? & _).
  - rewrite andb_true_iff, Ascii.eqb_eq. split.
    + intros [-> ?]. eauto.
    + intros (? & [= -> ->] & ?). done.
Qed.

Lemma list_ascii_of_app (s t : string) :
  String.list_ascii_of_string (s +:+ t)
  = String.list_ascii_of_string s ++ String.list_ascii_of_string t.
Proof. induction s as [|a s IH]; simpl; [done|]. by rewrite IH. Qed.

Lemma is_swap_spec nm :
  is_swap nm = true ↔ ∃ mid, nm = "." +:+ mid +:+ ".swp".
Proof.
  unfold is_swap, fnmatchcase.
  change (String.list_ascii_of_string ".*.swp")
    with ("."%char :: "*"%char :: String.list_ascii_of_string ".swp").
  rewrite glob_match_char by done. split.
  - intros (s' & Hnm & (pre & post & -> & Hpost)%glob_match_star).
    apply glob_literal_spec in Hpost; [|repeat constructor; done].
    exists (String.string_of_list_ascii pre).
    rewrite <- (String.string_of_list_ascii_of_string nm), Hnm, Hpost.
    change ("." +:+ String.string_of_list_ascii pre +:+ ".swp")
      with (String "." (String.string_of_list_ascii pre +:+ ".swp")).
    simpl. f_equal.
    clear. induction pre as [|b pre IH]; simpl; [done|]. by rewrite IH.
  - intros [mid ->]. exists (String.list_ascii_of_string (mid +:+ ".swp")).
    split; [done|]. apply glob_match_star.
    exists (String.list_ascii_of_string mid), (String.list_ascii_of_string ".swp").
    split; [apply list_ascii_of_app|done].
Qed.

Lemma write_errs_nil w : write_errs [] w = w.
Proof. destruct w. unfold write_errs. simpl. by rewrite app_nil_r. Qed.

Lemma write_errs_app l1 l2 w : write_errs l2 (write_errs l1 w) = write_errs (l1 ++ l2) w.
Proof. unfold write_errs. simpl. by rewrite app_assoc. Qed.

Lemma scan_loop i path entries d w :
  for_fold entries (λ d entry,
      if fnmatchcase (name entry) ".*.swp" then
        stderr ("ignoring: " +:+ path +:+ "/" +:+ name entry) ;;; ret d
      else ret (set_slot i entry d)) d w
  = Return (fill i entries d) (write_errs (ignored path entries) w).
Proof.
  revert d w. induction entries as [|e entries IH]; intros d w; simpl.
  { unfold ret. by rewrite write_errs_nil. }
  fold (is_swap (name e)). unfold ignored.
  destruct (is_swap (name e)) eqn:He.
  - rewrite filter_cons_True by done. unfold bind, stderr, ret. rewrite IH.
    change (write_err ?s w) with (write_errs [s] w). by rewrite write_errs_app.
  - rewrite filter_cons_False by congruence. unfold bind, ret. by rewrite IH.
Qed.

Lemma scan_root_dir i root dir_rel_path obj es d w :
  obj ≫= follow = Some (Dir es) →
  scan_root i root dir_rel_path obj d w
  = Return (fill i (listing (root +:+ "/" +:+ dir_rel_path) es) d)
      (write_errs (ignored (root +:+ "/" +:+ dir_rel_path)
                     (listing (root +:+ "/" +:+ dir_rel_path) es)) w).
Proof.
  intros Hobj. unfold scan_root, os_scandir. rewrite Hobj.
  unfold bind at 1. unfold ret at 1. apply scan_loop.
Qed.

Lemma scan_root_not_dir i root dir_rel_path obj d w :
  (∀ es, obj ≫= follow ≠ Some (Dir es)) →
  scan_root i root dir_rel_path obj d w = Raise OSError w.
Proof.
  intros Hobj. unfold scan_root, os_scandir.
  destruct (obj ≫= follow) as [[]|]; try done. by destruct (Hobj entries).
Qed.

Lemma recurse_S fuel cur_root new_root c_obj n_obj dir_rel_path acts :
  recurse_on_rel_path (S fuel) cur_root new_root c_obj n_obj dir_rel_path acts
  = (d <- scan_root cur_side cur_root dir_rel_path c_obj ∅ ;;
     d <- scan_root new_side new_root dir_rel_path n_obj d ;;
     for_fold (sorted_items d)
       (item_step (recurse_on_rel_path fuel cur_root new_root) dir_rel_path) acts).
Proof. reflexivity. Qed.

Lemma recurse_level fuel cur_root new_root c_obj n_obj ces nes dir_rel_path acts w :
  c_obj ≫= follow = Some (Dir ces) → n_obj ≫= follow = Some (Dir nes) →
  recurse_on_rel_path (S fuel) cur_root new_root c_obj n_obj dir_rel_path acts w
  = for_fold (sorted_items (level_dict cur_root new_root dir_rel_path ces nes))
      (item_step (recurse_on_rel_path fuel cur_root new_root) dir_rel_path) acts
      (write_errs (level_log cur_root new_root dir_rel_path ces nes) w).
Proof.
  intros Hc Hn. rewrite recurse_S.
  rewrite (bind_Return _ _ _ _ _ (scan_root_dir _ _ _ _ _ _ _ Hc)).
  rewrite (bind_Return _ _ _ _ _ (scan_root_dir _ _ _ _ _ _ _ Hn)).
  by rewrite write_errs_app.
Qed.

(** ** Sorted items of a dict *)

Global Instance key_le_total {V} : Total (@key_le V).
Proof. intros a b. unfold key_le. apply (total String.le). Qed.

Global Instance key_le_trans {V} : Transitive (@key_le V).
Proof. intros a b c. unfold key_le. apply transitivity. Qed.

Lemma sorted_items_perm {V} (m : gmap string V) : sorted_items m ≡ₚ map_to_list m.
Proof. apply merge_sort_Permutation. Qed.

Lemma elem_of_sorted_items {V} (m : gmap string V) k v :
  (k, v) ∈ sorted_items m ↔ m !! k = Some v.
Proof. rewrite sorted_items_perm. apply elem_of_map_to_list. Qed.

Lemma sorted_items_NoDup {V} (m : gmap string V) : NoDup (sorted_items m).*1.
Proof. rewrite sorted_items_perm. apply NoDup_fst_map_to_list. Qed.

Lemma sorted_items_sorted {V} (m : gmap string V) :
  StronglySorted String.le (sorted_items m).*1.
Proof.
  apply (StronglySorted_fmap fst key_le); [done|].
  apply StronglySorted_merge_sort; apply _.
Qed.

Lemma elem_of_sorted_keys {V} (m : gmap string V) k :
  k ∈ (sorted_items m).*1 ↔ is_Some (m !! k).
Proof.
  rewrite list_elem_of_fmap. split.
  - intros ([k' v] & -> & Hin). apply elem_of_sorted_items in Hin. eauto.
  - intros [v Hv]. exists (k, v). split; [done|]. by apply elem_of_sorted_items.
Qed.

(** A sorted list of distinct keys is determined by its elements. *)
Lemma sorted_keys_unique (l1 l2 : list string) :
  StronglySorted String.le l1 → StronglySorted String.le l2 →
  NoDup l1 → NoDup l2 → (∀ k, k ∈ l1 ↔ k ∈ l2) → l1 = l2.
Proof.
  intros H1 H2 N1 N2 Hel. apply (StronglySorted_unique String.le); [done..|].
  by apply NoDup_Permutation.
Qed.

Lemma sorted_items_keys_eq {V W} (m : gmap string V) (m' : gmap string W) :
  (∀ k, is_Some (m !! k) ↔ is_Some (m' !! k)) →
  (sorted_items m).*1 = (sorted_items m').*1.
Proof.
  intros Hdom. apply sorted_keys_unique;
    auto using sorted_items_sorted, sorted_items_NoDup.
  intros k. by rewrite !elem_of_sorted_keys.
Qed.

(** Two dicts with related values under the same keys have related
    sorted items. *)
Lemma sorted_items_related {V W} (R : V → W → Prop)
    (m : gmap string V) (m' : gmap string W) :
  (∀ k, option_Forall2 R (m !! k) (m' !! k)) →
  Forall2 (λ a b, a.1 = b.1 ∧ R a.2 b.2) (sorted_items m) (sorted_items m').
Proof.
  intros Hrel.
  assert ((sorted_items m).*1 = (sorted_items m').*1) as Hkeys.
  { apply sorted_items_keys_eq. intros k. specialize (Hrel k).
    destruct Hrel; split; intros [? ?]; eauto; done. }
  apply Forall2_same_length_lookup. split.
  { apply (f_equal length) in Hkeys. by rewrite !length_fmap in Hkeys. }
  intros i [k v] [k' v'] Hi Hi'.
  assert (k = k') as <-.
  { apply (f_equal (.!! i)) in Hkeys. rewrite !list_lookup_fmap, Hi, Hi' in Hkeys.
    by injection Hkeys. }
  split; [done|]. simpl.
  apply list_elem_of_lookup_2, elem_of_sorted_items in Hi.
  apply list_elem_of_lookup_2, elem_of_sorted_items in Hi'.
  specialize (Hrel k). rewrite Hi, Hi' in Hrel. by inversion Hrel.
Qed.

(** ** Loops *)

Lemma post_impl {A} (r : result A) (Q Q' : A → world → Prop)
    (E E' : exn → world → Prop) (D D' : Prop) :
  post r Q E D → (∀ a w, Q a w → Q' a w) → (∀ e w, E e w → E' e w) → (D → D') →
  post r Q' E' D'.
Proof. destruct r; simpl; auto. Qed.

Lemma for_fold_post {A S} (l : list A) (body : S → A → M S)
    (I : S → world → Prop) (E : exn → world → Prop) (D : Prop) s w :
  I s w →
  (∀ x s w, x ∈ l → I s w → post (body s x w) I E D) →
  post (for_fold l body s w) I E D.
Proof.
  revert s w. induction l as [|x l IH]; intros s w HI Hbody; simpl; [done|].
  unfold bind. specialize (Hbody x s w (list_elem_of_here _ _) HI) as Hx.
  destruct (body s x w) as [s' w'| |]; simpl in *; try done.
  apply IH; [done|]. intros. apply Hbody; [by constructor|done].
Qed.

(** ** What the dict of a level holds *)

Lemma fill_Forall i entries (P : string → slots → Prop) d :
  map_Forall P d →
  (∀ e s, e ∈ entries → is_swap (name e) = false →
          s = (None, None) ∨ P (name e) s → P (name e) (put_slot i e s)) →
  map_Forall P (fill i entries d).
Proof.
  unfold fill. revert d. induction entries as [|e entries IH]; intros d Hd Hput; [done|].
  simpl. apply IH.
  - destruct (is_swap (name e)) eqn:He; [done|].
    unfold set_slot. apply map_Forall_insert_2; [|done].
    apply (Hput e); [by left|done|].
    destruct (d !! name e) as [s|] eqn:Hs; simpl; [right; by apply Hd|by left].
  - intros e' s ?. apply Hput. by right.
Qed.

Lemma level_dict_slots cur_root new_root dir_rel_path ces nes :
  map_Forall
    (slot_from (listing (cur_root +:+ "/" +:+ dir_rel_path) ces)
               (listing (new_root +:+ "/" +:+ dir_rel_path) nes))
    (level_dict cur_root new_root dir_rel_path ces nes).
Proof.
  unfold level_dict. apply fill_Forall; [apply fill_Forall|].
  - apply map_Forall_empty.
  - intros e s He Hsw [->|(H1 & H2 & _)]; (split; [|split; [|split]]);
      simpl; try done; intros ? [= <-]; done.
  - intros e s He Hsw [->|(H1 & H2 & _)]; (split; [|split; [|split]]);
      simpl; try done; intros ? [= <-]; done.
Qed.

Lemma sorted_level_item cur_root new_root dir_rel_path ces nes item :
  item ∈ sorted_items (level_dict cur_root new_root dir_rel_path ces nes) →
  slot_from (listing (cur_root +:+ "/" +:+ dir_rel_path) ces)
            (listing (new_root +:+ "/" +:+ dir_rel_path) nes) item.1 item.2.
Proof.
  destruct item as [k s]. intros Hin%elem_of_sorted_items.
  by apply (level_dict_slots _ _ _ _ _ k s).
Qed.

Lemma elem_of_listing e pth es :
  e ∈ listing pth es ↔ ∃ x, (name e, x) ∈ es ∧ e = mkDirEntry (name e) (pth +:+ "/" +:+ name e) x.
Proof.
  unfold listing. rewrite list_elem_of_fmap. split.
  - intros ([nm x] & -> & Hin). simpl. eauto.
  - intros (x & Hin & ->). exists (name e, x). done.
Qed.

(** ** The recursion over the two trees *)

Lemma is_dir_follow e :
  is_dir true e = true → ∃ es, Some (entry_node e) ≫= follow = Some (Dir es).
Proof.
  unfold is_dir. simpl. destruct (follow (entry_node e)) as [[]|]; try done. eauto.
Qed.

Lemma is_file_reg e : is_file false e = true → ∃ x, entry_node e = Reg x.
Proof. unfold is_file. destruct (entry_node e); try done. eauto. Qed.

Lemma filecmp_cmp_obj_reg x y w :
  filecmp_cmp_obj (Some (Reg x)) (Some (Reg y)) w = Return (bool_decide (x = y)) w.
Proof. reflexivity. Qed.

(** The cases of the loop body. *)
Section item_step_cases.
Context (recurse : option node → option node → string →
                   gmap string action → M (gmap string action)).
Context (rel : string) (acts : gmap string action) (k : string).

Lemma item_step_delete ce :
  item_step recurse rel acts (k, (Some ce, None))
  = ret (<[rel +:+ "/" +:+ k := (Delete, [ce])]> acts).
Proof. reflexivity. Qed.

Lemma item_step_create ne :
  item_step recurse rel acts (k, (None, Some ne))
  = ret (<[rel +:+ "/" +:+ k := (Create, [ne])]> acts).
Proof. reflexivity. Qed.

Lemma item_step_files ce ne x y w :
  entry_node ce = Reg x → entry_node ne = Reg y →
  item_step recurse rel acts (k, (Some ce, Some ne)) w
  = Return (<[rel +:+ "/" +:+ k :=
               (if bool_decide (x = y) then Leave else Alter, [ce; ne])]> acts) w.
Proof.
  intros Hx Hy. unfold item_step, is_file. simpl. rewrite Hx, Hy. simpl.
  unfold bind. rewrite filecmp_cmp_obj_reg. by destruct (bool_decide (x = y)).
Qed.

Lemma item_step_dirs ce ne :
  is_file false ce && is_file false ne = false →
  is_dir true ce && is_dir true ne = true →
  item_step recurse rel acts (k, (Some ce, Some ne))
  = recurse (Some (entry_node ce)) (Some (entry_node ne)) (rel +:+ "/" +:+ k) acts.
Proof. intros Hf Hd. unfold item_step. cbn [fst snd]. by rewrite Hf, Hd. Qed.

Lemma item_step_mismatch ce ne :
  is_file false ce && is_file false ne = false →
  is_dir true ce && is_dir true ne = false →
  item_step recurse rel acts (k, (Some ce, Some ne)) = raise AssertionError.
Proof. intros Hf Hd. unfold item_step. cbn [fst snd]. by rewrite Hf, Hd. Qed.
End item_step_cases.

(** Every outcome of the recursion leaves the world as it was, lines on
    standard error apart; the only exception it raises below two
    directories is the assertion failure; and it keeps the dict clean. *)
Lemma recurse_post fuel cur_root new_root c_obj n_obj ces nes dir_rel_path acts w :
  c_obj ≫= follow = Some (Dir ces) → n_obj ≫= follow = Some (Dir nes) →
  clean_path dir_rel_path → map_Forall clean_action acts →
  post (recurse_on_rel_path fuel cur_root new_root c_obj n_obj dir_rel_path acts w)
    (λ acts' w', map_Forall clean_action acts' ∧ ∃ lines, w' = write_errs lines w)
    (λ e w', e = AssertionError ∧ ∃ lines, w' = write_errs lines w)
    True.
Proof.
  revert c_obj n_obj ces nes dir_rel_path acts w.
  induction fuel as [|fuel IH]; intros c_obj n_obj ces nes rel acts w Hc Hn Hrel Hacts;
    [done|].
  rewrite (recurse_level _ _ _ _ _ ces nes) by done.
  apply for_fold_post; [split; eauto|].
  intros [k [co no]] acts1 w1 Hitem [Hacts1 [lines ->]].
  apply sorted_level_item in Hitem as (Hco & Hno & Hk & Hnone). simpl in *.
  assert (clean_path (rel +:+ "/" +:+ k)) as Hclean by (by constructor).
  assert (∀ v es, Forall (λ e, name e = k) es →
            map_Forall clean_action (<[rel +:+ "/" +:+ k := (v, es)]> acts1)) as Hins.
  { intros v es Hes. apply map_Forall_insert_2; [|done]. split; [done|]. simpl.
    eapply Forall_impl; [exact Hes|]. intros e <-. eauto. }
  destruct co as [ce|], no as [ne|].
  - destruct (Hco ce eq_refl) as [Hce _], (Hno ne eq_refl) as [Hne _].
    destruct (is_file false ce && is_file false ne) eqn:Hfiles.
    { apply andb_true_iff in Hfiles as [[x Hx]%is_file_reg [y Hy]%is_file_reg].
      rewrite (item_step_files _ _ _ _ _ _ x y) by done.
      split; [apply Hins; by repeat constructor|eauto]. }
    destruct (is_dir true ce && is_dir true ne) eqn:Hdirs.
    2:{ rewrite item_step_mismatch by done. simpl. eauto. }
    rewrite item_step_dirs by done.
    apply andb_true_iff in Hdirs as [[ces' Hc']%is_dir_follow [nes' Hn']%is_dir_follow].
    eapply post_impl; [apply (IH _ _ ces' nes'); done| | |done].
    + intros acts' w' [? [lines' ->]]. split; [done|]. rewrite write_errs_app. eauto.
    + intros e w' [? [lines' ->]]. split; [done|]. rewrite write_errs_app. eauto.
  - destruct (Hco ce eq_refl) as [Hce _]. rewrite item_step_delete.
    split; [apply Hins; by repeat constructor|eauto].
  - destruct (Hno ne eq_refl) as [Hne _]. rewrite item_step_create.
    split; [apply Hins; by repeat constructor|eauto].
  - done.
Qed.

(** Below an object that is not a directory the listing fails at once. *)
Lemma recurse_not_dir fuel cur_root new_root c_obj n_obj dir_rel_path acts w :
  (∀ es, c_obj ≫= follow ≠ Some (Dir es)) ∨ (∀ es, n_obj ≫= follow ≠ Some (Dir es)) →
  ∃ lines,
    recurse_on_rel_path (S fuel) cur_root new_root c_obj n_obj dir_rel_path acts w
    = Raise OSError (write_errs lines w).
Proof.
  intros Hnd. rewrite recurse_S.
  destruct (c_obj ≫= follow) as [[x|ces|t|]|] eqn:Hc;
    try (exists []; rewrite write_errs_nil; apply bind_Raise, scan_root_not_dir;
         by rewrite Hc).
  rewrite (bind_Return _ _ _ _ _ (scan_root_dir _ _ _ _ _ _ _ Hc)).
  destruct Hnd as [Hnd|Hnd]; [by destruct (Hnd ces)|].
  eexists. apply bind_Raise, scan_root_not_dir. done.
Qed.

(** ** The fuel suffices *)

Lemma node_depth_follow c f : follow c = Some f → node_depth f = node_depth c.
Proof.
  revert c f. fix IH 1. intros [x|es|[t|]|] f Hf; simpl in *; try done; try by injection Hf as <-.
  by apply IH.
Qed.

Lemma node_depth_child es nm x : (nm, x) ∈ es → node_depth x < node_depth (Dir es).
Proof.
  simpl. induction es as [|[nm' x'] es IH]; intros Hin; [by apply elem_of_nil in Hin|].
  apply elem_of_cons in Hin as [[= <- <-]|Hin]; [lia|].
  specialize (IH Hin). lia.
Qed.

Lemma obj_depth_child (obj : option node) es e pth :
  obj ≫= follow = Some (Dir es) → e ∈ listing pth es →
  node_depth (entry_node e) < from_option node_depth 0 obj.
Proof.
  intros Hobj (x & Hin & ->)%elem_of_listing. simpl.
  destruct obj as [c|]; [|done]. simpl in *.
  rewrite <- (node_depth_follow _ _ Hobj). by eapply node_depth_child.
Qed.

Lemma follow_dir_cases (obj : option node) :
  (∃ es, obj ≫= follow = Some (Dir es)) ∨ (∀ es, obj ≫= follow ≠ Some (Dir es)).
Proof. destruct (obj ≫= follow) as [[x|es|t|]|]; eauto. Qed.

Lemma recurse_total fuel cur_root new_root c_obj n_obj dir_rel_path acts w :
  from_option node_depth 0 c_obj < fuel →
  recurse_on_rel_path fuel cur_root new_root c_obj n_obj dir_rel_path acts w ≠ Diverge.
Proof.
  revert c_obj n_obj dir_rel_path acts w.
  induction fuel as [|fuel IH]; intros c_obj n_obj rel acts w Hfuel; [lia|].
  destruct (follow_dir_cases c_obj) as [[ces Hc]|Hc].
  2:{ destruct (recurse_not_dir fuel cur_root new_root c_obj n_obj rel acts w)
        as [lines ->]; [by left|done]. }
  destruct (follow_dir_cases n_obj) as [[nes Hn]|Hn].
  2:{ destruct (recurse_not_dir fuel cur_root new_root c_obj n_obj rel acts w)
        as [lines ->]; [by right|done]. }
  rewrite (recurse_level _ _ _ _ _ ces nes) by done.
  assert (∀ r : result (gmap string action),
            post r (λ _ _, True) (λ _ _, True) False → r ≠ Diverge) as Hpost.
  { by intros [] ?. }
  apply Hpost, for_fold_post; [done|].
  intros [k [co no]] acts1 w1 Hitem _.
  apply sorted_level_item in Hitem as (Hco & Hno & Hk & Hnone). simpl in *.
  destruct co as [ce|], no as [ne|]; try done.
  destruct (Hco ce eq_refl) as [_ Hce].
  destruct (is_file false ce && is_file false ne) eqn:Hfiles.
  { apply andb_true_iff in Hfiles as [[x Hx]%is_file_reg [y Hy]%is_file_reg].
    by rewrite (item_step_files _ _ _ _ _ _ x y). }
  destruct (is_dir true ce && is_dir true ne) eqn:Hdirs.
  2:{ by rewrite item_step_mismatch. }
  rewrite item_step_dirs by done.
  specialize (IH (Some (entry_node ce)) (Some (entry_node ne)) (rel +:+ "/" +:+ k) acts1 w1).
  pose proof (obj_depth_child _ _ _ _ Hc Hce).
  destruct (recurse_on_rel_path fuel _ _ _ _ _ _ _); simpl; try done.
  apply IH; [simpl; lia|done].
Qed.

Lemma diff_trees_total cur_root new_root w : diff_trees cur_root new_root w ≠ Diverge.
Proof. unfold diff_trees. apply recurse_total. lia. Qed.

(** ** The directory workflow *)

Lemma diff_trees_Return cur_root new_root w acts w1 :
  diff_trees cur_root new_root w = Return acts w1 →
  map_Forall clean_action acts ∧ ∃ lines, w1 = write_errs lines w.
Proof.
  unfold diff_trees. intros Hret.
  destruct (follow_dir_cases (fs w !! cur_root)) as [[ces Hc]|Hc].
  2:{ edestruct recurse_not_dir as [lines Hr]; [by left|]. by rewrite Hr in Hret. }
  destruct (follow_dir_cases (fs w !! new_root)) as [[nes Hn]|Hn].
  2:{ edestruct recurse_not_dir as [lines Hr]; [by right|]. by rewrite Hr in Hret. }
  pose proof (recurse_post (S (from_option node_depth 0 (fs w !! cur_root)))
                cur_root new_root _ _ ces nes "." ∅ w Hc Hn clean_root
                (map_Forall_empty _)) as Hpost.
  by rewrite Hret in Hpost.
Qed.

(** Writing the report touches standard output only. *)
Lemma print_groups_frame would_ w :
  ∃ w', for_each would_ print_group w = Return tt w'
        ∧ fs w' = fs w ∧ stdin w' = stdin w ∧ commands w' = commands w.
Proof.
  assert (∀ A (l : list A) (f : A → string) w0,
            ∃ w', for_each l (λ x, print (f x)) w0 = Return tt w'
                  ∧ fs w' = fs w0 ∧ stdin w' = stdin w0 ∧ commands w' = commands w0) as Hlines.
  { intros A l f. induction l as [|x l IH]; intros w0; simpl; [by eexists|].
    rewrite (bind_Return _ _ _ tt (write_out (Line (f x)) w0)) by done.
    destruct (IH (write_out (Line (f x)) w0)) as (w' & -> & ? & ? & ?).
    by eexists. }
  revert w. induction would_ as [|g would_ IH]; intros w; simpl; [by eexists|].
  unfold bind at 1.
  assert (∃ w1, print_group g w = Return tt w1
                ∧ fs w1 = fs w ∧ stdin w1 = stdin w ∧ commands w1 = commands w)
    as (w1 & -> & Hfs & Hin & Hcmd).
  { unfold print_group.
    rewrite (bind_Return _ _ _ tt (write_out (Line "") w)) by done.
    rewrite (bind_Return _ _ _ tt (write_out (Line ("    " +:+ verb_name g.1 +:+ ":"))
                                     (write_out (Line "") w))) by done.
    case_decide; [by eexists|].
    destruct (_ && _); [by eexists|].
    destruct (Hlines _ g.2 (λ p, "        " +:+ str_replace p "./" "")
                (write_out (Line ("    " +:+ verb_name g.1 +:+ ":"))
                   (write_out (Line "") w))) as (w' & -> & ? & ? & ?).
    by eexists. }
  destruct (IH w1) as (w' & -> & ? & ? & ?). eexists. split; [done|]. 
  split; [congruence|]. split; congruence.
Qed.

Lemma gdiff_each_frame (cur_root new_root : string) (paths : list string) w :
  ∃ w', for_each paths (λ item_rel_path,
            gdiff (cur_root +:+ "/" +:+ item_rel_path) (new_root +:+ "/" +:+ item_rel_path)) w
        = Return tt w'
        ∧ fs w' = fs w ∧ stdin w' = stdin w.
Proof.
  revert w. induction paths as [|p paths IH]; intros w; simpl; [by eexists|].
  unfold bind at 1.
  destruct (gdiff_frame (cur_root +:+ "/" +:+ p) (new_root +:+ "/" +:+ p) w)
    as (w1 & -> & Hfs & Hin).
  destruct (IH w1) as (w' & -> & ? & ?). eexists. split; [done|]. split; congruence.
Qed.

(** A run of lines splits at its first valid response. *)
Lemma split_at_first_valid (valid pre : list string) :
  ∃ junk tail, pre = junk ++ tail ∧ Forall (λ l, l ∉ valid) junk
               ∧ (tail = [] ∨ ∃ r pre', tail = r :: pre' ∧ r ∈ valid).
Proof.
  induction pre as [|l pre (junk & tail & -> & Hjunk & Htail)].
  { exists [], []. eauto. }
  destruct (decide (l ∈ valid)) as [Hl|Hl].
  - exists [], (l :: junk ++ tail). split; [done|]. split; [done|]. right. eauto.
  - exists (l :: junk), tail. split; [done|]. split; [by constructor|done].
Qed.

Lemma select_loop_unfold lines cur_root new_root would_ :
  select_loop lines cur_root new_root would_
  = (stderr "" ;;;
     response <- get_input
       "select a group to examine [dcal] or 'y' to install the new or 'n' to skip it:"
       valid_dir_responses ;;
     if decide (response = "y") then
       stderr ("installing " +:+ new_root +:+ "...") ;;;
       shutil_rmtree cur_root ;;;
       os_rename new_root cur_root
     else if decide (response = "n") then
       stderr ("skipping " +:+ new_root +:+ "...")
     else
       v <- (if decide (response = "d") then ret Delete
             else if decide (response = "c") then ret Create
             else if decide (response = "a") then ret Alter
             else if decide (response = "l") then ret Leave
             else raise KeyError) ;;
       for_each (would_get would_ v) (λ item_rel_path,
         gdiff (cur_root +:+ "/" +:+ item_rel_path) (new_root +:+ "/" +:+ item_rel_path)) ;;;
       match lines with
       | [] => λ _, Diverge
       | _ :: lines' => select_loop lines' cur_root new_root would_
       end).
Proof. by destruct lines. Qed.

(** Whatever the operator inspects first, the response [n] ends the loop
    with the filesystem as it was. *)
Lemma select_loop_skip cur_root new_root would_ rest pre :
  ∀ lines w,
    Forall (λ l, l ≠ "y" ∧ l ≠ "n") pre →
    stdin w = pre ++ "n" :: rest → length pre ≤ length lines →
    ∃ w', select_loop lines cur_root new_root would_ w = Return tt w'
          ∧ fs w' = fs w ∧ stdin w' = rest.
Proof.
  remember (length pre) as len eqn:Hlen. revert pre Hlen.
  induction len as [len IH] using lt_wf_ind. intros pre -> lines w Hpre Hin Hlines.
  destruct (split_at_first_valid valid_dir_responses pre)
    as (junk & tail & -> & Hjunk & Htail).
  rewrite select_loop_unfold.
  rewrite (bind_Return _ _ _ tt (write_err "" w)) by done.
  destruct Htail as [->|(r & pre' & -> & Hr)].
  - rewrite app_nil_r in Hin.
    destruct (get_input_valid
                "select a group to examine [dcal] or 'y' to install the new or 'n' to skip it:"
                valid_dir_responses junk "n" rest (write_err "" w))
      as (w1 & Hg & Hfs & Hin1 & _); [done|unfold valid_dir_responses; by repeat constructor|done|].
    rewrite (bind_Return _ _ _ _ _ Hg).
    rewrite decide_False, decide_True by done.
    eexists. split; [reflexivity|]. simpl. by rewrite Hfs, Hin1.
  - apply Forall_app in Hpre as [_ Hpre]. apply Forall_cons in Hpre as [[Hry Hrn] Hpre].
    rewrite <- app_assoc in Hin. simpl in Hin.
    destruct (get_input_valid
                "select a group to examine [dcal] or 'y' to install the new or 'n' to skip it:"
                valid_dir_responses junk r (pre' ++ "n" :: rest) (write_err "" w))
      as (w1 & Hg & Hfs & Hin1 & _); [done..|].
    rewrite (bind_Return _ _ _ _ _ Hg).
    rewrite !decide_False by done.
    assert (∃ v, (if decide (r = "d") then ret Delete
                  else if decide (r = "c") then ret Create
                  else if decide (r = "a") then ret Alter
                  else if decide (r = "l") then ret Leave
                  else raise KeyError) w1 = Return v w1) as [v Hv].
    { repeat case_decide; eauto. unfold valid_dir_responses in Hr.
      repeat (apply elem_of_cons in Hr as [->|Hr]; [done|]). by apply elem_of_nil in Hr. }
    rewrite (bind_Return _ _ _ _ _ Hv).
    destruct (gdiff_each_frame cur_root new_root (would_get would_ v) w1)
      as (w2 & Hd & Hfs2 & Hin2).
    rewrite (bind_Return _ _ _ _ _ Hd).
    rewrite length_app in Hlines. simpl in Hlines.
    destruct lines as [|l0 lines]; [simpl in Hlines; lia|].
    destruct (IH (length pre')) with (pre := pre') (lines := lines) (w := w2)
      as (w' & Hloop & Hfs' & Hin'); try done.
    + rewrite length_app. simpl. lia.
    + congruence.
    + simpl in Hlines. lia.
    + exists w'. split; [done|]. split; [|done]. rewrite Hfs', Hfs2, Hfs. done.
Qed.

Lemma no_effect_spec acts :
  no_effect (group_actions acts) = true ↔ mutating_groups_empty acts.
Proof.
  unfold no_effect, mutating_groups_empty. simpl.
  rewrite !andb_true_iff, !bool_decide_eq_true, !length_zero_iff_nil. tauto.
Qed.

Lemma handle_dirs_report cur_root new_root acts w w1 :
  diff_trees cur_root new_root w = Return acts w1 →
  handle_dirs cur_root new_root w
  = (if no_effect (group_actions acts) then
       print "    have no effect," ;;;
       print ("    so removing " +:+ new_root +:+ "...") ;;;
       shutil_rmtree new_root
     else
       for_each (group_actions acts) print_group ;;;
       λ w, select_loop (stdin w) cur_root new_root (group_actions acts) w)
      (write_out (Line ("Replacing " +:+ cur_root +:+ " with " +:+ new_root +:+ " would..."))
         (write_out (Line "") w1)).
Proof. intros Hd. unfold handle_dirs. by rewrite (bind_Return _ _ _ _ _ Hd). Qed.

(** C5.  A directory merge whose delete, create and alter groups are all
    empty reports that it has no effect and removes the candidate tree:
    the filesystem loses [new_root] and nothing else, no line of input is
    read, no prompt is written and the viewer is not run. *)
Theorem handle_dirs_no_effect cur_root new_root es acts w1 w :
  fs w !! new_root = Some (Dir es) →
  diff_trees cur_root new_root w = Return acts w1 →
  mutating_groups_empty acts →
  ∃ w', handle_dirs cur_root new_root w = Return tt w'
        ∧ fs w' = delete new_root (fs w)
        ∧ stdin w' = stdin w
        ∧ commands w' = commands w
        ∧ out w' = out w ++ [Line "";
                             Line ("Replacing " +:+ cur_root +:+ " with " +:+ new_root
                                   +:+ " would...");
                             Line "    have no effect,";
                             Line ("    so removing " +:+ new_root +:+ "...")].
Proof.
  intros Hnew Hd Hempty. rewrite (handle_dirs_report _ _ _ _ _ Hd).
  apply no_effect_spec in Hempty as ->.
  apply diff_trees_Return in Hd as [_ [lines ->]].
  unfold bind, print, shutil_rmtree. simpl. rewrite Hnew.
  eexists. split; [reflexivity|]. simpl. rewrite <- !app_assoc. done.
Qed.

(** C1, amended.  In the directory workflow the response [n] ends the
    workflow and changes nothing in the filesystem: the current tree is
    untouched and the new tree stays where it is (it is not removed).
    This holds whatever the operator typed before [n]: groups to inspect,
    lines that are no valid response. *)
Theorem handle_dirs_skip cur_root new_root acts w1 pre rest w :
  diff_trees cur_root new_root w = Return acts w1 →
  ¬ mutating_groups_empty acts →
  Forall (λ l, l ≠ "y" ∧ l ≠ "n") pre →
  stdin w = pre ++ "n" :: rest →
  ∃ w', handle_dirs cur_root new_root w = Return tt w'
        ∧ fs w' = fs w
        ∧ fs w' !! cur_root = fs w !! cur_root
        ∧ fs w' !! new_root = fs w !! new_root
        ∧ stdin w' = rest.
Proof.
  intros Hd Heff Hpre Hin. rewrite (handle_dirs_report _ _ _ _ _ Hd).
  destruct (no_effect (group_actions acts)) eqn:Hne.
  { by apply no_effect_spec in Hne. }
  apply diff_trees_Return in Hd as [_ [lines ->]].
  destruct (print_groups_frame (group_actions acts)
              (write_out (Line ("Replacing " +:+ cur_root +:+ " with " +:+ new_root
                                +:+ " would..."))
                 (write_out (Line "") (write_errs lines w))))
    as (w2 & Hp & Hfs2 & Hin2 & _).
  rewrite (bind_Return _ _ _ _ _ Hp).
  destruct (select_loop_skip cur_root new_root (group_actions acts) rest pre (stdin w2) w2)
    as (w' & Hloop & Hfs' & Hin'); [done|by rewrite Hin2|..].
  { rewrite Hin2. simpl. rewrite Hin, length_app. lia. }
  exists w'. split; [done|].
  assert (fs w' = fs w) as Hfs by (by rewrite Hfs', Hfs2).
  by rewrite Hfs.
Qed.

(** ** Grouping by verb *)

Lemma elem_of_verbs v : v ∈ verbs.
Proof. destruct v; unfold verbs; by repeat constructor. Qed.

Lemma would_append_keys v p would_ : (would_append v p would_).*1 = would_.*1.
Proof.
  unfold would_append. induction would_ as [|g would_ IH]; csimpl; [done|].
  f_equal; [by case_decide|done].
Qed.

Lemma would_get_append v' p would_ v :
  v ∈ would_.*1 →
  would_get (would_append v' p would_) v
  = if decide (v = v') then would_get would_ v ++ [p] else would_get would_ v.
Proof.
  unfold would_append. induction would_ as [|g would_ IH]; simpl.
  { by intros ?%elem_of_nil. }
  intros Hin. destruct (decide (g.1 = v')) as [Hv'|Hv']; simpl.
  - destruct (decide (g.1 = v)) as [Hv|Hv].
    + by rewrite decide_True by congruence.
    + apply elem_of_cons in Hin as [->|Hin]; [done|]. by apply IH.
  - destruct (decide (g.1 = v)) as [Hv|Hv].
    + by rewrite decide_False by congruence.
    + apply elem_of_cons in Hin as [->|Hin]; [done|]. by apply IH.
Qed.

Lemma group_fold_keys (items : list (string * action)) would_ :
  (foldl (λ would_ item, would_append item.2.1 item.1 would_) would_ items).*1 = would_.*1.
Proof.
  revert would_. induction items as [|item items IH]; intros would_; simpl; [done|].
  by rewrite IH, would_append_keys.
Qed.

Lemma group_fold_get (items : list (string * action)) would_ v :
  would_.*1 = verbs →
  would_get (foldl (λ would_ item, would_append item.2.1 item.1 would_) would_ items) v
  = would_get would_ v ++ (filter (λ item, item.2.1 = v) items).*1.
Proof.
  revert would_. induction items as [|item items IH]; intros would_ Hkeys; simpl.
  { by rewrite app_nil_r. }
  rewrite IH by (by rewrite would_append_keys).
  rewrite would_get_append by (rewrite Hkeys; apply elem_of_verbs).
  destruct (decide (item.2.1 = v)) as [Heq|Hne].
  - rewrite decide_True, filter_cons_True by done. by rewrite <- app_assoc.
  - rewrite decide_False, filter_cons_False by done. done.
Qed.

(** Each group holds, in the order of the sorted items, the paths whose
    action has the verb of the group. *)
Lemma would_get_group acts v :
  would_get (group_actions acts) v
  = (filter (λ item, item.2.1 = v) (sorted_items acts)).*1.
Proof. unfold group_actions. rewrite group_fold_get by done. by destruct v. Qed.

Lemma group_actions_keys acts : (group_actions acts).*1 = verbs.
Proof. unfold group_actions. by rewrite group_fold_keys. Qed.

Lemma StronglySorted_filter {A} (R : relation A) (P : A → Prop)
    `{∀ x, Decision (P x)} l :
  StronglySorted R l → StronglySorted R (filter P l).
Proof.
  induction 1 as [|x l Hl IH Hx]; [constructor|].
  destruct (decide (P x)).
  - rewrite filter_cons_True by done. constructor; [done|].
    apply Forall_forall. intros y [_ Hy]%list_elem_of_filter.
    by eapply Forall_forall in Hx.
  - by rewrite filter_cons_False.
Qed.

Lemma elem_of_would_get acts v p :
  p ∈ would_get (group_actions acts) v ↔ ∃ es, acts !! p = Some (v, es).
Proof.
  rewrite would_get_group, list_elem_of_fmap. split.
  - intros ([k [v' es]] & -> & [Hv Hin]%list_elem_of_filter). simpl in *. subst v'.
    apply elem_of_sorted_items in Hin. eauto.
  - intros [es Hp]. exists (p, (v, es)). split; [done|].
    apply list_elem_of_filter. split; [done|]. by apply elem_of_sorted_items.
Qed.

(** C8.  The dict [would_] has the four groups in the order of the
    source; a path is in some group exactly when it is a key of the dict
    of actions (a directory that only triggers recursion is no key); no
    path is in two groups; each group is sorted and without
    duplicates. *)
Theorem groups_partition (acts : gmap string action) :
  let would_ := group_actions acts in
  would_.*1 = [Delete; Create; Alter; Leave]
  ∧ (∀ p, (∃ v, p ∈ would_get would_ v) ↔ is_Some (acts !! p))
  ∧ (∀ v1 v2 p, p ∈ would_get would_ v1 → p ∈ would_get would_ v2 → v1 = v2)
  ∧ (∀ v, StronglySorted String.le (would_get would_ v))
  ∧ (∀ v, NoDup (would_get would_ v)).
Proof.
  intros would_. unfold would_. split; [apply group_actions_keys|]. split; [|split; [|split]].
  - intros p. split.
    + intros [v [es Hp]%elem_of_would_get]. eauto.
    + intros [[v es] Hp]. exists v. apply elem_of_would_get. eauto.
  - intros v1 v2 p [es1 H1]%elem_of_would_get [es2 H2]%elem_of_would_get. congruence.
  - intros v. rewrite would_get_group.
    apply (StronglySorted_fmap fst key_le); [done|].
    apply StronglySorted_filter, StronglySorted_merge_sort; apply _.
  - intros v. rewrite would_get_group.
    eapply sublist_NoDup; [apply (sorted_items_NoDup acts)|].
    apply fmap_sublist, sublist_filter.
Qed.

(** ** The levels the recursion visits *)

Global Instance err_grows_preorder : PreOrder err_grows.
Proof.
  split.
  - intros w. exists []. by rewrite write_errs_nil.
  - intros w1 w2 w3 [l1 ->] [l2 ->]. exists (l1 ++ l2). by rewrite write_errs_app.
Qed.


Lemma for_fold_app {A S} (l1 l2 : list A) (body : S → A → M S) s w :
  for_fold (l1 ++ l2) body s w = (s' <- for_fold l1 body s ;; for_fold l2 body s') w.
Proof.
  revert s w. induction l1 as [|x l1 IH]; intros s w; simpl; [done|].
  unfold bind in *. destruct (body s x w); [|done..]. by rewrite IH.
Qed.

(** In a loop that returns, the body has returned at every element. *)
Lemma for_fold_visit {A S} (l : list A) (body : S → A → M S) x s w s' w' :
  (∀ y s w, y ∈ l → post (body s y w) (λ _ w', err_grows w w') (λ _ _, True) True) →
  for_fold l body s w = Return s' w' → x ∈ l →
  ∃ s1 w1 s2 w2, err_grows w w1 ∧ body s1 x w1 = Return s2 w2 ∧ err_grows w2 w'.
Proof.
  intros Hbody Hret Hx.
  assert (∀ l0 s0 w0 s0' w0', (∀ y, y ∈ l0 → y ∈ l) →
            for_fold l0 body s0 w0 = Return s0' w0' → err_grows w0 w0') as Hgrow.
  { intros l0 s0 w0 s0' w0' Hsub Hr.
    pose proof (for_fold_post l0 body (λ _ w'', err_grows w0 w'') (λ _ _, True) True s0 w0) as Hp.
    rewrite Hr in Hp. apply Hp; [done|].
    intros y s1 w1 Hy Hw1. eapply post_impl; [apply Hbody; auto| |done..].
    intros ? w2 Hw2. simpl in *. by etrans. }
  apply list_elem_of_split in Hx as (l1 & l2 & ->).
  rewrite for_fold_app in Hret. unfold bind in Hret.
  destruct (for_fold l1 body s w) as [s1 w1| |] eqn:H1; try done.
  simpl in Hret. unfold bind in Hret.
  destruct (body s1 x w1) as [s2 w2| |] eqn:H2; try done.
  exists s1, w1, s2, w2. split; [|split; [done|]].
  - eapply Hgrow; [|done]. intros y Hy. apply elem_of_app. by left.
  - eapply Hgrow; [|done]. intros y Hy. apply elem_of_app. right. by right.
Qed.

(** The recursion only adds lines to standard error, whatever its
    outcome. *)
Lemma recurse_frame fuel cur_root new_root c_obj n_obj rel acts w :
  post (recurse_on_rel_path fuel cur_root new_root c_obj n_obj rel acts w)
    (λ _ w', err_grows w w') (λ _ w', err_grows w w') True.
Proof.
  revert c_obj n_obj rel acts w.
  induction fuel as [|fuel IH]; intros c_obj n_obj rel acts w; [done|].
  destruct (follow_dir_cases c_obj) as [[ces Hc]|Hc].
  2:{ destruct (recurse_not_dir fuel cur_root new_root c_obj n_obj rel acts w)
        as [lines ->]; [by left|]. by exists lines. }
  destruct (follow_dir_cases n_obj) as [[nes Hn]|Hn].
  2:{ destruct (recurse_not_dir fuel cur_root new_root c_obj n_obj rel acts w)
        as [lines ->]; [by right|]. by exists lines. }
  rewrite (recurse_level _ _ _ _ _ ces nes) by done.
  apply for_fold_post; [by eexists|].
  intros [k [co no]] acts1 w1 _ Hw1.
  assert (∀ r : result (gmap string action),
            post r (λ _ w', err_grows w1 w') (λ _ w', err_grows w1 w') True →
            post r (λ _ w', err_grows w w') (λ _ w', err_grows w w') True) as Htrans.
  { intros r Hr. eapply post_impl; [exact Hr| | |done]; intros; simpl in *; by etrans. }
  apply Htrans. unfold item_step. cbn [fst snd].
  destruct co as [ce|], no as [ne|]; try done; try (simpl; reflexivity).
  destruct (is_file false ce && is_file false ne) eqn:Hfiles.
  { apply andb_true_iff in Hfiles as [[x Hx]%is_file_reg [y Hy]%is_file_reg].
    rewrite Hx, Hy. unfold bind. rewrite filecmp_cmp_obj_reg.
    destruct (bool_decide (x = y)); simpl; reflexivity. }
  destruct (is_dir true ce && is_dir true ne); [apply IH|simpl; reflexivity].
Qed.

(** The loop body only adds lines to standard error. *)
Lemma item_step_grows fuel cur_root new_root rel item acts w :
  post (item_step (recurse_on_rel_path fuel cur_root new_root) rel acts item w)
    (λ _ w', err_grows w w') (λ _ _, True) True.
Proof.
  destruct item as [k [co no]]. unfold item_step. cbn [fst snd].
  destruct co as [ce|], no as [ne|]; try done; try (simpl; reflexivity).
  destruct (is_file false ce && is_file false ne) eqn:Hfiles.
  { apply andb_true_iff in Hfiles as [[x Hx]%is_file_reg [y Hy]%is_file_reg].
    rewrite Hx, Hy. unfold bind. rewrite filecmp_cmp_obj_reg.
    destruct (bool_decide (x = y)); simpl; reflexivity. }
  destruct (is_dir true ce && is_dir true ne); [|done].
  eapply post_impl; [apply recurse_frame|done..].
Qed.

(** A recursion that returns has run the loop of every level it
    reaches, and that loop has returned. *)
Lemma recurse_visits cur_root new_root rel c_obj n_obj rel' ces' nes' :
  reaches cur_root new_root rel c_obj n_obj rel' ces' nes' →
  ∀ fuel acts w acts' w',
    recurse_on_rel_path fuel cur_root new_root c_obj n_obj rel acts w = Return acts' w' →
    ∃ fuel' acts1 w1 acts2 w2,
      err_grows w w1
      ∧ for_fold (sorted_items (level_dict cur_root new_root rel' ces' nes'))
          (item_step (recurse_on_rel_path fuel' cur_root new_root) rel') acts1
          (write_errs (level_log cur_root new_root rel' ces' nes') w1)
        = Return acts2 w2
      ∧ err_grows w2 w'.
Proof.
  induction 1 as [rel c_obj n_obj ces nes Hc Hn
                 |rel c_obj n_obj ces nes k ce ne rel' ces' nes' Hc Hn Hk Hf Hd _ IH];
    intros [|fuel] acts w acts' w' Hret; try done;
    rewrite (recurse_level _ _ _ _ _ ces nes) in Hret by done.
  - exists fuel, acts, w, acts', w'. done.
  - apply elem_of_sorted_items in Hk.
    eapply for_fold_visit in Hret as (acts1 & w1 & acts2 & w2 & Hw1 & Hbody & Hw2);
      [| |exact Hk].
    2:{ intros. apply item_step_grows. }
    rewrite item_step_dirs in Hbody by done.
    apply IH in Hbody as (fuel' & a1 & v1 & a2 & v2 & Hv1 & Hfold & Hv2).
    exists fuel', a1, v1, a2, v2. split; [|split; [done|by etrans]].
    etrans; [|exact Hv1]. etrans; [|exact Hw1]. by eexists.
Qed.



(** ** Swap files *)


(** ** Type mismatches *)

Lemma reaches_dirs cur_root new_root rel c_obj n_obj rel' ces' nes' :
  reaches cur_root new_root rel c_obj n_obj rel' ces' nes' →
  ∃ ces nes, c_obj ≫= follow = Some (Dir ces) ∧ n_obj ≫= follow = Some (Dir nes).
Proof. destruct 1; eauto. Qed.

(** A name whose two sides are neither both regular files nor both
    directories stops the recursion that reaches it. *)
Lemma recurse_mismatch cur_root new_root rel c_obj n_obj rel' ces' nes' k ce ne :
  reaches cur_root new_root rel c_obj n_obj rel' ces' nes' →
  level_dict cur_root new_root rel' ces' nes' !! k = Some (Some ce, Some ne) →
  is_file false ce && is_file false ne = false →
  is_dir true ce && is_dir true ne = false →
  ∀ fuel acts w acts' w',
    recurse_on_rel_path fuel cur_root new_root c_obj n_obj rel acts w ≠ Return acts' w'.
Proof.
  intros Hreach Hk Hf Hd fuel acts w acts' w' Hret.
  eapply recurse_visits in Hret as (fuel' & a1 & v1 & a2 & v2 & _ & Hfold & _);
    [|exact Hreach].
  apply elem_of_sorted_items in Hk.
  eapply for_fold_visit in Hfold as (s1 & u1 & s2 & u2 & _ & Hbody & _); [| |exact Hk].
  2:{ intros. apply item_step_grows. }
  by rewrite item_step_mismatch in Hbody.
Qed.

Lemma diff_trees_mismatch cur_root new_root w rel ces nes k ce ne :
  reaches cur_root new_root "." (fs w !! cur_root) (fs w !! new_root) rel ces nes →
  level_dict cur_root new_root rel ces nes !! k = Some (Some ce, Some ne) →
  is_file false ce && is_file false ne = false →
  is_dir true ce && is_dir true ne = false →
  ∃ w', diff_trees cur_root new_root w = Raise AssertionError w' ∧ err_grows w w'.
Proof.
  intros Hreach Hk Hf Hd.
  pose proof (diff_trees_total cur_root new_root w) as Htotal.
  pose proof (recurse_mismatch _ _ _ _ _ _ _ _ _ _ _ Hreach Hk Hf Hd
                (S (from_option node_depth 0 (fs w !! cur_root))) ∅ w) as Hnoret.
  destruct (reaches_dirs _ _ _ _ _ _ _ _ Hreach) as (ces0 & nes0 & Hc & Hn).
  pose proof (recurse_post (S (from_option node_depth 0 (fs w !! cur_root)))
                cur_root new_root _ _ ces0 nes0 "." ∅ w Hc Hn clean_root
                (map_Forall_empty _)) as Hpost.
  unfold diff_trees in *.
  destruct (recurse_on_rel_path _ _ _ _ _ _ _ _) as [a w'|e w'|]; simpl in *.
  - by destruct (Hnoret a w').
  - destruct Hpost as [-> Hw]. eauto.
  - done.
Qed.

Lemma get_type_lstat pth c w :
  fs w !! pth = Some c →
  get_type pth w
  = Return (if S_ISDIR c then type_dir else if S_ISREG c then type_reg else type_other) w.
Proof.
  intros Hc. unfold get_type, bind, os_lstat. rewrite Hc.
  by destruct (S_ISDIR c), (S_ISREG c).
Qed.

Lemma exists_not_link pth c w :
  fs w !! pth = Some c → S_ISDIR c || S_ISREG c = true →
  os_path_exists pth w = Return true w.
Proof.
  intros Hc Hk. unfold os_path_exists. rewrite Hc. by destruct c.
Qed.

(** What the body of the argument loop does with two objects of the
    kinds the script supports. *)
Lemma main_body_both common_dir_prefix arg cur_path new_path c n w :
  arg_paths common_dir_prefix arg = (cur_path, new_path) →
  fs w !! cur_path = Some c → fs w !! new_path = Some n →
  S_ISDIR c || S_ISREG c = true → S_ISDIR n || S_ISREG n = true →
  main_body common_dir_prefix arg w
  = (if file_vs_dir c n then
       stderr ("ERROR: " +:+ cur_path +:+ " is a "
               +:+ type_name (if S_ISDIR c then type_dir else type_reg) +:+ ", but "
               +:+ new_path +:+ " is a "
               +:+ type_name (if S_ISDIR n then type_dir else type_reg))
     else if S_ISDIR c then handle_dirs cur_path new_path
     else handle_files cur_path new_path) w.
Proof.
  intros Hpaths Hc Hn Hck Hnk. unfold main_body.
  unfold arg_paths in Hpaths.
  match type of Hpaths with (if ?b then _ else _) = _ => destruct b end;
    injection Hpaths as <- <-.
  all: rewrite (bind_Return _ _ _ _ _ (exists_not_link _ _ _ Hn Hnk)); cbn [negb];
       rewrite (bind_Return _ _ _ _ _ (exists_not_link _ _ _ Hc Hck)); cbn [negb];
       unfold bind at 1; rewrite (get_type_lstat _ _ _ Hc);
       unfold file_vs_dir;
       destruct c; try done; cbn [S_ISDIR S_ISREG];
       (rewrite decide_False by done);
       unfold bind at 1; rewrite (get_type_lstat _ _ _ Hn);
       destruct n; try done; cbn [S_ISDIR S_ISREG];
       (rewrite decide_False by done);
       first [by rewrite decide_True by done
             |by rewrite decide_False by (by intros ?)].
Qed.

(** C2, amended.  A top-level argument whose two sides are a file and a
    directory is reported on standard error, nothing is changed, and the
    loop goes on with the remaining arguments.  A name inside a directory
    merge whose two sides are a file and a directory makes the comparison
    raise an assertion failure: neither side is taken and nothing is
    changed but lines on standard error, and the exception, which
    nothing catches, ends the argument loop, so the remaining arguments
    are not processed. *)
Theorem type_mismatch_handling common_dir_prefix arg rest cur_path new_path w :
  arg_paths common_dir_prefix arg = (cur_path, new_path) →
  (∀ c n,
     fs w !! cur_path = Some c → fs w !! new_path = Some n →
     file_vs_dir c n = true →
     for_each (arg :: rest) (main_body common_dir_prefix) w
     = for_each rest (main_body common_dir_prefix)
         (write_err ("ERROR: " +:+ cur_path +:+ " is a "
                     +:+ type_name (if S_ISDIR c then type_dir else type_reg) +:+ ", but "
                     +:+ new_path +:+ " is a "
                     +:+ type_name (if S_ISDIR n then type_dir else type_reg)) w))
  ∧ (∀ ces nes rel ces' nes' k ce ne,
       fs w !! cur_path = Some (Dir ces) → fs w !! new_path = Some (Dir nes) →
       reaches cur_path new_path "." (Some (Dir ces)) (Some (Dir nes)) rel ces' nes' →
       level_dict cur_path new_path rel ces' nes' !! k = Some (Some ce, Some ne) →
       file_vs_dir (entry_node ce) (entry_node ne) = true →
       ∃ w', for_each (arg :: rest) (main_body common_dir_prefix) w
             = Raise AssertionError w'
             ∧ err_grows w w').
Proof.
  intros Hpaths. split.
  - intros c n Hc Hn Hmis. simpl. unfold bind at 1.
    rewrite (main_body_both _ _ _ _ c n _ Hpaths Hc Hn), Hmis.
    + done.
    + unfold file_vs_dir in Hmis. by destruct c, n.
    + unfold file_vs_dir in Hmis. by destruct c, n.
  - intros ces nes rel ces' nes' k ce ne Hc Hn Hreach Hk Hmis.
    destruct (diff_trees_mismatch cur_path new_path w rel ces' nes' k ce ne)
      as (w' & Hd & Hw').
    + by rewrite Hc, Hn.
    + done.
    + unfold file_vs_dir, is_file in *. by destruct (entry_node ce), (entry_node ne).
    + unfold file_vs_dir, is_dir in *.
      by destruct (entry_node ce), (entry_node ne).
    + exists w'. split; [|done]. simpl. unfold bind at 1.
      rewrite (main_body_both _ _ _ _ (Dir ces) (Dir nes) _ Hpaths Hc Hn) by done.
      simpl. unfold handle_dirs. by rewrite (bind_Raise _ _ _ _ _ Hd).
Qed.

(** ** Independence of the listing order *)

Lemma follow_equiv c c' :
  node_equiv c c' → well_listed c → option_Forall2 obj_rel (follow c) (follow c').
Proof.
  induction 1 as [x| | |t t' Ht IH|es mid es' Hp Hf]; intros Hwl; simpl.
  - constructor. split; [constructor|done].
  - constructor. split; [constructor|done].
  - constructor.
  - apply IH. by inversion Hwl.
  - constructor. split; [by econstructor|done].
Qed.

Lemma obj_follow_equiv (o o' : option node) :
  option_Forall2 obj_rel o o' → option_Forall2 obj_rel (o ≫= follow) (o' ≫= follow).
Proof. destruct 1 as [x x' [??]|]; simpl; [by apply follow_equiv|constructor]. Qed.

Lemma obj_rel_dir_l es x' : obj_rel (Dir es) x' → ∃ es', x' = Dir es'.
Proof. intros [H _]. inversion H. eauto. Qed.

Lemma obj_rel_dir_r x es' : obj_rel x (Dir es') → ∃ es, x = Dir es.
Proof. intros [H _]. inversion H. eauto. Qed.

(** The listings of two equivalent directories hold equivalent objects
    under the same names. *)
Lemma listing_equiv es es' :
  obj_rel (Dir es) (Dir es') →
  NoDup es.*1 ∧ NoDup es'.*1
  ∧ ∀ k, option_Forall2 obj_rel ((list_to_map es : gmap string node) !! k)
                                ((list_to_map es' : gmap string node) !! k).
Proof.
  intros [Heq Hwl]. inversion Hwl as [| | | |? Hnd Hall]; subst.
  inversion Heq as [| | | |? mid ? Hp Hf]; subst.
  assert (mid.*1 = es'.*1) as Hnames.
  { clear -Hf. induction Hf as [|a b mid es' [Hab _] _ IH]; csimpl; [done|].
    by rewrite Hab, IH. }
  split; [done|]. split; [by rewrite <- Hnames, <- Hp|].
  rewrite (list_to_map_proper es mid) by done.
  rewrite Hp in Hall. clear -Hf Hall.
  induction Hf as [|[k1 x1] [k2 x2] mid es' [Hk Hx] _ IH]; intros k; simpl in *.
  { rewrite lookup_empty. constructor. }
  subst k2. apply Forall_cons in Hall as [Hx1 Hall].
  destruct (decide (k = k1)) as [->|Hne].
  - rewrite !lookup_insert_eq. constructor. done.
  - rewrite !lookup_insert_ne by done. by apply IH.
Qed.

Lemma set_slot_lookup i e d k :
  set_slot i e d !! k
  = if decide (k = name e) then Some (put_slot i e (default (None, None) (d !! k)))
    else d !! k.
Proof.
  unfold set_slot. case_decide as Hk.
  - subst k. rewrite lookup_insert_eq. by destruct i.
  - by rewrite lookup_insert_ne.
Qed.

Lemma fill_lookup i pth es d k :
  NoDup es.*1 →
  fill i (listing pth es) d !! k
  = match listed es k with
    | Some x => Some (put_slot i (mkDirEntry k (pth +:+ "/" +:+ k) x)
                        (default (None, None) (d !! k)))
    | None => d !! k
    end.
Proof.
  unfold listed, fill. revert d.
  induction es as [|[k0 x0] es IH]; intros d Hnd; simpl.
  { rewrite lookup_empty. by destruct (is_swap k). }
  apply NoDup_cons in Hnd as [Hk0 Hnd]. rewrite IH by done.
  destruct (decide (k = k0)) as [->|Hne].
  - rewrite lookup_insert_eq.
    rewrite (not_elem_of_list_to_map_1 (M:=gmap string)) by done.
    destruct (is_swap k0); [done|].
    rewrite set_slot_lookup. by rewrite decide_True.
  - rewrite lookup_insert_ne by done.
    destruct (is_swap k0); [done|].
    rewrite !set_slot_lookup. simpl. by rewrite !decide_False by done.
Qed.

Lemma level_dict_lookup cur_root new_root rel ces nes k :
  NoDup ces.*1 → NoDup nes.*1 →
  level_dict cur_root new_root rel ces nes !! k
  = match listed ces k, listed nes k with
    | None, None => None
    | co, no =>
        Some (mkDirEntry k ((cur_root +:+ "/" +:+ rel) +:+ "/" +:+ k) <$> co,
              mkDirEntry k ((new_root +:+ "/" +:+ rel) +:+ "/" +:+ k) <$> no)
    end.
Proof.
  intros Hc Hn. unfold level_dict. rewrite !fill_lookup by done. rewrite lookup_empty.
  by destruct (listed ces k), (listed nes k).
Qed.

Lemma level_dict_equiv cur_root new_root rel ces nes ces' nes' k :
  obj_rel (Dir ces) (Dir ces') → obj_rel (Dir nes) (Dir nes') →
  option_Forall2 slot_equiv
    (level_dict cur_root new_root rel ces nes !! k)
    (level_dict cur_root new_root rel ces' nes' !! k).
Proof.
  intros (Hc & Hc' & Hcl)%listing_equiv (Hn & Hn' & Hnl)%listing_equiv.
  rewrite !level_dict_lookup by done.
  assert (∀ es es',
            option_Forall2 obj_rel ((list_to_map es : gmap string node) !! k)
                                   ((list_to_map es' : gmap string node) !! k) →
            option_Forall2 obj_rel (listed es k) (listed es' k)) as Hlisted.
  { intros es es' H. unfold listed. destruct (is_swap k); [constructor|done]. }
  specialize (Hcl k). specialize (Hnl k).
  apply Hlisted in Hcl. apply Hlisted in Hnl.
  destruct Hcl as [x x' Hx|], Hnl as [y y' Hy|]; constructor; split; simpl;
    constructor; done.
Qed.

Lemma same_verbs_insert (acts acts' : gmap string action) k v es es' :
  fst <$> acts = fst <$> acts' →
  fst <$> <[k := (v, es)]> acts = fst <$> <[k := (v, es')]> acts'.
Proof. intros H. by rewrite !fmap_insert, H. Qed.

Lemma for_fold_same {A} (R : A → A → Prop) (l l' : list A)
    (body body' : gmap string action → A → M (gmap string action)) s s' w w' :
  Forall2 R l l' → fst <$> s = fst <$> s' →
  (∀ x x' s s' w w', R x x' → fst <$> s = fst <$> s' →
                     same_outcome (body s x w) (body' s' x' w')) →
  same_outcome (for_fold l body s w) (for_fold l' body' s' w').
Proof.
  intros Hl. revert s s' w w'.
  induction Hl as [|x x' l l' Hx _ IH]; intros s s' w w' Hs Hbody; simpl; [done|].
  unfold bind. specialize (Hbody x x' s s' w w' Hx Hs) as Hxx.
  destruct (body s x w) as [s1 w1|e1 w1|], (body' s' x' w') as [s1' w1'|e1' w1'|];
    simpl in *; try done.
  by apply IH.
Qed.

Lemma entry_equiv_is_file e e' :
  entry_equiv e e' → is_file false e = is_file false e'.
Proof. intros (_ & _ & [H _]). unfold is_file. by destruct H. Qed.

Lemma entry_equiv_is_dir e e' :
  entry_equiv e e' → is_dir true e = is_dir true e'.
Proof.
  intros (_ & _ & [H Hwl]). unfold is_dir.
  destruct (follow_equiv _ _ H Hwl) as [x x' [Hx _]|]; [|done]. by destruct Hx.
Qed.

(** Equivalent trees give the same outcome, with the same fuel. *)
Lemma recurse_same fuel cur_root new_root c_obj c_obj' n_obj n_obj' rel acts acts' w w' :
  option_Forall2 obj_rel c_obj c_obj' → option_Forall2 obj_rel n_obj n_obj' →
  fst <$> acts = fst <$> acts' →
  same_outcome
    (recurse_on_rel_path fuel cur_root new_root c_obj n_obj rel acts w)
    (recurse_on_rel_path fuel cur_root new_root c_obj' n_obj' rel acts' w').
Proof.
  revert c_obj c_obj' n_obj n_obj' rel acts acts' w w'.
  induction fuel as [|fuel IH];
    intros c_obj c_obj' n_obj n_obj' rel acts acts' w w' Hc Hn Hacts; [done|].
  apply obj_follow_equiv in Hc, Hn.
  assert (∀ (o o' : option node),
            option_Forall2 obj_rel (o ≫= follow) (o' ≫= follow) →
            (∃ es es', o ≫= follow = Some (Dir es) ∧ o' ≫= follow = Some (Dir es')
                       ∧ obj_rel (Dir es) (Dir es'))
            ∨ ((∀ es, o ≫= follow ≠ Some (Dir es))
               ∧ (∀ es, o' ≫= follow ≠ Some (Dir es)))) as Hcases.
  { intros o o' Ho. destruct Ho as [x x' Hx|]; [|by right].
    destruct x as [?|es|?|].
    2:{ destruct (obj_rel_dir_l _ _ Hx) as [es' ->]. left. eauto. }
    all: right; split; [done|]; intros es' [= ->];
         by destruct (obj_rel_dir_r _ _ Hx). }
  destruct (Hcases _ _ Hc) as [(ces & ces' & Hcf & Hcf' & Hcr)|[Hcf Hcf']].
  2:{ edestruct (recurse_not_dir fuel cur_root new_root c_obj n_obj) as [l1 ->];
        [by left|].
      edestruct (recurse_not_dir fuel cur_root new_root c_obj' n_obj') as [l2 ->];
        [by left|]. done. }
  destruct (Hcases _ _ Hn) as [(nes & nes' & Hnf & Hnf' & Hnr)|[Hnf Hnf']].
  2:{ edestruct (recurse_not_dir fuel cur_root new_root c_obj n_obj) as [l1 ->];
        [by right|].
      edestruct (recurse_not_dir fuel cur_root new_root c_obj' n_obj') as [l2 ->];
        [by right|]. done. }
  rewrite (recurse_level _ _ _ _ _ ces nes), (recurse_level _ _ _ _ _ ces' nes') by done.
  eapply for_fold_same; [|done|].
  { apply (sorted_items_related slot_equiv). intros k. by apply level_dict_equiv. }
  intros [k [co no]] [k' [co' no']] s s' u u' [Hk [Hco Hno]] Hs.
  simpl in Hk, Hco, Hno. subst k'.
  destruct Hco as [ce ce' Hce|], Hno as [ne ne' Hne|].
  - destruct (is_file false ce && is_file false ne) eqn:Hfiles.
    { pose proof Hfiles as Hfiles'.
      rewrite (entry_equiv_is_file _ _ Hce), (entry_equiv_is_file _ _ Hne) in Hfiles'.
      apply andb_true_iff in Hfiles as [[x Hx]%is_file_reg [y Hy]%is_file_reg].
      apply andb_true_iff in Hfiles' as [[x' Hx']%is_file_reg [y' Hy']%is_file_reg].
      rewrite (item_step_files _ _ _ _ _ _ x y), (item_step_files _ _ _ _ _ _ x' y')
        by done.
      destruct Hce as (_ & _ & [Hex _]), Hne as (_ & _ & [Hey _]).
      rewrite Hx, Hx' in Hex. rewrite Hy, Hy' in Hey.
      inversion Hex; inversion Hey; subst. by apply same_verbs_insert. }
    pose proof Hfiles as Hfiles'.
    rewrite (entry_equiv_is_file _ _ Hce), (entry_equiv_is_file _ _ Hne) in Hfiles'.
    destruct (is_dir true ce && is_dir true ne) eqn:Hdirs.
    + pose proof Hdirs as Hdirs'.
      rewrite (entry_equiv_is_dir _ _ Hce), (entry_equiv_is_dir _ _ Hne) in Hdirs'.
      rewrite !item_step_dirs by done.
      apply IH; [| |done]; constructor; [by destruct Hce as (_ & _ & ?)
                                        |by destruct Hne as (_ & _ & ?)].
    + pose proof Hdirs as Hdirs'.
      rewrite (entry_equiv_is_dir _ _ Hce), (entry_equiv_is_dir _ _ Hne) in Hdirs'.
      by rewrite !item_step_mismatch.
  - rewrite !item_step_delete. by apply same_verbs_insert.
  - rewrite !item_step_create. by apply same_verbs_insert.
  - done.
Qed.

(** More fuel changes nothing once there is enough. *)
Lemma for_fold_more {A S} (l : list A) (body body' : S → A → M S) s w :
  (∀ x s w, body s x w ≠ Diverge → body' s x w = body s x w) →
  for_fold l body s w ≠ Diverge →
  for_fold l body' s w = for_fold l body s w.
Proof.
  intros Hbody. revert s w. induction l as [|x l IH]; intros s w Hnd; simpl in *; [done|].
  unfold bind in *. destruct (body s x w) as [s1 w1|e w1|] eqn:Hx; try done.
  - rewrite Hbody, Hx by (by rewrite Hx). by apply IH.
  - by rewrite Hbody, Hx by (by rewrite Hx).
Qed.

Lemma recurse_more_fuel fuel fuel' cur_root new_root c_obj n_obj rel acts w :
  fuel ≤ fuel' →
  recurse_on_rel_path fuel cur_root new_root c_obj n_obj rel acts w ≠ Diverge →
  recurse_on_rel_path fuel' cur_root new_root c_obj n_obj rel acts w
  = recurse_on_rel_path fuel cur_root new_root c_obj n_obj rel acts w.
Proof.
  revert fuel' c_obj n_obj rel acts w.
  induction fuel as [|fuel IH]; intros fuel' c_obj n_obj rel acts w Hle Hnd; [done|].
  destruct fuel' as [|fuel']; [lia|].
  rewrite !recurse_S in *. unfold bind at 1 in Hnd. unfold bind at 1. unfold bind at 2.
  destruct (scan_root cur_side cur_root rel c_obj ∅ w) as [d1 w1| |]; try done.
  unfold bind at 1 in Hnd. unfold bind at 1. unfold bind at 1.
  destruct (scan_root new_side new_root rel n_obj d1 w1) as [d2 w2| |]; try done.
  apply for_fold_more; [|done].
  intros [k [co no]] s u Hbody. unfold item_step in *. cbn [fst snd] in *.
  destruct co as [ce|], no as [ne|]; try done.
  destruct (is_file false ce && is_file false ne); [done|].
  destruct (is_dir true ce && is_dir true ne); [|done].
  apply IH; [lia|done].
Qed.

(** The groups depend on the verbs of the dict only. *)
Lemma group_actions_verbs (acts acts' : gmap string action) :
  fst <$> acts = fst <$> acts' → group_actions acts = group_actions acts'.
Proof.
  intros Hv. unfold group_actions.
  assert (Forall2 (λ a b : string * action, a.1 = b.1 ∧ a.2.1 = b.2.1)
            (sorted_items acts) (sorted_items acts')) as Hitems.
  { apply (sorted_items_related (λ a b : action, a.1 = b.1)). intros k.
    apply (f_equal (.!! k)) in Hv.
    rewrite !lookup_fmap in Hv.
    destruct (acts !! k) as [a|], (acts' !! k) as [a'|]; simpl in Hv; try done.
    - apply Some_Forall2. by injection Hv.
    - apply None_Forall2. }
  generalize would_empty.
  induction Hitems as [|a b l l' [H1 H2] _ IH]; intros would_; simpl; [done|].
  by rewrite H1, H2, IH.
Qed.

(** The keys of the dict of a level are the names of both listings that
    are not swap-file names. *)
Lemma fill_keys i pth es d k :
  is_Some (fill i (listing pth es) d !! k)
  ↔ is_Some (d !! k) ∨ (is_swap k = false ∧ k ∈ es.*1).
Proof.
  unfold fill. revert d. induction es as [|[k0 x0] es IH]; intros d; simpl.
  { split; [by left|]. intros [?|[_ ?%elem_of_nil]]; done. }
  rewrite IH, elem_of_cons. simpl.
  destruct (is_swap k0) eqn:Hk0.
  - split; [tauto|]. intros [?|[Hk [->|?]]]; [tauto|congruence|tauto].
  - rewrite set_slot_lookup. simpl. case_decide as Hk.
    + subst k0. split; [|by left]. intros _. right. tauto.
    + tauto.
Qed.

Lemma level_dict_keys cur_root new_root rel ces nes k :
  k ∈ (sorted_items (level_dict cur_root new_root rel ces nes)).*1
  ↔ is_swap k = false ∧ (k ∈ ces.*1 ∨ k ∈ nes.*1).
Proof.
  rewrite elem_of_sorted_keys. unfold level_dict. rewrite !fill_keys, lookup_empty.
  split.
  - intros [[[? ?]|[? ?]]|[? ?]]; [done|tauto..].
  - intros [? [?|?]]; tauto.
Qed.

(** C9.  Every level iterates its merged names in sorted order, and two
    pairs of trees that differ only in the order of their listings give
    the same outcome: the same verbs under the same paths and the same
    groups, or the same exception. *)
Theorem listing_order_independent cur_root new_root w w' c c' n n' :
  fs w !! cur_root = Some c → fs w' !! cur_root = Some c' →
  fs w !! new_root = Some n → fs w' !! new_root = Some n' →
  node_equiv c c' → node_equiv n n' → well_listed c → well_listed n →
  (∀ fuel c_obj n_obj ces nes rel acts u,
     c_obj ≫= follow = Some (Dir ces) → n_obj ≫= follow = Some (Dir nes) →
     let items := sorted_items (level_dict cur_root new_root rel ces nes) in
     recurse_on_rel_path (S fuel) cur_root new_root c_obj n_obj rel acts u
     = for_fold items (item_step (recurse_on_rel_path fuel cur_root new_root) rel) acts
         (write_errs (level_log cur_root new_root rel ces nes) u)
     ∧ StronglySorted String.le items.*1
     ∧ ∀ k, k ∈ items.*1 ↔ is_swap k = false ∧ (k ∈ ces.*1 ∨ k ∈ nes.*1))
  ∧ match diff_trees cur_root new_root w, diff_trees cur_root new_root w' with
    | Return acts _, Return acts' _ =>
        fst <$> acts = fst <$> acts' ∧ group_actions acts = group_actions acts'
    | Raise e _, Raise e' _ => e = e'
    | _, _ => False
    end.
Proof.
  intros Hc Hc' Hn Hn' Hce Hne Hcw Hnw. split.
  { intros fuel c_obj n_obj ces nes rel acts u Hcd Hnd items.
    split; [by apply recurse_level|].
    split; [apply sorted_items_sorted|]. intros k. apply level_dict_keys. }
  pose proof (diff_trees_total cur_root new_root w) as Ht.
  pose proof (diff_trees_total cur_root new_root w') as Ht'.
  unfold diff_trees in *. rewrite Hc, Hn in *. rewrite Hc', Hn' in *.
  cbn [from_option] in *.
  set (fuel := S (node_depth c)) in *. set (fuel' := S (node_depth c')) in *.
  rewrite <- (recurse_more_fuel fuel (fuel `max` fuel')) in Ht |- * by (done || lia).
  rewrite <- (recurse_more_fuel fuel' (fuel `max` fuel')) in Ht' |- * by (done || lia).
  pose proof (recurse_same (fuel `max` fuel') cur_root new_root
                (Some c) (Some c') (Some n) (Some n') "." ∅ ∅ w w') as Hsame.
  destruct (recurse_on_rel_path (fuel `max` fuel') cur_root new_root
              (Some c) (Some n) "." ∅ w) as [a u|e u|],
           (recurse_on_rel_path (fuel `max` fuel') cur_root new_root
              (Some c') (Some n') "." ∅ w') as [a' u'|e' u'|];
    simpl in Hsame;
    try (by apply Hsame; [by constructor|by constructor|done]).
  - assert (fst <$> a = fst <$> a') as Hv
      by (by apply Hsame; [by constructor|by constructor|done]).
    split; [done|]. by apply group_actions_verbs.
  - done.
Qed.

(** ** The loops always end *)

Lemma bind_total {A B} (m : M A) (k : A → M B) w :
  m w ≠ Diverge → (∀ a w', m w = Return a w' → k a w' ≠ Diverge) →
  bind m k w ≠ Diverge.
Proof. unfold bind. destruct (m w); [eauto|done..]. Qed.

Lemma for_each_total {A} (l : list A) (body : A → M unit) w :
  (∀ x w, body x w ≠ Diverge) → for_each l body w ≠ Diverge.
Proof.
  intros Hbody. revert w. induction l as [|x l IH]; intros w; simpl; [done|].
  apply bind_total; auto.
Qed.

Lemma os_rename_total src dst w : os_rename src dst w ≠ Diverge.
Proof. unfold os_rename. by repeat case_match. Qed.

Lemma os_remove_total pth w : os_remove pth w ≠ Diverge.
Proof. unfold os_remove. by repeat case_match. Qed.

Lemma shutil_rmtree_total pth w : shutil_rmtree pth w ≠ Diverge.
Proof. unfold shutil_rmtree. by repeat case_match. Qed.

(** A prompt that returns has taken at least one line. *)
Lemma get_input_loop_post prompt valid lines w :
  length (stdin w) ≤ length lines →
  post (get_input_loop prompt valid lines w)
    (λ _ w', length (stdin w') < length (stdin w))
    (λ _ _, True) False.
Proof.
  revert w. induction lines as [|l0 lines IH]; intros w Hlen.
  - destruct (stdin w) as [|l rest] eqn:Hin; [|simpl in Hlen; lia].
    simpl. unfold bind, input. by rewrite Hin.
  - simpl. unfold bind at 1. unfold input.
    destruct (stdin w) as [|l rest] eqn:Hin; [done|].
    destruct (bool_decide (l ∈ valid)); [simpl; lia|].
    unfold bind, stderr.
    eapply post_impl; [apply IH| |done..].
    + simpl in *. lia.
    + simpl. intros. lia.
Qed.

Lemma get_input_post prompt valid w :
  post (get_input prompt valid w)
    (λ _ w', length (stdin w') < length (stdin w))
    (λ _ _, True) False.
Proof. unfold get_input. by apply get_input_loop_post. Qed.

Lemma select_loop_total lines cur_root new_root would_ w :
  length (stdin w) ≤ length lines →
  select_loop lines cur_root new_root would_ w ≠ Diverge.
Proof.
  revert w. induction lines as [|l0 lines IH]; intros w Hlen;
    rewrite select_loop_unfold;
    rewrite (bind_Return _ _ _ tt (write_err "" w)) by done;
    pose proof (get_input_post
                  "select a group to examine [dcal] or 'y' to install the new or 'n' to skip it:"
                  valid_dir_responses (write_err "" w)) as Hg;
    unfold bind at 1;
    destruct (get_input _ _ _) as [r w1| |]; simpl in Hg; try done.
  - exfalso. simpl in *. lia.
  - case_decide.
    { apply bind_total; [done|]. intros _ w2 _.
      apply bind_total; [apply shutil_rmtree_total|]. intros _ w3 _.
      apply os_rename_total. }
    case_decide; [done|].
    apply bind_total; [by repeat case_decide|]. intros v w2 Hv.
    assert (w2 = w1) as -> by (unfold ret, raise in Hv; repeat case_decide; by simplify_eq).
    destruct (gdiff_each_frame cur_root new_root (would_get would_ v) w1)
      as (w3 & Hd & _ & Hin3).
    rewrite (bind_Return _ _ _ _ _ Hd). apply IH. rewrite Hin3. simpl in *. lia.
Qed.

Lemma handle_dirs_total cur_root new_root w : handle_dirs cur_root new_root w ≠ Diverge.
Proof.
  unfold handle_dirs. apply bind_total; [apply diff_trees_total|].
  intros acts w1 _. unfold bind at 1. unfold print at 1. unfold bind at 1. unfold print at 1.
  destruct (no_effect _).
  - apply bind_total; [done|]. intros _ w2 _.
    apply bind_total; [done|]. intros _ w3 _. apply shutil_rmtree_total.
  - destruct (print_groups_frame (group_actions acts)
                (write_out (Line ("Replacing " +:+ cur_root +:+ " with "
                                  +:+ new_root +:+ " would..."))
                   (write_out (Line "") w1))) as (w2 & Hp & _).
    rewrite (bind_Return _ _ _ _ _ Hp). by apply select_loop_total.
Qed.

Lemma handle_files_total cur_path new_path w : handle_files cur_path new_path w ≠ Diverge.
Proof.
  unfold handle_files. apply bind_total.
  { unfold filecmp_cmp, filecmp_cmp_obj, bind, stat_obj. by repeat case_match. }
  intros [] w1 _.
  { apply bind_total; [done|]. intros _ w2 _. apply os_remove_total. }
  destruct (gdiff_frame cur_path new_path w1) as (w2 & Hg & _).
  rewrite (bind_Return _ _ _ _ _ Hg).
  pose proof (get_input_post ("update " +:+ cur_path +:+ " ?") ["y"; "b"; "n"; "q"] w2) as Hi.
  unfold bind at 1. destruct (get_input _ _ _) as [r w3| |]; simpl in Hi; try done.
  repeat case_decide; try done.
  - apply os_rename_total.
  - apply bind_total.
    + apply bind_total; [done|]. intros [] w4 _; [apply shutil_rmtree_total|].
      apply bind_total; [done|]. intros [] w5 _; [apply os_remove_total|done].
    + intros _ w4 _. apply bind_total; [apply os_rename_total|].
      intros _ w5 _. apply os_rename_total.
Qed.

Lemma main_total argv w : main argv w ≠ Diverge.
Proof.
  assert (∀ prefix arg w, main_body prefix arg w ≠ Diverge) as Hbody.
  { intros prefix arg w0. unfold main_body.
    destruct (if endswith _ _ then _ else _) as [cur_path new_path].
    apply bind_total; [done|]. intros [] w1 _; [|done]. simpl.
    apply bind_total; [done|]. intros [] w2 _; simpl.
    2:{ apply bind_total; [done|]. intros _ w3 _. apply os_rename_total. }
    apply bind_total.
    { unfold get_type, bind, os_lstat. by repeat case_match. }
    intros cur_type w3 _. case_decide; [done|].
    apply bind_total.
    { unfold get_type, bind, os_lstat. by repeat case_match. }
    intros new_type w4 _. repeat case_decide; try done.
    destruct cur_type; [apply handle_dirs_total|apply handle_files_total|done]. }
  unfold main. repeat case_match; try done; by apply for_each_total.
Qed.

(** ** Concrete runs *)

(** The scenario of the specification is classified as it says. *)
Example scenario_classified :
  diff_trees "t" "t.new" scenario = Return scenario_diff.1 scenario_diff.2
  ∧ fst <$> scenario_diff.1
    = {[ "./a" := Leave; "./b" := Delete; "./c" := Create ]}
  ∧ group_actions scenario_diff.1
    = [(Delete, ["./b"]); (Create, ["./c"]); (Alter, []); (Leave, ["./a"])].
Proof. repeat split; vm_compute; reflexivity. Qed.

(** A directory on both sides only triggers the recursion: its own path
    is in no group, the paths below it are. *)
Example directory_pair_in_no_group :
  group_actions two_trees_diff.1
  = [(Delete, ["./b"]); (Create, ["./c"; "./sub/j"]);
     (Alter, ["./sub/k"]); (Leave, ["./a"])].
Proof. vm_compute. reflexivity. Qed.

Lemma not_in_valid (l : string) (valid : list string) :
  bool_decide (l ∈ valid) = false → l ∉ valid.
Proof. by intros ?%bool_decide_eq_false. Qed.



(** C6, amended, on two identical files. *)
Lemma handle_files_identical_witness :
  ∃ w', handle_files "f" "f.new" same_files = Return tt w'
        ∧ fs w' = delete "f.new" (fs same_files)
        ∧ fs w' !! "f" = Some (Reg "1")
        ∧ fs w' !! "f.new" = None
        ∧ stdin w' = stdin same_files
        ∧ out w' = out same_files
        ∧ commands w' = commands same_files
        ∧ err w' = err same_files ++ ["No change from " +:+ "f"].
Proof.
  apply (handle_files_identical "f" "f.new" "1").
  - reflexivity.
  - reflexivity.
  - discriminate.
Defined.

(** The one previous backup the backup theorem leaves out: a link to
    a directory passes [os.path.isdir], [shutil.rmtree] refuses the link,
    and the filesystem stays as it was. *)
Example backup_over_link_to_directory :
  ∃ w', handle_files "f" "f.new" linked_backup = Raise OSError w'
        ∧ fs w' = fs linked_backup.
Proof. eexists. split; vm_compute; reflexivity. Qed.

(** C6 as stated fails: with nobody at the console, identical files
    still cost the candidate its place in the filesystem. *)
Lemma identical_files_candidate_removed :
  ∃ w', handle_files "f" "f.new" same_files = Return tt w'
        ∧ stdin w' = stdin same_files
        ∧ fs same_files !! "f.new" = Some (Reg "1")
        ∧ fs w' !! "f.new" = None.
Proof. eexists. split; [reflexivity|]. split; [reflexivity|]. split; reflexivity. Qed.

(** C1 as stated fails: after the response [n] the new tree is still
    in place. *)
Lemma skipped_tree_stays :
  ∃ w', handle_dirs "t" "t.new" (two_trees ["n"]) = Return tt w'
        ∧ fs w' !! "t.new" = Some new_tree.
Proof. eexists. split; [vm_compute; reflexivity|]. vm_compute. reflexivity. Qed.

(** C1, amended, on two trees that differ: one group inspected and one
    stray line before the response [n]. *)
Lemma handle_dirs_skip_witness :
  ∃ w', handle_dirs "t" "t.new" (two_trees ["d"; "zz"; "n"; "r"]) = Return tt w'
        ∧ fs w' = fs (two_trees ["d"; "zz"; "n"; "r"])
        ∧ fs w' !! "t" = fs (two_trees ["d"; "zz"; "n"; "r"]) !! "t"
        ∧ fs w' !! "t.new" = fs (two_trees ["d"; "zz"; "n"; "r"]) !! "t.new"
        ∧ stdin w' = ["r"].
Proof.
  apply (handle_dirs_skip "t" "t.new" two_trees_diff.1 two_trees_diff.2
           ["d"; "zz"] ["r"]).
  - vm_compute. reflexivity.
  - intros [Hdel _]. vm_compute in Hdel. discriminate.
  - repeat constructor; discriminate.
  - reflexivity.
Defined.

(** C5 on a tree and the same tree listed in another order. *)
Lemma handle_dirs_no_effect_witness :
  ∃ w', handle_dirs "t" "t.new" same_trees = Return tt w'
        ∧ fs w' = delete "t.new" (fs same_trees)
        ∧ stdin w' = stdin same_trees
        ∧ commands w' = commands same_trees
        ∧ out w' = out same_trees
                   ++ [Line "";
                       Line ("Replacing " +:+ "t" +:+ " with " +:+ "t.new" +:+ " would...");
                       Line "    have no effect,";
                       Line ("    so removing " +:+ "t.new" +:+ "...")].
Proof.
  apply (handle_dirs_no_effect "t" "t.new"
           [("sub", Dir [("k", Reg "k")]); (".x.swp", Reg "s");
            ("b", Reg "2"); ("a", Reg "1")]
           same_trees_diff.1 same_trees_diff.2).
  - reflexivity.
  - vm_compute. reflexivity.
  - vm_compute. auto.
Defined.


(** C2 as stated fails: an assertion failure one level down ends the
    run.  The second argument, two identical files, is never looked at,
    and the script itself writes nothing on standard error (the
    traceback of the uncaught exception is the interpreter's). *)
Lemma mismatch_at_depth_aborts :
  ∃ w', main ["prog"; "t"; "f"] mismatched_trees = Raise AssertionError w'
        ∧ fs w' !! "f.new" = Some (Reg "9")
        ∧ err w' = [].
Proof. eexists. split; [vm_compute; reflexivity|]. split; reflexivity. Qed.

(** C2, amended, on a file against a directory at top level and one
    level down. *)
Lemma type_mismatch_handling_witness :
  for_each ["m"; "f"] (main_body None) mismatched_trees
  = for_each ["f"] (main_body None)
      (write_err ("ERROR: " +:+ "m" +:+ " is a " +:+ type_name type_reg +:+ ", but "
                  +:+ "m.new" +:+ " is a " +:+ type_name type_dir) mismatched_trees)
  ∧ ∃ w', for_each ["t"; "f"] (main_body None) mismatched_trees = Raise AssertionError w'
          ∧ err_grows mismatched_trees w'.
Proof.
  split.
  - apply (proj1 (type_mismatch_handling None "m" ["f"] "m" "m.new" mismatched_trees
                    eq_refl) (Reg "1") (Dir [])); reflexivity.
  - eapply (proj2 (type_mismatch_handling None "t" ["f"] "t" "t.new" mismatched_trees
                     eq_refl) _ _ ("." +:+ "/" +:+ "sub") _ _ "x"
              (mkDirEntry "x" "t/./sub/x" (Reg "1"))
              (mkDirEntry "x" "t.new/./sub/x" (Dir []))).
    + reflexivity.
    + reflexivity.
    + eapply (reaches_down _ _ _ _ _ _ _ "sub"
                (mkDirEntry "sub" "t/./sub" (Dir [("x", Reg "1")]))
                (mkDirEntry "sub" "t.new/./sub" (Dir [("x", Dir [])])));
        [reflexivity..|].
      apply reaches_here; reflexivity.
    + reflexivity.
    + reflexivity.
Defined.

(** C3.  The test for directories follows links: [is_dir] is called with
    the default [follow_symlinks=True], although the test for files beside
    it and [get_type] do not follow them.  A name that is a link to a
    directory under both roots is taken for a directory, and the
    comparison goes through it and compares what the targets hold. *)
Lemma symlink_followed_as_directory :
  let link := mkDirEntry "x" "t/./x" (Symlink (Some (Dir [("f", Reg "1")]))) in
  is_dir false link = false
  ∧ is_dir true link = true
  ∧ ∃ acts w', diff_trees "t" "t.new" linked_trees = Return acts w'
               ∧ fst <$> acts = {[ "./x/f" := Alter ]}.
Proof.
  split; [reflexivity|]. split; [reflexivity|].
  exists linked_trees_diff.1, linked_trees_diff.2.
  split; vm_compute; reflexivity.
Qed.

Lemma cur_tree_well_listed : well_listed cur_tree.
Proof.
  apply wl_dir; [distinct_names|].
  repeat (apply Forall_cons; split); try apply Forall_nil; try constructor.
  - distinct_names.
  - repeat constructor.
Qed.

Lemma new_tree_well_listed : well_listed new_tree.
Proof.
  apply wl_dir; [distinct_names|].
  repeat (apply Forall_cons; split); try apply Forall_nil; try constructor.
  - distinct_names.
  - repeat constructor.
Qed.

Lemma node_equiv_refl_listed (es : list (string * node)) :
  Forall (λ e, node_equiv e.2 e.2) es →
  Forall2 (λ a b : string * node, a.1 = b.1 ∧ node_equiv a.2 b.2) es es.
Proof. induction 1; constructor; auto. Qed.

(** C9 on a tree and the same tree with every listing reversed. *)
Lemma listing_order_independent_witness :
  match diff_trees "t" "t.new" (two_trees []),
        diff_trees "t" "t.new"
          (world_of [("t", cur_tree_relisted); ("t.new", new_tree)] []) with
  | Return acts _, Return acts' _ =>
      fst <$> acts = fst <$> acts' ∧ group_actions acts = group_actions acts'
  | Raise e _, Raise e' _ => e = e'
  | _, _ => False
  end.
Proof.
  apply (listing_order_independent "t" "t.new" _ _
           cur_tree cur_tree_relisted new_tree new_tree).
  - reflexivity.
  - reflexivity.
  - reflexivity.
  - reflexivity.
  - apply (equiv_dir _ cur_tree_relisted_entries).
    + symmetry. exact (reverse_Permutation cur_tree_entries).
    + apply node_equiv_refl_listed. repeat constructor.
      apply (equiv_dir _ [("k", Reg "k")]); [reflexivity|]. repeat constructor.
  - apply (equiv_dir _ new_tree_entries); [reflexivity|].
    apply node_equiv_refl_listed. repeat constructor.
    apply (equiv_dir _ [("k", Reg "kk"); ("j", Other)]); [reflexivity|].
    repeat constructor.
  - exact cur_tree_well_listed.
  - exact new_tree_well_listed.
Defined.

(** * Further properties *)

(** ** Suffixes *)

(** [String.append] does not unfold under [simpl]; its two equations. *)
Lemma app_String a (s t : string) : String a s +:+ t = String a (s +:+ t).
Proof. reflexivity. Qed.

Lemma app_empty (s : string) : "" +:+ s = s.
Proof. reflexivity. Qed.

Lemma substring_skip (p s : string) n m :
  String.substring (String.length p + n) m (p +:+ s) = String.substring n m s.
Proof. induction p as [|a p IH]; [done|]. simpl. apply IH. Qed.

Lemma substring_all (s : string) : String.substring 0 (String.length s) s = s.
Proof. induction s as [|a s IH]; [done|]. simpl. by rewrite IH. Qed.

Lemma substring_prefix (p s : string) :
  String.substring 0 (String.length p) (p +:+ s) = p.
Proof.
  induction p as [|a p IH]; simpl; [by destruct s|]. by rewrite IH.
Qed.

Lemma substring_split (s : string) n :
  n ≤ String.length s →
  s = String.substring 0 n s +:+ String.substring n (String.length s - n) s.
Proof.
  revert n. induction s as [|a s IH]; intros n Hn.
  - simpl in Hn. by replace n with 0 by lia.
  - destruct n as [|n].
    + simpl. by rewrite substring_all.
    + simpl in *. rewrite app_String. f_equal. apply IH. lia.
Qed.

Lemma endswith_app (s suffix : string) : endswith (s +:+ suffix) suffix = true.
Proof.
  unfold endswith. rewrite length_app_string.
  apply andb_true_intro. split; [apply Nat.leb_le; lia|].
  replace (String.length s + String.length suffix - String.length suffix)
    with (String.length s + 0) by lia.
  rewrite substring_skip, substring_all. apply String.eqb_refl.
Qed.

Lemma drop_last_app (s suffix : string) :
  drop_last (String.length suffix) (s +:+ suffix) = s.
Proof.
  unfold drop_last. rewrite length_app_string.
  replace (String.length s + String.length suffix - String.length suffix)
    with (String.length s) by lia.
  apply substring_prefix.
Qed.

Lemma endswith_inv (s suffix : string) :
  endswith s suffix = true → s = drop_last (String.length suffix) s +:+ suffix.
Proof.
  unfold endswith, drop_last. intros [Hle Heq]%andb_prop.
  apply Nat.leb_le in Hle. apply String.eqb_eq in Heq.
  rewrite (substring_split s (String.length s - String.length suffix)) at 1 by lia.
  f_equal. rewrite <- Heq at 3. f_equal. lia.
Qed.

(** [s.endswith(suffix)] holds when [s] is something followed by
    [suffix]; [s[:-len(suffix)]] is then that something. *)
Lemma endswith_spec (s suffix : string) :
  endswith s suffix = true ↔ ∃ q, s = q +:+ suffix.
Proof.
  split.
  - intros H. eexists. by apply endswith_inv.
  - intros [q ->]. apply endswith_app.
Qed.

Lemma app_string_assoc (a b c : string) : (a +:+ b) +:+ c = a +:+ b +:+ c.
Proof. induction a as [|x a IH]; [done|]. rewrite !app_String. by rewrite IH. Qed.

(** The suffix [.new] holds no slash, so it lies within the last
    component of a path. *)
Lemma endswith_after_slash (p a : string) :
  endswith (p +:+ "/" +:+ a) ".new" = endswith a ".new".
Proof.
  apply eq_true_iff_eq. rewrite !endswith_spec. split.
  - intros [q Hq]. revert q Hq. induction p as [|c p IH]; intros q Hq.
    + rewrite app_empty, app_String, app_empty in Hq.
      destruct q as [|c' q]; [by rewrite app_empty in Hq|]. exists q.
      rewrite app_String in Hq. by simplify_eq.
    + destruct q as [|c' q].
      * exfalso. rewrite app_empty, app_String in Hq. simplify_eq.
        repeat (destruct p as [|? p];
                [by rewrite ?app_empty, ?app_String in *
                |rewrite ?app_String in *; simplify_eq]).
      * rewrite !app_String in Hq. simplify_eq. eauto.
  - intros [q ->]. exists (p +:+ "/" +:+ q). by rewrite !app_string_assoc.
Qed.

(** ** The paths of an argument *)

(** The body of the argument loop, from the two paths on. *)
Lemma main_body_paths common_dir_prefix arg w :
  main_body common_dir_prefix arg w
  = (let '(cur_path, new_path) := arg_paths common_dir_prefix arg in
     new_exists <- os_path_exists new_path ;;
     if negb new_exists then
       stderr ("ERROR: new_path does not exist: " +:+ new_path)
     else
     cur_exists <- os_path_exists cur_path ;;
     if negb cur_exists then
       stderr (cur_path +:+ " does not exist, so installing " +:+ new_path +:+ " there") ;;;
       os_rename new_path cur_path
     else
     cur_type <- get_type cur_path ;;
     if decide (cur_type = type_other) then
       stderr ("ERROR: " +:+ cur_path +:+ " is neither a regular file nor a directory.")
     else
     new_type <- get_type new_path ;;
     if decide (new_type = type_other) then
       stderr ("ERROR: " +:+ new_path +:+ " is neither a regular file nor a directory.")
     else
     if decide (cur_type ≠ new_type) then
       stderr ("ERROR: " +:+ cur_path +:+ " is a " +:+ type_name cur_type +:+ ", but "
               +:+ new_path +:+ " is a " +:+ type_name new_type)
     else
     match cur_type with
     | type_reg => handle_files cur_path new_path
     | type_dir => handle_dirs cur_path new_path
     | type_other => raise AssertionError
     end) w.
Proof. reflexivity. Qed.

(** The suffix is stripped from an argument that carries it and
    appended to one that does not: the two paths are the same. *)
Lemma arg_paths_new common_dir_prefix arg :
  endswith arg ".new" = false →
  arg_paths common_dir_prefix (arg +:+ ".new") = arg_paths common_dir_prefix arg.
Proof.
  intros Ha. unfold arg_paths.
  set (path := match common_dir_prefix with
               | Some prefix => if decide (prefix = "") then arg else prefix +:+ "/" +:+ arg
               | None => arg
               end).
  assert (match common_dir_prefix with
          | Some prefix =>
              if decide (prefix = "") then arg +:+ ".new" else prefix +:+ "/" +:+ arg +:+ ".new"
          | None => arg +:+ ".new"
          end = path +:+ ".new") as ->.
  { unfold path. destruct common_dir_prefix as [prefix|]; [|done].
    case_decide; [done|]. by rewrite !app_string_assoc. }
  assert (endswith path ".new" = false) as ->.
  { unfold path. destruct common_dir_prefix as [prefix|]; [|done].
    case_decide; [done|]. by rewrite endswith_after_slash. }
  rewrite endswith_app.
  change 4 with (String.length ".new"). by rewrite drop_last_app.
Qed.

(** X1.  The candidate path of an argument is its current path with
    [.new] appended, whether or not the argument carried the suffix. *)
Theorem arg_paths_suffix common_dir_prefix arg :
  (arg_paths common_dir_prefix arg).2 = (arg_paths common_dir_prefix arg).1 +:+ ".new".
Proof.
  unfold arg_paths.
  destruct (endswith _ ".new") eqn:He; simpl; [|done].
  by apply (endswith_inv _ ".new").
Qed.

(** X2.  Naming the candidate instead of the current path makes no
    difference: an argument and the same argument with [.new] appended
    are processed alike. *)
Theorem candidate_name_accepted common_dir_prefix arg w :
  endswith arg ".new" = false →
  main_body common_dir_prefix (arg +:+ ".new") w = main_body common_dir_prefix arg w.
Proof. intros Ha. by rewrite !main_body_paths, arg_paths_new. Qed.

(** ** The prompt, line by line *)

(** The loop on enough fuel, with the console written out. *)
Lemma get_input_loop_first_valid prompt valid junk r rest lines w :
  Forall (λ l, l ∉ valid) junk → r ∈ valid →
  stdin w = junk ++ r :: rest → length junk ≤ length lines →
  get_input_loop prompt valid lines w = Return r (set_stdin rest (asked prompt junk w)).
Proof.
  intros Hjunk Hr. revert lines w.
  induction Hjunk as [|l junk Hl _ IH]; intros lines w Hin Hlen.
  - destruct lines; simpl; unfold bind, input; rewrite Hin; simpl.
    all: rewrite bool_decide_eq_true_2 by done; unfold ret; f_equal.
    all: unfold asked, set_stdin, write_out; simpl; f_equal; by rewrite app_nil_r.
  - destruct lines as [|l0 lines]; [simpl in Hlen; lia|].
    simpl. unfold bind at 1. unfold input. rewrite Hin. simpl.
    rewrite bool_decide_eq_false_2 by done.
    unfold bind, stderr.
    rewrite (IH lines) with (w := write_err _ _); [|done|simpl in Hlen; lia].
    f_equal. unfold asked, set_stdin, write_err, write_out. simpl.
    f_equal; by rewrite <- app_assoc.
Qed.

Lemma get_input_reads prompt valid junk r rest w :
  Forall (λ l, l ∉ valid) junk → r ∈ valid →
  stdin w = junk ++ r :: rest →
  get_input prompt valid w = Return r (set_stdin rest (asked prompt junk w)).
Proof.
  intros ?? Hin. unfold get_input. apply get_input_loop_first_valid; auto.
  rewrite Hin, length_app. lia.
Qed.

(** X3.  [get_input] returns the first line that is a valid response.  It
    has then read the lines up to that one and no further, written the
    prompt once per line read and echoed every rejected line on standard
    error, in order; nothing else has changed. *)
Theorem get_input_first_valid prompt valid junk r rest w :
  Forall (λ l, l ∉ valid) junk → r ∈ valid →
  stdin w = junk ++ r :: rest →
  get_input prompt valid w = Return r (set_stdin rest (asked prompt junk w)).
Proof.
  intros Hjunk Hr Hin. unfold get_input.
  apply get_input_loop_first_valid; [done..|].
  rewrite Hin, length_app. lia.
Qed.

Lemma get_input_loop_eof prompt valid lines w :
  Forall (λ l, l ∉ valid) (stdin w) → length (stdin w) ≤ length lines →
  get_input_loop prompt valid lines w
  = Raise EOFError (set_stdin [] (asked prompt (stdin w) w)).
Proof.
  remember (stdin w) as junk eqn:Hin. intros Hjunk. revert lines w Hin.
  induction Hjunk as [|l junk Hl _ IH]; intros lines w Hin Hlen.
  - destruct lines; simpl; unfold bind, input; rewrite <- Hin; simpl.
    all: f_equal; unfold asked, set_stdin, write_out; simpl; by rewrite <- ?Hin, ?app_nil_r.
  - destruct lines as [|l0 lines]; [simpl in Hlen; lia|].
    simpl. unfold bind at 1. unfold input. rewrite <- Hin. simpl.
    rewrite bool_decide_eq_false_2 by done.
    unfold bind, stderr.
    rewrite (IH lines) with (w := write_err _ _); [|done|simpl in Hlen; lia].
    f_equal. unfold asked, set_stdin, write_err, write_out. simpl.
    rewrite <- ?Hin. simpl. f_equal; by rewrite <- app_assoc.
Qed.

Lemma get_input_runs_dry prompt valid w :
  Forall (λ l, l ∉ valid) (stdin w) →
  get_input prompt valid w = Raise EOFError (set_stdin [] (asked prompt (stdin w) w)).
Proof. intros H. unfold get_input. by apply get_input_loop_eof. Qed.

(** X4.  When the input ends before a valid response comes, [get_input]
    raises [EOFError]: it has asked once more than there were lines and
    echoed each of them; the filesystem is untouched.  With no input at
    all it asks once. *)
Theorem get_input_eof prompt valid w :
  Forall (λ l, l ∉ valid) (stdin w) →
  get_input prompt valid w = Raise EOFError (set_stdin [] (asked prompt (stdin w) w)).
Proof.
  intros Hjunk. unfold get_input.
  apply get_input_loop_eof; [done|lia].
Qed.

(** ** The viewer *)

(** The viewer always returns; a status other than zero costs one line
    on standard error, which shows the placeholder and not the status. *)
Lemma gdiff_viewed L R w : gdiff L R w = Return tt (viewed L R w).
Proof.
  unfold gdiff, viewed, viewer_command, bind, os_system.
  case_decide; unfold stderr, ret; done.
Qed.

Lemma viewed_fs L R w : fs (viewed L R w) = fs w.
Proof. unfold viewed. by case_decide. Qed.
Lemma viewed_stdin L R w : stdin (viewed L R w) = stdin w.
Proof. unfold viewed. by case_decide. Qed.
Lemma viewed_out L R w : out (viewed L R w) = out w.
Proof. unfold viewed. by case_decide. Qed.
Lemma viewed_commands L R w :
  commands (viewed L R w) = commands w ++ [viewer_command L R].
Proof. unfold viewed. by case_decide. Qed.

(** ** Single files: the other responses *)

(** Two regular files that differ: the viewer runs once on the pair,
    then the operator is asked. *)
Lemma handle_files_differ cur_path new_path x y w :
  fs w !! cur_path = Some (Reg x) → fs w !! new_path = Some (Reg y) → x ≠ y →
  handle_files cur_path new_path w
  = (response <- get_input ("update " +:+ cur_path +:+ " ?") valid_file_responses ;;
     file_response cur_path new_path response) (viewed cur_path new_path w).
Proof.
  intros Hc Hn Hxy. unfold handle_files.
  rewrite (bind_Return _ _ _ _ _ (filecmp_cmp_regular _ _ _ _ _ Hc Hn)).
  rewrite bool_decide_eq_false_2 by done.
  by rewrite (bind_Return _ _ _ _ _ (gdiff_viewed _ _ _)).
Qed.

(** X5.  Two regular files that differ and the response [y] (after any
    invalid lines): the viewer was run once, on the pair; the current
    path now holds the candidate's content and the candidate path is
    gone; nothing else in the filesystem has changed. *)
Theorem handle_files_install cur_path new_path x y junk rest w :
  fs w !! cur_path = Some (Reg x) → fs w !! new_path = Some (Reg y) → x ≠ y →
  Forall (λ l, l ∉ valid_file_responses) junk →
  stdin w = junk ++ "y" :: rest →
  ∃ w', handle_files cur_path new_path w = Return tt w'
        ∧ fs w' = <[cur_path := Reg y]> (delete new_path (fs w))
        ∧ fs w' !! cur_path = Some (Reg y)
        ∧ fs w' !! new_path = None
        ∧ stdin w' = rest
        ∧ commands w' = commands w ++ [viewer_command cur_path new_path].
Proof.
  intros Hc Hn Hxy Hjunk Hin.
  assert (new_path ≠ cur_path) as Hne by (intros ->; congruence).
  rewrite (handle_files_differ _ _ x y) by done.
  erewrite bind_Return; last first.
  { apply (get_input_reads _ _ junk "y" rest); [done| |].
    - unfold valid_file_responses. by repeat constructor.
    - by rewrite viewed_stdin. }
  unfold file_response. rewrite decide_True by done.
  unfold os_rename. cbn [fs set_stdin asked]. rewrite !viewed_fs, Hn, Hc.
  rewrite decide_False by done.
  eexists. split; [reflexivity|]. cbn [fs set_fs stdin commands set_stdin asked].
  rewrite viewed_fs, viewed_commands.
  repeat split.
  - by rewrite lookup_insert_eq.
  - by rewrite lookup_insert_ne, lookup_delete_eq.
Qed.

(** X6.  Two regular files that differ and the response [q]: the run ends
    there with exit status 1.  Both files are as they were and the
    arguments that follow are not processed. *)
Theorem handle_files_quit common_dir_prefix arg args cur_path new_path x y junk rest w :
  arg_paths common_dir_prefix arg = (cur_path, new_path) →
  fs w !! cur_path = Some (Reg x) → fs w !! new_path = Some (Reg y) → x ≠ y →
  Forall (λ l, l ∉ valid_file_responses) junk →
  stdin w = junk ++ "q" :: rest →
  ∃ w', for_each (arg :: args) (main_body common_dir_prefix) w = Raise (SystemExit 1) w'
        ∧ fs w' = fs w
        ∧ stdin w' = rest.
Proof.
  intros Hpaths Hc Hn Hxy Hjunk Hin.
  cbn [for_each]. unfold bind at 1.
  rewrite (main_body_both _ _ _ _ _ _ _ Hpaths Hc Hn) by done.
  cbn [file_vs_dir S_ISDIR S_ISREG andb orb].
  rewrite (handle_files_differ _ _ x y) by done.
  erewrite bind_Return; last first.
  { apply (get_input_reads _ _ junk "q" rest); [done| |].
    - unfold valid_file_responses. by repeat constructor.
    - by rewrite viewed_stdin. }
  unfold file_response. rewrite !decide_False, decide_True by done.
  unfold sys_exit, raise.
  eexists. split; [reflexivity|]. cbn [fs stdin set_stdin asked].
  by rewrite viewed_fs.
Qed.

(** X7.  Two regular files that differ and an input that ends before a
    valid response: [handle_files] raises [EOFError], with both files
    as they were. *)
Theorem handle_files_eof cur_path new_path x y w :
  fs w !! cur_path = Some (Reg x) → fs w !! new_path = Some (Reg y) → x ≠ y →
  Forall (λ l, l ∉ valid_file_responses) (stdin w) →
  ∃ w', handle_files cur_path new_path w = Raise EOFError w'
        ∧ fs w' = fs w
        ∧ stdin w' = [].
Proof.
  intros Hc Hn Hxy Hjunk.
  rewrite (handle_files_differ _ _ x y) by done.
  erewrite bind_Raise; last first.
  { apply get_input_runs_dry. by rewrite viewed_stdin. }
  eexists. split; [reflexivity|]. cbn [fs stdin set_stdin asked].
  by rewrite viewed_fs.
Qed.

(** ** Arguments the loop does not hand on *)

(** [os.path.exists] follows links. *)
Lemma exists_follow pth w :
  os_path_exists pth w = Return (bool_decide (is_Some (fs w !! pth ≫= follow))) w.
Proof. reflexivity. Qed.

(** X8.  An argument whose candidate does not exist (no such path, or a
    link that leads nowhere) is reported on standard error; nothing else
    changes and the loop goes on with the next argument. *)
Theorem missing_candidate_reported common_dir_prefix arg args cur_path new_path w :
  arg_paths common_dir_prefix arg = (cur_path, new_path) →
  fs w !! new_path ≫= follow = None →
  for_each (arg :: args) (main_body common_dir_prefix) w
  = for_each args (main_body common_dir_prefix)
      (write_err ("ERROR: new_path does not exist: " +:+ new_path) w).
Proof.
  intros Hpaths Hn. cbn [for_each]. unfold bind at 1.
  rewrite main_body_paths, Hpaths.
  unfold bind at 1. rewrite exists_follow, Hn.
  rewrite bool_decide_eq_false_2 by (by intros [??]). done.
Qed.


(** X10.  The kind of an argument is taken without following links, so a
    path that is a symbolic link or a special file is refused, even when
    the link leads to a regular file or a directory: the path is reported
    as neither a regular file nor a directory, nothing changes and the
    loop goes on.  The current path is checked first. *)
Theorem unsupported_kind_reported common_dir_prefix arg args cur_path new_path c n w :
  arg_paths common_dir_prefix arg = (cur_path, new_path) →
  fs w !! cur_path = Some c → fs w !! new_path = Some n →
  is_Some (follow c) → is_Some (follow n) →
  (S_ISDIR c || S_ISREG c = false →
   for_each (arg :: args) (main_body common_dir_prefix) w
   = for_each args (main_body common_dir_prefix)
       (write_err ("ERROR: " +:+ cur_path
                   +:+ " is neither a regular file nor a directory.") w))
  ∧ (S_ISDIR c || S_ISREG c = true → S_ISDIR n || S_ISREG n = false →
     for_each (arg :: args) (main_body common_dir_prefix) w
     = for_each args (main_body common_dir_prefix)
         (write_err ("ERROR: " +:+ new_path
                     +:+ " is neither a regular file nor a directory.") w)).
Proof.
  intros Hpaths Hc Hn Hfc Hfn.
  assert (∀ k, (new_exists <- os_path_exists new_path ;;
                if negb new_exists then
                  stderr ("ERROR: new_path does not exist: " +:+ new_path)
                else
                cur_exists <- os_path_exists cur_path ;;
                if negb cur_exists then
                  stderr (cur_path +:+ " does not exist, so installing "
                          +:+ new_path +:+ " there") ;;;
                  os_rename new_path cur_path
                else k) w = k w) as Hexists.
  { intros k. unfold bind at 1. rewrite exists_follow, Hn. cbn [mbind option_bind].
    rewrite bool_decide_eq_true_2 by done. cbn [negb].
    unfold bind at 1. rewrite exists_follow, Hc. cbn [mbind option_bind].
    by rewrite bool_decide_eq_true_2 by done. }
  split.
  - intros Hk. cbn [for_each]. unfold bind at 1.
    rewrite main_body_paths, Hpaths, Hexists.
    unfold bind at 1. rewrite (get_type_lstat _ _ _ Hc).
    by destruct c.
  - intros Hck Hk. cbn [for_each]. unfold bind at 1.
    rewrite main_body_paths, Hpaths, Hexists.
    unfold bind at 1. rewrite (get_type_lstat _ _ _ Hc).
    destruct c; try done; cbn [S_ISDIR S_ISREG]; rewrite decide_False by done.
    all: unfold bind at 1; rewrite (get_type_lstat _ _ _ Hn); by destruct n.
Qed.

(** X11.  A previous backup that is a symbolic link to a directory blocks
    the response [b]: the link counts as a directory, [shutil.rmtree]
    refuses it, and [handle_files] raises [OSError] with nothing
    changed; the current file is not backed up and the candidate not
    installed. *)
Theorem backup_blocked_by_directory_link cur_path new_path x y t es junk rest w :
  fs w !! cur_path = Some (Reg x) → fs w !! new_path = Some (Reg y) → x ≠ y →
  fs w !! (cur_path +:+ ".bak") = Some (Symlink t) → follow (Symlink t) = Some (Dir es) →
  Forall (λ l, l ∉ valid_file_responses) junk →
  stdin w = junk ++ "b" :: rest →
  ∃ w', handle_files cur_path new_path w = Raise OSError w'
        ∧ fs w' = fs w
        ∧ stdin w' = rest.
Proof.
  intros Hc Hn Hxy Hb Ht Hjunk Hin.
  rewrite (handle_files_differ _ _ x y) by done.
  erewrite bind_Return; last first.
  { apply (get_input_reads _ _ junk "b" rest); [done| |].
    - unfold valid_file_responses. by repeat constructor.
    - by rewrite viewed_stdin. }
  unfold file_response. rewrite decide_False, decide_True by done.
  set (w1 := set_stdin _ _).
  assert (fs w1 = fs w) as Hfs by (unfold w1; cbn [fs set_stdin asked]; apply viewed_fs).
  unfold bind at 1. unfold bind at 1. unfold os_path_isdir. rewrite Hfs, Hb.
  cbn [mbind option_bind]. rewrite Ht.
  unfold shutil_rmtree. rewrite Hfs, Hb.
  exists w1. split; [done|]. split; [done|]. done.
Qed.

(** ** What a run leaves alone, and how it can fail *)

(** Agreement outside [paths]: kept by steps that leave the filesystem
    alone, transitive, and weaker for more paths. *)
Lemma fs_outside_same paths w w' : fs w' = fs w → fs_outside paths w w'.
Proof. intros H p _. by rewrite H. Qed.

Lemma fs_outside_trans paths w1 w2 w3 :
  fs_outside paths w1 w2 → fs_outside paths w2 w3 → fs_outside paths w1 w3.
Proof. intros H12 H23 p Hp. by rewrite H23, H12. Qed.

Lemma fs_outside_mono paths paths' w w' :
  paths ⊆ paths' → fs_outside paths w w' → fs_outside paths' w w'.
Proof. intros Hsub H p Hp. apply H. intros Hin. by apply Hp, Hsub. Qed.

Lemma run_within_mono {A} paths paths' (E E' : exn → Prop) w (r : result A) :
  paths ⊆ paths' → (∀ e, E e → E' e) →
  run_within paths E w r → run_within paths' E' w r.
Proof.
  intros Hsub HE. unfold run_within. destruct r; simpl; [| |done].
  - by apply fs_outside_mono.
  - intros [??]. split; [auto|]. by eapply fs_outside_mono.
Qed.

(** Sequencing: both parts confined, the whole is confined. *)
Lemma run_within_bind {A B} paths E (m : M A) (k : A → M B) w :
  run_within paths E w (m w) →
  (∀ a w1, m w = Return a w1 → run_within paths E w1 (k a w1)) →
  run_within paths E w (bind m k w).
Proof.
  unfold run_within, bind. intros Hm Hk.
  destruct (m w) as [a w1|e w1|]; simpl in *; [|done..].
  specialize (Hk a w1 eq_refl).
  destruct (k a w1) as [b w2|e w2|]; simpl in *; [| |done].
  - by eapply fs_outside_trans.
  - destruct Hk. split; [done|]. by eapply fs_outside_trans.
Qed.

(** A first part that returns and leaves the filesystem alone. *)
Lemma run_within_quiet {A} paths E (m : M A) (k : A → M unit) w a w1 :
  m w = Return a w1 → fs w1 = fs w →
  run_within paths E w1 (k a w1) → run_within paths E w (bind m k w).
Proof.
  intros Hm Hfs Hk. apply run_within_bind.
  - rewrite Hm. by apply fs_outside_same.
  - intros a' w' Heq. rewrite Hm in Heq. by simplify_eq.
Qed.

(** A first part that only looks at the world. *)
Lemma run_within_query {A} paths E (f : world → A) (k : A → M unit) w :
  (∀ a, run_within paths E w (k a w)) →
  run_within paths E w (bind (λ w, Return (f w) w) k w).
Proof. intros Hk. unfold bind. apply Hk. Qed.

Lemma for_each_within {A} paths E (l : list A) (body : A → M unit) w :
  (∀ x w, x ∈ l → run_within paths E w (body x w)) →
  run_within paths E w (for_each l body w).
Proof.
  revert w. induction l as [|x l IH]; intros w Hbody; simpl.
  { by apply fs_outside_same. }
  apply run_within_bind; [apply Hbody; by left|].
  intros _ w1 _. apply IH. intros y w2 Hy. apply Hbody. by right.
Qed.

(** The three system calls that change the filesystem change it at
    their arguments only, and fail with [OSError] only. *)
Lemma delete_outside pth paths w :
  pth ∈ paths → fs_outside paths w (set_fs (delete pth) w).
Proof.
  intros Hin p Hp. simpl. apply lookup_delete_ne. intros ->. done.
Qed.

Lemma os_remove_within pth paths w :
  pth ∈ paths → run_within paths (λ e, e = OSError) w (os_remove pth w).
Proof.
  intros Hin. unfold run_within, os_remove.
  destruct (fs w !! pth) as [[]|]; simpl;
    first [by apply delete_outside | split; [done|by apply fs_outside_same]].
Qed.

Lemma shutil_rmtree_within pth paths w :
  pth ∈ paths → run_within paths (λ e, e = OSError) w (shutil_rmtree pth w).
Proof.
  intros Hin. unfold run_within, shutil_rmtree.
  destruct (fs w !! pth) as [[]|]; simpl;
    first [by apply delete_outside | split; [done|by apply fs_outside_same]].
Qed.

Lemma os_rename_within src dst paths w :
  src ∈ paths → dst ∈ paths → run_within paths (λ e, e = OSError) w (os_rename src dst w).
Proof.
  intros Hs Hd. unfold run_within, os_rename.
  assert (fs_outside paths w (set_fs (λ m, <[dst := default Other (fs w !! src)]>
                                             (delete src m)) w)) as Hmoved.
  { intros p Hp. simpl. rewrite lookup_insert_ne by (by intros ->).
    apply lookup_delete_ne. by intros ->. }
  destruct (fs w !! src) as [s|] eqn:Hsrc; simpl in *;
    [|split; [done|by apply fs_outside_same]].
  case_decide; [by apply fs_outside_same|].
  destruct (fs w !! dst) as [[| [|] | |]|], s; simpl;
    first [exact Hmoved | split; [done|by apply fs_outside_same]].
Qed.

(** The prompt returns a valid response or raises [EOFError]; either way
    the filesystem is as it was. *)
Lemma get_input_loop_answer prompt valid lines w :
  length (stdin w) ≤ length lines →
  post (get_input_loop prompt valid lines w)
    (λ r w', r ∈ valid ∧ fs w' = fs w)
    (λ e w', e = EOFError ∧ fs w' = fs w) False.
Proof.
  revert w. induction lines as [|l0 lines IH]; intros w Hlen.
  - destruct (stdin w) as [|l rest] eqn:Hin; [|simpl in Hlen; lia].
    simpl. unfold bind, input. by rewrite Hin.
  - simpl. unfold bind at 1. unfold input.
    destruct (stdin w) as [|l rest] eqn:Hin; [done|].
    destruct (bool_decide (l ∈ valid)) eqn:Hl.
    { simpl. split; [|done]. by apply bool_decide_eq_true in Hl. }
    unfold bind, stderr.
    eapply post_impl; [apply IH| | |done]; simpl in *; [lia|done..].
Qed.

Lemma get_input_answer prompt valid w :
  post (get_input prompt valid w)
    (λ r w', r ∈ valid ∧ fs w' = fs w)
    (λ e w', e = EOFError ∧ fs w' = fs w) False.
Proof. unfold get_input. by apply get_input_loop_answer. Qed.

Lemma get_input_within paths (E : exn → Prop) prompt valid (k : string → M unit) w :
  E EOFError →
  (∀ r w1, r ∈ valid → run_within paths E w1 (k r w1)) →
  run_within paths E w (bind (get_input prompt valid) k w).
Proof.
  intros HE Hk. pose proof (get_input_answer prompt valid w) as Hg.
  unfold run_within, bind in *.
  destruct (get_input prompt valid w) as [r w1|e w1|]; simpl in *; [| |done].
  - destruct Hg as [Hr Hfs]. specialize (Hk r w1 Hr).
    destruct (k r w1); simpl in *; [| |done].
    + eapply fs_outside_trans; [by apply fs_outside_same|done].
    + destruct Hk. split; [done|].
      eapply fs_outside_trans; [by apply fs_outside_same|done].
  - destruct Hg as [-> Hfs]. split; [done|]. by apply fs_outside_same.
Qed.

(** The comparison of two files changes nothing. *)
Lemma filecmp_cmp_within f1 f2 w :
  post (filecmp_cmp f1 f2 w) (λ _ w', w' = w) (λ e w', e = OSError ∧ w' = w) False.
Proof.
  unfold filecmp_cmp, filecmp_cmp_obj, bind, stat_obj.
  destruct (fs w !! f1 ≫= follow); simpl; [|done].
  destruct (fs w !! f2 ≫= follow); simpl; done.
Qed.

Lemma handle_files_within cur_path new_path w :
  run_within [cur_path; new_path; cur_path +:+ ".bak"]
    (λ e, e = OSError ∨ e = EOFError ∨ e = SystemExit 1) w
    (handle_files cur_path new_path w).
Proof.
  set (paths := [cur_path; new_path; cur_path +:+ ".bak"]).
  assert (cur_path ∈ paths) as Hc by (unfold paths; by repeat constructor).
  assert (new_path ∈ paths) as Hn by (unfold paths; by repeat constructor).
  assert (cur_path +:+ ".bak" ∈ paths) as Hb by (unfold paths; by repeat constructor).
  assert (∀ (m : M unit) w,
            run_within paths (λ e, e = OSError) w (m w) →
            run_within paths (λ e, e = OSError ∨ e = EOFError ∨ e = SystemExit 1) w (m w))
    as Hos.
  { intros m w0. apply run_within_mono; [done|]. by left. }
  unfold handle_files. apply run_within_bind.
  { pose proof (filecmp_cmp_within cur_path new_path w) as Hf. unfold run_within.
    destruct (filecmp_cmp _ _ _); simpl in *; [| |done].
    - subst. by apply fs_outside_same.
    - destruct Hf as [-> ->]. split; [by left|]. by apply fs_outside_same. }
  intros [] w1 _.
  { eapply run_within_quiet; [reflexivity|done|]. by apply Hos, os_remove_within. }
  eapply run_within_quiet; [apply gdiff_viewed|apply viewed_fs|].
  apply get_input_within; [right; by left|].
  intros r w2 Hr. repeat case_decide.
  - by apply Hos, os_rename_within.
  - apply run_within_bind.
    { apply (run_within_query _ _ (λ w, match fs w !! (cur_path +:+ ".bak") ≫= follow with
                                        | Some (Dir _) => true | _ => false end)).
      intros []; [by apply Hos, shutil_rmtree_within|].
      apply (run_within_query _ _
               (λ w, bool_decide (is_Some (fs w !! (cur_path +:+ ".bak") ≫= follow)))).
      intros []; [by apply Hos, os_remove_within|]. by apply fs_outside_same. }
    intros _ w3 _. apply run_within_bind; [by apply Hos, os_rename_within|].
    intros _ w4 _. by apply Hos, os_rename_within.
  - by apply fs_outside_same.
  - split; [by right; right|]. by apply fs_outside_same.
  - exfalso. repeat (apply elem_of_cons in Hr as [->|Hr]; [done|]). by apply elem_of_nil in Hr.
Qed.

(** X12.  Whatever the files and whatever the operator types,
    [handle_files] ends; it changes nothing in the filesystem but the
    current path, the candidate path and the backup path; and when it
    raises, the exception is [OSError], [EOFError] or the [SystemExit]
    with status 1 of the response [q].  The final [assert 0] is never
    reached. *)
Theorem handle_files_confined cur_path new_path w :
  post (handle_files cur_path new_path w)
    (λ _ w', ∀ p, p ∉ [cur_path; new_path; cur_path +:+ ".bak"] → fs w' !! p = fs w !! p)
    (λ e w', (e = OSError ∨ e = EOFError ∨ e = SystemExit 1)
             ∧ ∀ p, p ∉ [cur_path; new_path; cur_path +:+ ".bak"] → fs w' !! p = fs w !! p)
    False.
Proof. apply handle_files_within. Qed.

(** Lines about swap files: none, and some after others. *)
Lemma logs_refl w : logs w w.
Proof. exists []. by rewrite write_errs_nil. Qed.

Lemma logs_trans w1 w2 w3 : logs w1 w2 → logs w2 w3 → logs w1 w3.
Proof.
  intros (l1 & -> & H1) (l2 & -> & H2). exists (l1 ++ l2).
  rewrite write_errs_app. split; [done|]. by apply Forall_app.
Qed.

Lemma logs_grows w w' : logs w w' → err_grows w w'.
Proof. intros (lines & -> & _). by exists lines. Qed.

(** What a listing loop writes are such lines. *)
Lemma ignored_lines pth entries : Forall ignoring_line (ignored pth entries).
Proof.
  unfold ignored. apply Forall_fmap, Forall_forall.
  intros e [He _]%list_elem_of_filter. simpl. by exists pth, (name e).
Qed.

Lemma level_logs cur_root new_root rel ces nes w :
  logs w (write_errs (level_log cur_root new_root rel ces nes) w).
Proof.
  eexists. split; [done|]. unfold level_log. apply Forall_app.
  split; apply ignored_lines.
Qed.

(** The comparison of the two trees raises nothing but [OSError] (a
    root that is no directory) and [AssertionError]; whatever its
    outcome it has only written lines about swap files on standard
    error. *)
Lemma recurse_raises fuel cur_root new_root c_obj n_obj rel acts w :
  post (recurse_on_rel_path fuel cur_root new_root c_obj n_obj rel acts w)
    (λ _ w', logs w w')
    (λ e w', (e = OSError ∨ e = AssertionError) ∧ logs w w') True.
Proof.
  revert c_obj n_obj rel acts w.
  induction fuel as [|fuel IH]; intros c_obj n_obj rel acts w; [done|].
  destruct (follow_dir_cases c_obj) as [[ces Hc]|Hc].
  2:{ rewrite recurse_S. rewrite (bind_Raise _ _ _ _ _ (scan_root_not_dir _ _ _ _ _ _ Hc)).
      simpl. split; [by left|apply logs_refl]. }
  destruct (follow_dir_cases n_obj) as [[nes Hn]|Hn].
  2:{ rewrite recurse_S. rewrite (bind_Return _ _ _ _ _ (scan_root_dir _ _ _ _ _ _ _ Hc)).
      rewrite (bind_Raise _ _ _ _ _ (scan_root_not_dir _ _ _ _ _ _ Hn)).
      simpl. split; [by left|]. eexists. split; [done|]. apply ignored_lines. }
  rewrite (recurse_level _ _ _ _ _ ces nes) by done.
  apply for_fold_post; [apply level_logs|].
  intros [k [co no]] acts1 w1 _ Hw1.
  assert (∀ r : result (gmap string action),
            post r (λ _ w', logs w1 w')
              (λ e w', (e = OSError ∨ e = AssertionError) ∧ logs w1 w') True →
            post r (λ _ w', logs w w')
              (λ e w', (e = OSError ∨ e = AssertionError) ∧ logs w w') True) as Htrans.
  { intros r Hr. eapply post_impl; [exact Hr| | |done]; simpl.
    - intros. by eapply logs_trans.
    - intros e w' [??]. split; [done|]. by eapply logs_trans. }
  apply Htrans. unfold item_step. cbn [fst snd].
  destruct co as [ce|], no as [ne|]; try (simpl; apply logs_refl).
  - destruct (is_file false ce && is_file false ne) eqn:Hfiles.
    { apply andb_true_iff in Hfiles as [[x Hx]%is_file_reg [y Hy]%is_file_reg].
      rewrite Hx, Hy. unfold bind. rewrite filecmp_cmp_obj_reg.
      destruct (bool_decide (x = y)); simpl; apply logs_refl. }
    destruct (is_dir true ce && is_dir true ne); [apply IH|].
    simpl. split; [by right|apply logs_refl].
  - simpl. split; [by right|apply logs_refl].
Qed.

Lemma err_grows_fs w w' : err_grows w w' → fs w' = fs w.
Proof. by intros [lines ->]. Qed.

Lemma diff_trees_frame cur_root new_root w :
  post (diff_trees cur_root new_root w)
    (λ _ w', logs w w')
    (λ e w', (e = OSError ∨ e = AssertionError) ∧ logs w w')
    False.
Proof.
  pose proof (diff_trees_total cur_root new_root w) as Ht.
  pose proof (recurse_raises (S (from_option node_depth 0 (fs w !! cur_root)))
                cur_root new_root (fs w !! cur_root) (fs w !! new_root) "." ∅ w) as Hr.
  unfold diff_trees in *.
  destruct (recurse_on_rel_path _ _ _ _ _ _ _ _); simpl in *; done.
Qed.

(** X13.  The comparison of the two trees only reads.  Whatever its
    outcome, it ends, and it has changed nothing but standard error,
    where every line it has added reports a swap file that a listing
    skipped.  The filesystem, the pending input, standard output and
    the list of commands run are as before. *)
Theorem comparison_read_only cur_root new_root w :
  post (diff_trees cur_root new_root w)
    (λ _ w', ∃ lines, w' = write_errs lines w ∧ Forall ignoring_line lines)
    (λ _ w', ∃ lines, w' = write_errs lines w ∧ Forall ignoring_line lines)
    False.
Proof.
  eapply post_impl; [apply diff_trees_frame| | |done]; simpl; [done|].
  by intros e w' [_ ?].
Qed.

Lemma diff_trees_within paths cur_root new_root w :
  run_within paths (λ e, e = OSError ∨ e = AssertionError) w (diff_trees cur_root new_root w).
Proof.
  pose proof (diff_trees_frame cur_root new_root w) as H. unfold run_within.
  destruct (diff_trees _ _ _); simpl in *; [| |done].
  - by apply fs_outside_same, err_grows_fs, logs_grows.
  - destruct H as [He H]. split; [done|]. by apply fs_outside_same, err_grows_fs, logs_grows.
Qed.

Lemma select_loop_within lines cur_root new_root would_ w :
  length (stdin w) ≤ length lines →
  run_within [cur_root; new_root] (λ e, e = OSError ∨ e = EOFError) w
    (select_loop lines cur_root new_root would_ w).
Proof.
  set (paths := [cur_root; new_root]).
  assert (cur_root ∈ paths) as Hc by (unfold paths; by repeat constructor).
  assert (new_root ∈ paths) as Hn by (unfold paths; by repeat constructor).
  assert (∀ (m : M unit) w,
            run_within paths (λ e, e = OSError) w (m w) →
            run_within paths (λ e, e = OSError ∨ e = EOFError) w (m w)) as Hos.
  { intros m w0. apply run_within_mono; [done|]. by left. }
  revert w. induction lines as [|l0 lines IH]; intros w Hlen;
    rewrite select_loop_unfold;
    (eapply run_within_quiet; [reflexivity|done|]);
    pose proof (get_input_post
                  "select a group to examine [dcal] or 'y' to install the new or 'n' to skip it:"
                  valid_dir_responses (write_err "" w)) as Hg;
    pose proof (get_input_answer
                  "select a group to examine [dcal] or 'y' to install the new or 'n' to skip it:"
                  valid_dir_responses (write_err "" w)) as Ha;
    unfold bind at 1;
    destruct (get_input _ _ _) as [r w1|e w1|]; simpl in Hg, Ha; try done.
  - exfalso. simpl in *. lia.
  - destruct Ha as [-> Hfs]. split; [by right|]. by apply fs_outside_same.
  - destruct Ha as [Hr Hfs].
    assert (fs_outside paths (write_err "" w) w1) as Hw1 by (by apply fs_outside_same).
    assert (∀ r0 : result unit,
              run_within paths (λ e, e = OSError ∨ e = EOFError) w1 r0 →
              run_within paths (λ e, e = OSError ∨ e = EOFError) (write_err "" w) r0)
      as Hback.
    { intros r0. unfold run_within. destruct r0; simpl; [| |done].
      - by apply fs_outside_trans.
      - intros [??]. split; [done|]. by eapply fs_outside_trans. }
    apply Hback. case_decide.
    { eapply run_within_quiet; [reflexivity|done|].
      apply run_within_bind; [by apply Hos, shutil_rmtree_within|].
      intros _ w3 _. by apply Hos, os_rename_within. }
    case_decide; [by apply fs_outside_same|].
    assert (∃ v, (if decide (r = "d") then ret Delete
                  else if decide (r = "c") then ret Create
                  else if decide (r = "a") then ret Alter
                  else if decide (r = "l") then ret Leave
                  else raise KeyError) w1 = Return v w1) as [v Hv].
    { repeat case_decide; eauto. unfold valid_dir_responses in Hr.
      repeat (apply elem_of_cons in Hr as [->|Hr]; [done|]). by apply elem_of_nil in Hr. }
    rewrite (bind_Return _ _ _ _ _ Hv).
    destruct (gdiff_each_frame cur_root new_root (would_get would_ v) w1)
      as (w3 & Hd & Hfs3 & Hin3).
    rewrite (bind_Return _ _ _ _ _ Hd).
    assert (fs_outside paths w1 w3) as Hw3 by (by apply fs_outside_same).
    specialize (IH w3). unfold run_within in *.
    destruct (select_loop lines cur_root new_root would_ w3); simpl in *.
    + eapply fs_outside_trans; [done|]. apply IH. rewrite Hin3. lia.
    + destruct IH as [He IH]; [rewrite Hin3; lia|]. split; [done|].
      by eapply fs_outside_trans.
    + apply IH. rewrite Hin3. lia.
  - destruct Ha as [-> Hfs]. split; [by right|]. by apply fs_outside_same.
Qed.

Lemma handle_dirs_within cur_root new_root w :
  run_within [cur_root; new_root]
    (λ e, e = OSError ∨ e = EOFError ∨ e = AssertionError) w
    (handle_dirs cur_root new_root w).
Proof.
  set (paths := [cur_root; new_root]).
  assert (new_root ∈ paths) as Hn by (unfold paths; by repeat constructor).
  unfold handle_dirs. apply run_within_bind.
  { eapply run_within_mono; [done| |apply diff_trees_within]. intros e [->| ->]; auto. }
  intros acts w1 _.
  eapply run_within_quiet; [reflexivity|done|].
  eapply run_within_quiet; [reflexivity|done|].
  destruct (no_effect _).
  - eapply run_within_quiet; [reflexivity|done|].
    eapply run_within_quiet; [reflexivity|done|].
    eapply run_within_mono; [done| |by apply shutil_rmtree_within]. by left.
  - match goal with |- run_within _ _ ?w0 _ =>
      destruct (print_groups_frame (group_actions acts) w0) as (w2 & Hp & Hfs & Hin & _)
    end.
    eapply run_within_quiet; [exact Hp|done|].
    eapply run_within_mono; [done| |by apply select_loop_within].
    intros e [->| ->]; auto.
Qed.


(** [get_type] changes nothing; it fails when nothing is at the path. *)
Lemma get_type_within paths E pth (k : file_type → M unit) w :
  E OSError →
  (∀ t, run_within paths E w (k t w)) →
  run_within paths E w (bind (get_type pth) k w).
Proof.
  intros HE Hk. unfold bind at 1, get_type, bind, os_lstat.
  destruct (fs w !! pth) as [c|]; [|split; [done|by apply fs_outside_same]].
  destruct (S_ISDIR c); [apply Hk|]. destruct (S_ISREG c); apply Hk.
Qed.

Lemma main_body_within common_dir_prefix arg w :
  run_within (touched common_dir_prefix arg)
    (λ e, e = OSError ∨ e = EOFError ∨ e = AssertionError ∨ e = SystemExit 1) w
    (main_body common_dir_prefix arg w).
Proof.
  rewrite main_body_paths. unfold touched.
  destruct (arg_paths common_dir_prefix arg) as [cur_path new_path].
  set (paths := [cur_path; new_path; cur_path +:+ ".bak"]).
  assert (cur_path ∈ paths) as Hc by (unfold paths; by repeat constructor).
  assert (new_path ∈ paths) as Hn by (unfold paths; by repeat constructor).
  apply (run_within_query _ _ (λ w, bool_decide (is_Some (fs w !! new_path ≫= follow)))).
  intros []; cbn [negb]; [|by apply fs_outside_same].
  apply (run_within_query _ _ (λ w, bool_decide (is_Some (fs w !! cur_path ≫= follow)))).
  intros []; cbn [negb].
  2:{ eapply run_within_quiet; [reflexivity|done|].
      eapply run_within_mono; [done| |by apply os_rename_within]. by left. }
  apply get_type_within; [by left|]. intros cur_type.
  case_decide; [by apply fs_outside_same|].
  apply get_type_within; [by left|]. intros new_type.
  case_decide; [by apply fs_outside_same|].
  case_decide; [by apply fs_outside_same|].
  destruct cur_type; [| |done].
  - eapply run_within_mono; [| |apply handle_dirs_within].
    + intros p Hp. unfold paths.
      apply elem_of_cons in Hp as [->|Hp]; [by repeat constructor|].
      apply elem_of_cons in Hp as [->|Hp]; [by repeat constructor|].
      by apply elem_of_nil in Hp.
    + intros e [->|[->| ->]]; auto.
  - eapply run_within_mono; [done| |apply handle_files_within].
    intros e [->|[->| ->]]; auto.
Qed.

Lemma arguments_within common_dir_prefix args w :
  run_within (args ≫= touched common_dir_prefix)
    (λ e, e = OSError ∨ e = EOFError ∨ e = AssertionError ∨ e = SystemExit 1) w
    (for_each args (main_body common_dir_prefix) w).
Proof.
  apply for_each_within. intros arg w0 Harg.
  eapply run_within_mono; [| |apply main_body_within]; [|done].
  intros p Hp. apply list_elem_of_bind. eauto.
Qed.

(** X15.  The argument loop ends, whatever the arguments, the filesystem
    and the input.  For each argument it may change the current path,
    the candidate path and the backup path of that argument; every other
    path holds at the end what it held at the start, also when the loop
    is cut short by an exception. *)
Theorem arguments_confined common_dir_prefix args w :
  post (for_each args (main_body common_dir_prefix) w)
    (λ _ w', ∀ p, p ∉ args ≫= touched common_dir_prefix → fs w' !! p = fs w !! p)
    (λ _ w', ∀ p, p ∉ args ≫= touched common_dir_prefix → fs w' !! p = fs w !! p)
    False.
Proof.
  eapply post_impl; [apply arguments_within| | |done]; simpl; [done|].
  by intros e w' [_ ?].
Qed.


(** ** The directory prompt *)

(** Looking into a group: one run of the viewer per item, in order. *)
Lemma gdiff_each_commands (cur_root new_root : string) (items : list string) w :
  ∃ w', for_each items (λ item_rel_path,
            gdiff (cur_root +:+ "/" +:+ item_rel_path) (new_root +:+ "/" +:+ item_rel_path)) w
        = Return tt w'
        ∧ fs w' = fs w ∧ stdin w' = stdin w
        ∧ commands w' = commands w ++ (item_command cur_root new_root <$> items).
Proof.
  revert w. induction items as [|p items IH]; intros w; simpl.
  { eexists. split; [reflexivity|]. by rewrite app_nil_r. }
  rewrite (bind_Return _ _ _ _ _ (gdiff_viewed _ _ _)).
  destruct (IH (viewed (cur_root +:+ "/" +:+ p) (new_root +:+ "/" +:+ p) w))
    as (w' & -> & Hfs & Hin & Hcmd).
  exists w'. split; [done|].
  rewrite Hfs, Hin, Hcmd, viewed_fs, viewed_stdin, viewed_commands.
  by rewrite <- app_assoc.
Qed.

(** Lines that are no valid response select no group. *)
Lemma selected_invalid would_ junk :
  Forall (λ l, l ∉ valid_dir_responses) junk → junk ≫= selected would_ = [].
Proof.
  induction 1 as [|l junk Hl _ IH]; [done|].
  rewrite bind_cons, IH, app_nil_r. unfold selected.
  repeat case_decide; try done; subst; exfalso; apply Hl;
    unfold valid_dir_responses; by repeat constructor.
Qed.

(** The lines typed before the final [y] or [n]: each one that names a
    group has the viewer run on the items of the group, one after the
    other; the filesystem stays as it is. *)
Lemma select_loop_final cur_root new_root would_ r rest pre :
  ∀ lines w,
    Forall (λ l, l ≠ "y" ∧ l ≠ "n") pre → r = "y" ∨ r = "n" →
    stdin w = pre ++ r :: rest → length pre ≤ length lines →
    ∃ w1, fs w1 = fs w ∧ stdin w1 = rest
          ∧ commands w1
            = commands w ++ (item_command cur_root new_root <$> (pre ≫= selected would_))
          ∧ select_loop lines cur_root new_root would_ w
            = (if decide (r = "y") then
                 stderr ("installing " +:+ new_root +:+ "...") ;;;
                 shutil_rmtree cur_root ;;;
                 os_rename new_root cur_root
               else stderr ("skipping " +:+ new_root +:+ "...")) w1.
Proof.
  remember (length pre) as len eqn:Hlen. revert pre Hlen.
  induction len as [len IH] using lt_wf_ind. intros pre -> lines w Hpre Hr Hin Hlines.
  destruct (split_at_first_valid valid_dir_responses pre)
    as (junk & tail & -> & Hjunk & Htail).
  rewrite select_loop_unfold.
  rewrite (bind_Return _ _ _ tt (write_err "" w)) by done.
  destruct Htail as [->|(r' & pre' & -> & Hr')].
  - rewrite app_nil_r in Hin |- *.
    rewrite (bind_Return _ _ _ _ _
               (get_input_reads _ valid_dir_responses junk r rest (write_err "" w)
                  Hjunk ltac:(unfold valid_dir_responses; destruct Hr as [->| ->];
                              by repeat constructor) Hin)).
    eexists. split; [|split; [|split]]; last first.
    + destruct Hr as [->| ->].
      * rewrite decide_True by done. reflexivity.
      * rewrite decide_False, decide_True by done. by rewrite decide_False by done.
    + simpl. by rewrite selected_invalid, app_nil_r.
    + done.
    + done.
  - apply Forall_app in Hpre as [_ Hpre]. apply Forall_cons in Hpre as [[Hry Hrn] Hpre].
    rewrite <- app_assoc in Hin. simpl in Hin.
    rewrite (bind_Return _ _ _ _ _
               (get_input_reads _ valid_dir_responses junk r' (pre' ++ r :: rest)
                  (write_err "" w) Hjunk Hr' Hin)).
    rewrite !decide_False by done.
    set (w1 := set_stdin _ _).
    assert (∃ v, (if decide (r' = "d") then ret Delete
                  else if decide (r' = "c") then ret Create
                  else if decide (r' = "a") then ret Alter
                  else if decide (r' = "l") then ret Leave
                  else raise KeyError) w1 = Return v w1
                 ∧ selected would_ r' = would_get would_ v) as (v & Hv & Hsel).
    { unfold selected. repeat case_decide; try (eexists; split; reflexivity).
      all: unfold valid_dir_responses in Hr'.
      all: repeat (apply elem_of_cons in Hr' as [->|Hr']; [done|]).
      all: by apply elem_of_nil in Hr'. }
    rewrite (bind_Return _ _ _ _ _ Hv).
    destruct (gdiff_each_commands cur_root new_root (would_get would_ v) w1)
      as (w2 & Hd & Hfs2 & Hin2 & Hcmd2).
    rewrite (bind_Return _ _ _ _ _ Hd).
    rewrite length_app in Hlines. simpl in Hlines.
    destruct lines as [|l0 lines]; [simpl in Hlines; lia|].
    destruct (IH (length pre')) with (pre := pre') (lines := lines) (w := w2)
      as (w' & Hfs' & Hin' & Hcmd' & Hloop); try done.
    + rewrite length_app. simpl. lia.
    + simpl in Hlines. lia.
    + exists w'. split; [by rewrite Hfs', Hfs2|]. split; [done|]. split; [|done].
      rewrite Hcmd', Hcmd2. subst w1. cbn [commands set_stdin asked write_err].
      rewrite bind_app, bind_cons, (selected_invalid _ junk Hjunk), Hsel.
      simpl. by rewrite fmap_app, app_assoc.
Qed.

(** The directory workflow up to the final response: the comparison, the
    report, and whatever the operator had shown. *)
Lemma handle_dirs_prompted cur_root new_root acts w0 r pre rest w :
  diff_trees cur_root new_root w = Return acts w0 →
  ¬ mutating_groups_empty acts →
  Forall (λ l, l ≠ "y" ∧ l ≠ "n") pre → r = "y" ∨ r = "n" →
  stdin w = pre ++ r :: rest →
  ∃ w1, fs w1 = fs w ∧ stdin w1 = rest
        ∧ commands w1
          = commands w
            ++ (item_command cur_root new_root <$> (pre ≫= selected (group_actions acts)))
        ∧ handle_dirs cur_root new_root w
          = (if decide (r = "y") then
               stderr ("installing " +:+ new_root +:+ "...") ;;;
               shutil_rmtree cur_root ;;;
               os_rename new_root cur_root
             else stderr ("skipping " +:+ new_root +:+ "...")) w1.
Proof.
  intros Hd Heff Hpre Hr Hin. rewrite (handle_dirs_report _ _ _ _ _ Hd).
  destruct (no_effect (group_actions acts)) eqn:Hne.
  { by apply no_effect_spec in Hne. }
  apply diff_trees_Return in Hd as [_ [lines ->]].
  destruct (print_groups_frame (group_actions acts)
              (write_out (Line ("Replacing " +:+ cur_root +:+ " with " +:+ new_root
                                +:+ " would..."))
                 (write_out (Line "") (write_errs lines w))))
    as (w2 & Hp & Hfs2 & Hin2 & Hcmd2).
  rewrite (bind_Return _ _ _ _ _ Hp).
  destruct (select_loop_final cur_root new_root (group_actions acts) r rest pre (stdin w2) w2)
    as (w1 & Hfs1 & Hin1 & Hcmd1 & Hloop); [done|done|by rewrite Hin2|..].
  { rewrite Hin2. simpl. rewrite Hin, length_app. lia. }
  exists w1. split; [by rewrite Hfs1, Hfs2|]. split; [done|]. split; [|done].
  by rewrite Hcmd1, Hcmd2.
Qed.




(** X18.  Before the final response the operator may look into the groups:
    each line [d], [c], [a] or [l] has the viewer run once per item of
    that group, on the item's path under the current root and under the
    candidate root, in the order of the group; any other line shows
    nothing.  The commands run by the whole workflow are those, in the
    order of the lines. *)
Theorem handle_dirs_examine cur_root new_root acts w0 pre rest w :
  diff_trees cur_root new_root w = Return acts w0 →
  ¬ mutating_groups_empty acts →
  Forall (λ l, l ≠ "y" ∧ l ≠ "n") pre →
  stdin w = pre ++ "n" :: rest →
  ∃ w', handle_dirs cur_root new_root w = Return tt w'
        ∧ commands w'
          = commands w
            ++ (item_command cur_root new_root <$> (pre ≫= selected (group_actions acts))).
Proof.
  intros Hd Heff Hpre Hin.
  destruct (handle_dirs_prompted _ _ _ _ "n" pre rest w Hd Heff Hpre) as
    (w1 & Hfs1 & Hin1 & Hcmd & ->); [by right|done|].
  rewrite decide_False by done.
  eexists. split; [reflexivity|]. done.
Qed.

(** When every recorded action is to leave the item, the three other
    groups are empty. *)
Lemma all_leave_no_effect (acts : gmap string action) :
  (∀ p a, acts !! p = Some a → a.1 = Leave) → no_effect (group_actions acts) = true.
Proof.
  intros Hall. apply no_effect_spec.
  assert (∀ v, v ≠ Leave → would_get (group_actions acts) v = []) as Hempty.
  { intros v Hv. apply elem_of_nil_inv. intros p Hp.
    apply elem_of_would_get in Hp as [es Hp]. by apply Hall in Hp. }
  repeat split; by apply Hempty.
Qed.

(** X19.  The candidate tree is removed without a question exactly when
    every item the comparison recorded is to be left as it is. *)
Theorem no_effect_iff_all_leave (acts : gmap string action) :
  no_effect (group_actions acts) = true ↔ ∀ p a, acts !! p = Some a → a.1 = Leave.
Proof.
  split; [|apply all_leave_no_effect].
  rewrite no_effect_spec. intros (Hd & Hc & Ha) p [v es] Hp. simpl.
  assert (p ∈ would_get (group_actions acts) v) as Hin
    by (apply elem_of_would_get; eauto).
  destruct v; [rewrite Hd in Hin|rewrite Hc in Hin|rewrite Ha in Hin|done];
    by apply elem_of_nil in Hin.
Qed.

(** With no [y] and no [n] in what is left of the input, the prompt of
    [handle_dirs] ends on [EOFError]. *)
Lemma select_loop_eof cur_root new_root would_ :
  ∀ lines w,
    Forall (λ l, l ≠ "y" ∧ l ≠ "n") (stdin w) → length (stdin w) ≤ length lines →
    ∃ w', select_loop lines cur_root new_root would_ w = Raise EOFError w'
          ∧ fs w' = fs w ∧ stdin w' = [].
Proof.
  intros lines w. remember (length (stdin w)) as len eqn:Hlen. revert lines w Hlen.
  induction len as [len IH] using lt_wf_ind. intros lines w -> Hpre Hlines.
  destruct (split_at_first_valid valid_dir_responses (stdin w))
    as (junk & tail & Hin & Hjunk & Htail).
  rewrite select_loop_unfold.
  rewrite (bind_Return _ _ _ tt (write_err "" w)) by done.
  destruct Htail as [->|(r & pre' & -> & Hr)].
  - rewrite app_nil_r in Hin.
    rewrite (bind_Raise _ _ _ _ _
               (get_input_runs_dry _ valid_dir_responses (write_err "" w)
                  ltac:(simpl; by rewrite Hin))).
    eexists. split; [reflexivity|]. done.
  - rewrite Hin in Hpre.
    apply Forall_app in Hpre as [_ Hpre]. apply Forall_cons in Hpre as [[Hry Hrn] Hpre].
    rewrite (bind_Return _ _ _ _ _
               (get_input_reads _ valid_dir_responses junk r pre'
                  (write_err "" w) Hjunk Hr Hin)).
    rewrite !decide_False by done.
    set (w1 := set_stdin _ _).
    assert (∃ v, (if decide (r = "d") then ret Delete
                  else if decide (r = "c") then ret Create
                  else if decide (r = "a") then ret Alter
                  else if decide (r = "l") then ret Leave
                  else raise KeyError) w1 = Return v w1) as [v Hv].
    { repeat case_decide; try (eexists; reflexivity).
      unfold valid_dir_responses in Hr.
      repeat (apply elem_of_cons in Hr as [->|Hr]; [done|]). by apply elem_of_nil in Hr. }
    rewrite (bind_Return _ _ _ _ _ Hv).
    destruct (gdiff_each_commands cur_root new_root (would_get would_ v) w1)
      as (w2 & Hd & Hfs2 & Hin2 & _).
    rewrite (bind_Return _ _ _ _ _ Hd).
    rewrite Hin, length_app in Hlines. simpl in Hlines.
    destruct lines as [|l0 lines]; [simpl in Hlines; lia|].
    destruct (IH (length (stdin w2))) with (lines := lines) (w := w2)
      as (w' & Hloop & Hfs' & Hin'); try done.
    + rewrite Hin2, Hin, length_app. simpl. lia.
    + by rewrite Hin2.
    + rewrite Hin2. simpl in *. lia.
    + exists w'. split; [done|]. split; [|done]. by rewrite Hfs', Hfs2.
Qed.

(** X20.  A directory workflow with something to decide and an input
    that ends before [y] or [n]: [handle_dirs] raises [EOFError], and
    the filesystem is as it was, both trees in place. *)
Theorem handle_dirs_eof cur_root new_root acts w0 w :
  diff_trees cur_root new_root w = Return acts w0 →
  ¬ mutating_groups_empty acts →
  Forall (λ l, l ≠ "y" ∧ l ≠ "n") (stdin w) →
  ∃ w', handle_dirs cur_root new_root w = Raise EOFError w'
        ∧ fs w' = fs w
        ∧ stdin w' = [].
Proof.
  intros Hd Heff Hpre. rewrite (handle_dirs_report _ _ _ _ _ Hd).
  destruct (no_effect (group_actions acts)) eqn:Hne.
  { by apply no_effect_spec in Hne. }
  apply diff_trees_Return in Hd as [_ [lines ->]].
  destruct (print_groups_frame (group_actions acts)
              (write_out (Line ("Replacing " +:+ cur_root +:+ " with " +:+ new_root
                                +:+ " would..."))
                 (write_out (Line "") (write_errs lines w))))
    as (w2 & Hp & Hfs2 & Hin2 & _).
  rewrite (bind_Return _ _ _ _ _ Hp).
  destruct (select_loop_eof cur_root new_root (group_actions acts) (stdin w2) w2)
    as (w' & Hloop & Hfs' & Hin'); [by rewrite Hin2|done|].
  exists w'. split; [done|]. split; [|done]. by rewrite Hfs', Hfs2.
Qed.

(** ** The paths of the report *)

(** No occurrence of [./]: nothing is replaced. *)
Lemma prefix_dot_slash (s : string) :
  String.prefix "./" s = true → ∃ q, s = "./" +:+ q.
Proof.
  destruct s as [|a [|b q]]; cbn [String.prefix]; try done.
  - by destruct (ascii_dec "." a).
  - destruct (ascii_dec "." a) as [<-|]; [|done].
    destruct (ascii_dec "/" b) as [<-|]; [|done]. by exists q.
Qed.

Lemma replace_nothing (s : string) :
  ¬ occurs "./" s → replace_from "./" "" 0 s = s.
Proof.
  induction s as [|a s IH]; intros Hno; [done|].
  cbn [replace_from].
  destruct (String.prefix "./" (String a s)) eqn:Hp.
  - exfalso. apply prefix_dot_slash in Hp as [q Hq]. apply Hno.
    exists "", q. by rewrite Hq.
  - f_equal. apply IH. intros (p & q & ->). apply Hno.
    exists (String a p), q. by rewrite app_String.
Qed.

(** X21.  The report shows an item by its path below the root: for a
    relative path [./s] in which no further [./] occurs (no name on the
    way ends with a dot), the text printed is [s]. *)
Theorem report_path (s : string) :
  ¬ occurs "./" s → str_replace ("./" +:+ s) "./" "" = s.
Proof.
  intros Hno. unfold str_replace.
  change ("./" +:+ s) with (String "." (String "/" s)).
  simpl. replace (String.prefix "" s) with true by (by destruct s).
  rewrite app_empty. by apply replace_nothing.
Qed.

(** X22.  The names the listing loop ignores are exactly those that start
    with a dot and end with [.swp], the two not overlapping: [.swp]
    itself is listed, [..swp] is ignored. *)
Theorem swap_names (nm : string) :
  fnmatchcase nm ".*.swp" = true ↔ ∃ mid, nm = "." +:+ mid +:+ ".swp".
Proof. apply is_swap_spec. Qed.

(** ** Keys of the dict of actions *)

(** Appending to the same string is injective. *)
Lemma app_string_inj (s t u : string) : s +:+ t = s +:+ u → t = u.
Proof. apply (inj (String.append s)). Qed.

Lemma below_trans base k key : below (base +:+ "/" +:+ k) key → below base key.
Proof. intros [t ->]. exists (k +:+ "/" +:+ t). by rewrite !app_string_assoc. Qed.

Lemma not_below_self base : ¬ below base base.
Proof. intros [t Ht]. symmetry in Ht. by apply app_string_ne_self in Ht. Qed.

(** Two names without a slash that are followed by a slash in the same
    string are the same name. *)
Lemma slash_free_split (a b x y : string) :
  ¬ occurs "/" a → ¬ occurs "/" b →
  a +:+ "/" +:+ x = b +:+ "/" +:+ y → a = b.
Proof.
  revert b. induction a as [|c a IH]; intros b Ha Hb Heq.
  - destruct b as [|c' b]; [done|]. exfalso.
    rewrite app_empty, !app_String in Heq. simplify_eq.
    apply Hb. by exists "", b.
  - destruct b as [|c' b].
    + exfalso. rewrite app_empty, !app_String in Heq. simplify_eq.
      apply Ha. by exists "", a.
    + rewrite !app_String in Heq. simplify_eq. f_equal.
      apply IH; [| |done].
      * intros (p & q & ->). apply Ha. exists (String c' p), q. by rewrite app_String.
      * intros (p & q & ->). apply Hb. exists (String c' p), q. by rewrite app_String.
Qed.

(** Two names of a level: what is written for one is not at or below
    the key of the other. *)
Lemma under_sibling rel k k' :
  ¬ occurs "/" k → under (rel +:+ "/" +:+ k') (rel +:+ "/" +:+ k) → k' = k.
Proof.
  intros Hk [Heq|[t Heq]].
  - by apply app_string_inj, app_string_inj in Heq.
  - exfalso. rewrite !app_string_assoc in Heq.
    apply app_string_inj, app_string_inj in Heq. apply Hk. by exists k', t.
Qed.

Lemma under_cousin rel k0 k' key :
  ¬ occurs "/" k0 → ¬ occurs "/" k' →
  below (rel +:+ "/" +:+ k0) key → under (rel +:+ "/" +:+ k') key → k' = k0.
Proof.
  intros Hk0 Hk' [t ->] [Heq|[t' Heq]].
  - exfalso. rewrite !app_string_assoc in Heq.
    apply app_string_inj, app_string_inj in Heq. apply Hk'. by exists k0, t.
  - rewrite !app_string_assoc in Heq.
    apply app_string_inj, app_string_inj in Heq. symmetry. by eapply slash_free_split.
Qed.

(** ** What a level writes, and where *)

(** A loop that returns has returned from every iteration. *)
Lemma for_fold_split {A S} (l1 l2 : list A) x (body : S → A → M S) s w s' w' :
  for_fold (l1 ++ x :: l2) body s w = Return s' w' →
  ∃ s1 w1 s2 w2,
    for_fold l1 body s w = Return s1 w1
    ∧ body s1 x w1 = Return s2 w2
    ∧ for_fold l2 body s2 w2 = Return s' w'.
Proof.
  rewrite for_fold_app. unfold bind at 1.
  destruct (for_fold l1 body s w) as [s1 w1| |]; [|done..].
  cbn [for_fold]. unfold bind at 1.
  destruct (body s1 x w1) as [s2 w2| |] eqn:Hx; [|done..].
  intros H. by exists s1, w1, s2, w2.
Qed.

(** The recursion at [rel] writes strictly below [rel] only. *)
Lemma recurse_touches fuel cur_root new_root c_obj n_obj rel acts w :
  post (recurse_on_rel_path fuel cur_root new_root c_obj n_obj rel acts w)
    (λ acts' _, ∀ key, ¬ below rel key → acts' !! key = acts !! key)
    (λ _ _, True) True.
Proof.
  revert c_obj n_obj rel acts w.
  induction fuel as [|fuel IH]; intros c_obj n_obj rel acts w; [done|].
  destruct (follow_dir_cases c_obj) as [[ces Hc]|Hc].
  2:{ by destruct (recurse_not_dir fuel cur_root new_root c_obj n_obj rel acts w)
        as [lines ->]; [by left|]. }
  destruct (follow_dir_cases n_obj) as [[nes Hn]|Hn].
  2:{ by destruct (recurse_not_dir fuel cur_root new_root c_obj n_obj rel acts w)
        as [lines ->]; [by right|]. }
  rewrite (recurse_level _ _ _ _ _ ces nes) by done.
  apply for_fold_post; [done|].
  intros [k [co no]] acts1 w1 _ Hacts1.
  assert (∀ a key, ¬ below rel key →
            <[rel +:+ "/" +:+ k := a]> acts1 !! key = acts !! key) as Hins.
  { intros a key Hkey. rewrite lookup_insert_ne; [by apply Hacts1|].
    intros <-. apply Hkey. by exists k. }
  unfold item_step. cbn [fst snd].
  destruct co as [ce|], no as [ne|]; try done; try (simpl; by apply Hins).
  destruct (is_file false ce && is_file false ne) eqn:Hfiles.
  { apply andb_true_iff in Hfiles as [[x Hx]%is_file_reg [y Hy]%is_file_reg].
    rewrite Hx, Hy. unfold bind. rewrite filecmp_cmp_obj_reg.
    destruct (bool_decide (x = y)); simpl; by apply Hins. }
  destruct (is_dir true ce && is_dir true ne); [|done].
  eapply post_impl; [apply IH| |done..]. simpl.
  intros acts' _ Hacts' key Hkey. rewrite Hacts'; [by apply Hacts1|].
  intros Hb. by apply Hkey, (below_trans _ k).
Qed.

(** The step for the name [k] writes at or below [rel/k] only. *)
Lemma item_step_touches fuel cur_root new_root rel acts k s w acts' w' key :
  item_step (recurse_on_rel_path fuel cur_root new_root) rel acts (k, s) w
  = Return acts' w' →
  ¬ under (rel +:+ "/" +:+ k) key → acts' !! key = acts !! key.
Proof.
  intros Hstep Hkey. destruct s as [co no].
  assert (key ≠ rel +:+ "/" +:+ k) as Hne by (intros ->; apply Hkey; by left).
  unfold item_step in Hstep. cbn [fst snd] in Hstep.
  destruct co as [ce|], no as [ne|]; try done.
  - destruct (is_file false ce && is_file false ne) eqn:Hfiles.
    { apply andb_true_iff in Hfiles as [[x Hx]%is_file_reg [y Hy]%is_file_reg].
      rewrite Hx, Hy in Hstep. unfold bind in Hstep. rewrite filecmp_cmp_obj_reg in Hstep.
      destruct (bool_decide (x = y)); unfold ret in Hstep; simplify_eq;
        by rewrite lookup_insert_ne. }
    destruct (is_dir true ce && is_dir true ne); [|done].
    pose proof (recurse_touches fuel cur_root new_root (Some (entry_node ce))
                  (Some (entry_node ne)) (rel +:+ "/" +:+ k) acts w) as Ht.
    rewrite Hstep in Ht. simpl in Ht. apply Ht. intros Hb. apply Hkey. by right.
  - unfold ret in Hstep. simplify_eq. by rewrite lookup_insert_ne.
  - unfold ret in Hstep. simplify_eq. by rewrite lookup_insert_ne.
Qed.

(** Iterations for other names leave a key alone. *)
Lemma level_fold_apart fuel cur_root new_root rel key (items : list (string * slots)) :
  ∀ acts w acts' w',
    for_fold items (item_step (recurse_on_rel_path fuel cur_root new_root) rel) acts w
    = Return acts' w' →
    Forall (λ item, ¬ under (rel +:+ "/" +:+ item.1) key) items →
    acts' !! key = acts !! key.
Proof.
  induction items as [|[k s] items IH]; intros acts w acts' w' Hfold Hitems.
  { simpl in Hfold. unfold ret in Hfold. by simplify_eq. }
  apply Forall_cons in Hitems as [Hk Hitems].
  cbn [for_fold] in Hfold. unfold bind at 1 in Hfold.
  destruct (item_step _ _ _ _ _) as [acts1 w1| |] eqn:Hstep; [|done..].
  rewrite (IH _ _ _ _ Hfold Hitems). by eapply item_step_touches.
Qed.

(** The step for the name [k] settles the key [rel/k]. *)
Lemma item_step_key fuel cur_root new_root rel acts k s w acts' w' :
  item_step (recurse_on_rel_path fuel cur_root new_root) rel acts (k, s) w
  = Return acts' w' →
  acts' !! (rel +:+ "/" +:+ k)
  = match slot_action s with
    | Some a => Some a
    | None => acts !! (rel +:+ "/" +:+ k)
    end.
Proof.
  intros Hstep. destruct s as [co no].
  unfold item_step in Hstep. cbn [fst snd] in Hstep. unfold slot_action.
  destruct co as [ce|], no as [ne|]; try done.
  - destruct (is_file false ce && is_file false ne) eqn:Hfiles.
    { apply andb_true_iff in Hfiles as [[x Hx]%is_file_reg [y Hy]%is_file_reg].
      rewrite Hx, Hy in Hstep |- *.
      unfold bind in Hstep. rewrite filecmp_cmp_obj_reg in Hstep.
      destruct (bool_decide (x = y)); unfold ret in Hstep; simplify_eq;
        by rewrite lookup_insert_eq. }
    destruct (is_dir true ce && is_dir true ne); [|done].
    assert (match entry_node ce, entry_node ne with
            | Reg x, Reg y =>
                Some (if bool_decide (x = y) then Leave else Alter, [ce; ne])
            | _, _ => None
            end = None) as ->.
    { unfold is_file in Hfiles. by destruct (entry_node ce), (entry_node ne). }
    pose proof (recurse_touches fuel cur_root new_root (Some (entry_node ce))
                  (Some (entry_node ne)) (rel +:+ "/" +:+ k) acts w) as Ht.
    rewrite Hstep in Ht. simpl in Ht. apply Ht, not_below_self.
  - unfold ret in Hstep. simplify_eq. by rewrite lookup_insert_eq.
  - unfold ret in Hstep. simplify_eq. by rewrite lookup_insert_eq.
Qed.

(** The loop of a level and the key of one name without a slash. *)
Lemma level_fold_key fuel cur_root new_root rel k (items : list (string * slots)) :
  ∀ acts w acts' w',
    for_fold items (item_step (recurse_on_rel_path fuel cur_root new_root) rel) acts w
    = Return acts' w' →
    NoDup items.*1 → ¬ occurs "/" k →
    acts' !! (rel +:+ "/" +:+ k)
    = match (list_to_map items : gmap string slots) !! k ≫= slot_action with
      | Some a => Some a
      | None => acts !! (rel +:+ "/" +:+ k)
      end.
Proof.
  intros acts w acts' w' Hfold Hnd Hk.
  assert (∀ l : list (string * slots), k ∉ l.*1 →
            Forall (λ item, ¬ under (rel +:+ "/" +:+ item.1) (rel +:+ "/" +:+ k)) l)
    as Hother.
  { intros l Hl. apply Forall_forall. intros [k' s'] Hin Hu. simpl in Hu.
    apply under_sibling in Hu; [|done]. subst k'. apply Hl.
    apply list_elem_of_fmap. by exists (k, s'). }
  destruct ((list_to_map items : gmap string slots) !! k) as [s|] eqn:Hlook.
  - apply elem_of_list_to_map in Hlook; [|done].
    apply list_elem_of_split in Hlook as (l1 & l2 & ->).
    rewrite fmap_app, fmap_cons in Hnd. simpl in Hnd.
    apply NoDup_app in Hnd as (_ & Hl1 & Hl2). apply NoDup_cons in Hl2 as [Hl2 _].
    apply for_fold_split in Hfold as (acts1 & w1 & acts2 & w2 & H1 & Hstep & H2).
    rewrite (level_fold_apart _ _ _ _ _ _ _ _ _ _ H2) by (by apply Hother).
    rewrite (item_step_key _ _ _ _ _ _ _ _ _ _ Hstep). simpl.
    destruct (slot_action s); [done|].
    rewrite (level_fold_apart _ _ _ _ _ _ _ _ _ _ H1); [done|].
    apply Hother. intros Hin. apply (Hl1 k); [done|by left].
  - simpl. apply not_elem_of_list_to_map in Hlook.
    by rewrite (level_fold_apart _ _ _ _ _ _ _ _ _ _ Hfold) by (by apply Hother).
Qed.

(** The sorted items of a dict, read as a dict again. *)
Lemma sorted_items_lookup {V} (m : gmap string V) k :
  (list_to_map (sorted_items m) : gmap string V) !! k = m !! k.
Proof.
  apply option_eq. intros v.
  rewrite <- elem_of_list_to_map by apply sorted_items_NoDup.
  apply elem_of_sorted_items.
Qed.

(** ** Proper trees *)

(** What a proper tree resolves to and what it lists is proper. *)
Lemma proper_follow c f : proper c → follow c = Some f → proper f.
Proof.
  induction 1 as [x| | |t Ht IH|es Hnd Hes]; simpl; intros Hf; simplify_eq;
    try by constructor.
  by apply IH.
Qed.

Lemma proper_obj_dir (obj : option node) es :
  (∀ x, obj = Some x → proper x) → obj ≫= follow = Some (Dir es) →
  NoDup es.*1 ∧ Forall (λ e : string * node, ¬ occurs "/" e.1 ∧ proper e.2) es.
Proof.
  intros Hobj Hf. destruct obj as [x|]; [|done]. simpl in Hf.
  pose proof (proper_follow x _ (Hobj x eq_refl) Hf) as Hp. by inversion Hp.
Qed.

(** The names of the dict of a level of two proper trees, and the
    objects of its entries. *)
Lemma level_dict_proper cur_root new_root rel ces nes k co no :
  Forall (λ e : string * node, ¬ occurs "/" e.1 ∧ proper e.2) ces →
  Forall (λ e : string * node, ¬ occurs "/" e.1 ∧ proper e.2) nes →
  level_dict cur_root new_root rel ces nes !! k = Some (co, no) →
  ¬ occurs "/" k
  ∧ (∀ ce, co = Some ce → proper (entry_node ce))
  ∧ (∀ ne, no = Some ne → proper (entry_node ne)).
Proof.
  intros Hces Hnes Hk.
  pose proof (level_dict_slots cur_root new_root rel ces nes k _ Hk)
    as (Hco & Hno & _ & Hnone). simpl in *.
  assert (∀ pth es e,
            Forall (λ e : string * node, ¬ occurs "/" e.1 ∧ proper e.2) es →
            e ∈ listing pth es → ¬ occurs "/" (name e) ∧ proper (entry_node e)) as Hin.
  { intros pth es e Hes [x [He ->]]%elem_of_listing. simpl.
    rewrite Forall_forall in Hes. apply (Hes _ He). }
  split; [|split].
  - destruct co as [ce|].
    + destruct (Hco ce eq_refl) as [<- Hce]. by destruct (Hin _ _ _ Hces Hce).
    + destruct no as [ne|]; [|done].
      destruct (Hno ne eq_refl) as [<- Hne]. by destruct (Hin _ _ _ Hnes Hne).
  - intros ce ->. destruct (Hco ce eq_refl) as [_ Hce]. by destruct (Hin _ _ _ Hces Hce).
  - intros ne ->. destruct (Hno ne eq_refl) as [_ Hne]. by destruct (Hin _ _ _ Hnes Hne).
Qed.

(** The levels the recursion reaches lie at or below its start, and
    their listings are those of proper trees. *)
Lemma reaches_below cur_root new_root rel c_obj n_obj rel' ces' nes' :
  reaches cur_root new_root rel c_obj n_obj rel' ces' nes' →
  rel' = rel ∨ below rel rel'.
Proof.
  induction 1 as [|rel c_obj n_obj ces nes k ce ne rel' ces' nes' _ _ _ _ _ _ IH];
    [by left|].
  right. destruct IH as [->|IH]; [by exists k|by eapply below_trans].
Qed.

Lemma reaches_proper cur_root new_root rel c_obj n_obj rel' ces' nes' :
  reaches cur_root new_root rel c_obj n_obj rel' ces' nes' →
  (∀ x, c_obj = Some x → proper x) → (∀ x, n_obj = Some x → proper x) →
  (NoDup ces'.*1 ∧ Forall (λ e : string * node, ¬ occurs "/" e.1 ∧ proper e.2) ces')
  ∧ (NoDup nes'.*1 ∧ Forall (λ e : string * node, ¬ occurs "/" e.1 ∧ proper e.2) nes').
Proof.
  induction 1 as [rel c_obj n_obj ces nes Hc Hn
                 |rel c_obj n_obj ces nes k ce ne rel' ces' nes' Hc Hn Hk _ _ _ IH];
    intros Hpc Hpn.
  - split; [exact (proper_obj_dir _ _ Hpc Hc)|exact (proper_obj_dir _ _ Hpn Hn)].
  - destruct (proper_obj_dir _ _ Hpc Hc) as [_ Hces].
    destruct (proper_obj_dir _ _ Hpn Hn) as [_ Hnes].
    destruct (level_dict_proper _ _ _ _ _ _ _ _ Hces Hnes Hk) as (_ & Hce & Hne).
    apply IH; intros x ?; simplify_eq; eauto.
Qed.

(** ** The action of a name at a level the recursion reaches *)

Lemma recurse_classifies cur_root new_root rel c_obj n_obj rel' ces' nes' :
  reaches cur_root new_root rel c_obj n_obj rel' ces' nes' →
  (∀ x, c_obj = Some x → proper x) → (∀ x, n_obj = Some x → proper x) →
  ∀ fuel acts w acts' w' k,
    recurse_on_rel_path fuel cur_root new_root c_obj n_obj rel acts w = Return acts' w' →
    ¬ occurs "/" k →
    acts' !! (rel' +:+ "/" +:+ k)
    = match level_dict cur_root new_root rel' ces' nes' !! k ≫= slot_action with
      | Some a => Some a
      | None => acts !! (rel' +:+ "/" +:+ k)
      end.
Proof.
  induction 1 as [rel c_obj n_obj ces nes Hc Hn
                 |rel c_obj n_obj ces nes k0 ce ne rel' ces' nes' Hc Hn Hk0 Hf Hd Hsub IH];
    intros Hpc Hpn [|fuel] acts w acts' w' k Hret Hk; try done;
    rewrite (recurse_level _ _ _ _ _ ces nes) in Hret by done.
  - rewrite <- (sorted_items_lookup (level_dict cur_root new_root rel ces nes)).
    eapply level_fold_key; [exact Hret|apply sorted_items_NoDup|done].
  - destruct (proper_obj_dir _ _ Hpc Hc) as [_ Hces].
    destruct (proper_obj_dir _ _ Hpn Hn) as [_ Hnes].
    destruct (level_dict_proper _ _ _ _ _ _ _ _ Hces Hnes Hk0) as (Hk0s & Hce & Hne).
    assert (below (rel +:+ "/" +:+ k0) (rel' +:+ "/" +:+ k)) as Hbelow.
    { destruct (reaches_below _ _ _ _ _ _ _ _ Hsub) as [->|[t ->]]; [by exists k|].
      exists (t +:+ "/" +:+ k). by rewrite !app_string_assoc. }
    pose proof (sorted_items_NoDup (level_dict cur_root new_root rel ces nes)) as Hnd.
    assert (∀ l : list (string * slots),
              l ⊆ sorted_items (level_dict cur_root new_root rel ces nes) → k0 ∉ l.*1 →
              Forall (λ item, ¬ under (rel +:+ "/" +:+ item.1) (rel' +:+ "/" +:+ k)) l)
      as Hother.
    { intros l Hsub' Hl. apply Forall_forall. intros [k' [co' no']] Hin Hu. simpl in Hu.
      assert (¬ occurs "/" k') as Hk'.
      { apply Hsub', elem_of_sorted_items in Hin.
        by destruct (level_dict_proper _ _ _ _ _ _ _ _ Hces Hnes Hin). }
      apply (under_cousin _ k0) in Hu; [|done..]. subst k'. apply Hl.
      apply list_elem_of_fmap. by exists (k0, (co', no')). }
    apply elem_of_sorted_items, list_elem_of_split in Hk0 as (l1 & l2 & Hitems).
    rewrite Hitems in Hret, Hnd, Hother.
    rewrite fmap_app, fmap_cons in Hnd. simpl in Hnd.
    apply NoDup_app in Hnd as (_ & Hl1 & Hl2). apply NoDup_cons in Hl2 as [Hl2 _].
    apply for_fold_split in Hret as (acts1 & w1 & acts2 & w2 & H1 & Hstep & H2).
    rewrite (level_fold_apart _ _ _ _ _ _ _ _ _ _ H2).
    2:{ apply Hother; [|done]. intros x Hx. apply elem_of_app. right. by right. }
    rewrite item_step_dirs in Hstep by done.
    rewrite (IH ltac:(intros x ?; simplify_eq; eauto) ltac:(intros x ?; simplify_eq; eauto)
               _ _ _ _ _ k Hstep Hk).
    rewrite (level_fold_apart _ _ _ _ _ _ _ _ _ _ H1); [done|].
    apply Hother; [|intros Hin; apply (Hl1 k0); [done|by left]].
    intros x Hx. apply elem_of_app. by left.
Qed.

(** The verb of the action of a slot, read off the two listings. *)
Lemma slot_verdict cur_root new_root rel ces nes k :
  NoDup ces.*1 → NoDup nes.*1 →
  fst <$> (level_dict cur_root new_root rel ces nes !! k ≫= slot_action)
  = verdict (listed ces k) (listed nes k).
Proof.
  intros Hc Hn. rewrite level_dict_lookup by done.
  by destruct (listed ces k) as [[]|], (listed nes k) as [[]|].
Qed.

(** X23.  What the comparison records for a name.  Take two proper trees
    whose comparison returns, a level the recursion reaches, and a name
    without a slash.  The verb recorded under the path of the name is
    [delete] when only the current directory lists the name, [create]
    when only the candidate directory does, and for two regular files
    [leave] or [alter] as their contents are equal or not; nothing is
    recorded for a name neither side lists, for a swap-file name, and
    for a pair of directories, which the recursion enters instead. *)
Theorem items_classified cur_root new_root w acts w1 c n rel ces nes k :
  fs w !! cur_root = Some c → fs w !! new_root = Some n →
  proper c → proper n →
  diff_trees cur_root new_root w = Return acts w1 →
  reaches cur_root new_root "." (Some c) (Some n) rel ces nes →
  ¬ occurs "/" k →
  fst <$> acts !! (rel +:+ "/" +:+ k) = verdict (listed ces k) (listed nes k).
Proof.
  intros Hc Hn Hpc Hpn Hd Hreach Hk. unfold diff_trees in Hd. rewrite Hc, Hn in Hd.
  assert (∀ x, Some c = Some x → proper x) as Hpc' by (by intros x [= <-]).
  assert (∀ x, Some n = Some x → proper x) as Hpn' by (by intros x [= <-]).
  rewrite (recurse_classifies _ _ _ _ _ _ _ _ Hreach Hpc' Hpn' _ _ _ _ _ k Hd Hk).
  destruct (reaches_proper _ _ _ _ _ _ _ _ Hreach Hpc' Hpn') as [[Hndc _] [Hndn _]].
  rewrite <- (slot_verdict cur_root new_root rel) by done.
  rewrite lookup_empty. by destruct (_ ≫= slot_action).
Qed.

(** ** Where a recorded action comes from *)

Lemma recurse_recorded fuel cur_root new_root c_obj n_obj rel acts w :
  post (recurse_on_rel_path fuel cur_root new_root c_obj n_obj rel acts w)
    (λ acts' _, ∀ p a, acts' !! p = Some a →
       acts !! p = Some a
       ∨ ∃ rel' ces' nes' k s,
           reaches cur_root new_root rel c_obj n_obj rel' ces' nes'
           ∧ p = rel' +:+ "/" +:+ k
           ∧ level_dict cur_root new_root rel' ces' nes' !! k = Some s
           ∧ slot_action s = Some a)
    (λ _ _, True) True.
Proof.
  revert c_obj n_obj rel acts w.
  induction fuel as [|fuel IH]; intros c_obj n_obj rel acts w; [done|].
  destruct (follow_dir_cases c_obj) as [[ces Hc]|Hc].
  2:{ by destruct (recurse_not_dir fuel cur_root new_root c_obj n_obj rel acts w)
        as [lines ->]; [by left|]. }
  destruct (follow_dir_cases n_obj) as [[nes Hn]|Hn].
  2:{ by destruct (recurse_not_dir fuel cur_root new_root c_obj n_obj rel acts w)
        as [lines ->]; [by right|]. }
  rewrite (recurse_level _ _ _ _ _ ces nes) by done.
  apply for_fold_post; [by left|].
  intros [k [co no]] acts1 w1 Hitem Hacts1.
  apply elem_of_sorted_items in Hitem.
  assert (∀ a, slot_action (co, no) = Some a →
            ∀ p a', <[rel +:+ "/" +:+ k := a]> acts1 !! p = Some a' →
              acts !! p = Some a'
              ∨ ∃ rel' ces' nes' k s,
                  reaches cur_root new_root rel c_obj n_obj rel' ces' nes'
                  ∧ p = rel' +:+ "/" +:+ k
                  ∧ level_dict cur_root new_root rel' ces' nes' !! k = Some s
                  ∧ slot_action s = Some a') as Hins.
  { intros a Ha p a' Hp. destruct (decide (p = rel +:+ "/" +:+ k)) as [->|Hne].
    - rewrite lookup_insert_eq in Hp. simplify_eq. right.
      exists rel, ces, nes, k, (co, no). split; [by constructor|done].
    - rewrite lookup_insert_ne in Hp by done. by apply Hacts1. }
  unfold item_step. cbn [fst snd].
  destruct co as [ce|], no as [ne|]; try done; try (simpl; by apply Hins).
  destruct (is_file false ce && is_file false ne) eqn:Hfiles.
  { apply andb_true_iff in Hfiles as [[x Hx]%is_file_reg [y Hy]%is_file_reg].
    unfold slot_action in Hins. rewrite Hx, Hy in Hins |- *.
    unfold bind. rewrite filecmp_cmp_obj_reg.
    destruct (bool_decide (x = y)); simpl; by apply Hins. }
  destruct (is_dir true ce && is_dir true ne) eqn:Hdirs; [|done].
  eapply post_impl; [apply IH| |done..]. simpl.
  intros acts' _ Hacts' p a Hp.
  destruct (Hacts' p a Hp) as [Hold|(rel' & ces' & nes' & k' & s & Hr & -> & Hs & Ha)];
    [by apply Hacts1|].
  right. exists rel', ces', nes', k', s. split; [|done].
  by eapply reaches_down.
Qed.

(** X24.  Nothing else is recorded.  Every path in the dict of actions of
    two proper trees is the path of a name at a level the recursion
    reaches, and the verb recorded is the one that name calls for; in
    particular the name is listed on one side at least and is not a
    swap-file name. *)
Theorem recorded_items_listed cur_root new_root w acts w1 c n p a :
  fs w !! cur_root = Some c → fs w !! new_root = Some n →
  proper c → proper n →
  diff_trees cur_root new_root w = Return acts w1 →
  acts !! p = Some a →
  ∃ rel ces nes k,
    reaches cur_root new_root "." (Some c) (Some n) rel ces nes
    ∧ p = rel +:+ "/" +:+ k
    ∧ verdict (listed ces k) (listed nes k) = Some a.1.
Proof.
  intros Hc Hn Hpc Hpn Hd Hp. unfold diff_trees in Hd. rewrite Hc, Hn in Hd.
  pose proof (recurse_recorded (S (from_option node_depth 0 (Some c))) cur_root new_root
                (Some c) (Some n) "." ∅ w) as Hrec.
  rewrite Hd in Hrec. simpl in Hrec.
  destruct (Hrec p a Hp) as [Hold|(rel & ces & nes & k & s & Hr & -> & Hs & Ha)]; [done|].
  exists rel, ces, nes, k. split; [done|]. split; [done|].
  assert (∀ x, Some c = Some x → proper x) as Hpc' by (by intros x [= <-]).
  assert (∀ x, Some n = Some x → proper x) as Hpn' by (by intros x [= <-]).
  destruct (reaches_proper _ _ _ _ _ _ _ _ Hr Hpc' Hpn') as [[Hndc _] [Hndn _]].
  rewrite <- (slot_verdict cur_root new_root rel) by done.
  by rewrite Hs; simpl; rewrite Ha.
Qed.

(** ** The four groups, read off the trees *)

(** A name the trees call a verb for is listed on one side. *)
Lemma listed_name es k x : listed es k = Some x → (k, x) ∈ es.
Proof.
  unfold listed. destruct (is_swap k); [done|]. apply elem_of_list_to_map_2.
Qed.

Lemma verdict_name (ces nes : list (string * node)) k v :
  verdict (listed ces k) (listed nes k) = Some v →
  ∃ x, (k, x) ∈ ces ∨ (k, x) ∈ nes.
Proof.
  destruct (listed ces k) as [x|] eqn:Hc.
  { intros _. exists x. left. by apply listed_name. }
  destruct (listed nes k) as [y|] eqn:Hn; [|done].
  intros _. exists y. right. by apply listed_name.
Qed.

(** X25.  What the four groups of the report hold.  For two proper trees
    whose comparison returns, a path is in the group of a verb exactly
    when it is the path of a name at a level the recursion reaches and
    the trees call for that verb there: [delete] lists the names only
    the current tree holds, [create] those only the candidate tree
    holds, [alter] and [leave] the regular files of both with different
    and with equal contents. *)
Theorem groups_from_trees cur_root new_root w acts w1 c n v p :
  fs w !! cur_root = Some c → fs w !! new_root = Some n →
  proper c → proper n →
  diff_trees cur_root new_root w = Return acts w1 →
  p ∈ would_get (group_actions acts) v
  ↔ ∃ rel ces nes k,
      reaches cur_root new_root "." (Some c) (Some n) rel ces nes
      ∧ p = rel +:+ "/" +:+ k
      ∧ verdict (listed ces k) (listed nes k) = Some v.
Proof.
  intros Hc Hn Hpc Hpn Hd. unfold diff_trees in Hd. rewrite Hc, Hn in Hd.
  assert (∀ x, Some c = Some x → proper x) as Hpc' by (by intros x [= <-]).
  assert (∀ x, Some n = Some x → proper x) as Hpn' by (by intros x [= <-]).
  rewrite elem_of_would_get. split.
  - intros [es Hp].
    pose proof (recurse_recorded (S (from_option node_depth 0 (Some c))) cur_root new_root
                  (Some c) (Some n) "." ∅ w) as Hrec.
    rewrite Hd in Hrec. simpl in Hrec.
    destruct (Hrec p _ Hp) as [Hold|(rel & ces & nes & k & s & Hr & -> & Hs & Ha)]; [done|].
    exists rel, ces, nes, k. split; [done|]. split; [done|].
    destruct (reaches_proper _ _ _ _ _ _ _ _ Hr Hpc' Hpn') as [[Hndc _] [Hndn _]].
    rewrite <- (slot_verdict cur_root new_root rel) by done.
    by rewrite Hs; simpl; rewrite Ha.
  - intros (rel & ces & nes & k & Hr & -> & Hv).
    destruct (reaches_proper _ _ _ _ _ _ _ _ Hr Hpc' Hpn') as [[Hndc Hces] [Hndn Hnes]].
    assert (¬ occurs "/" k) as Hk.
    { destruct (verdict_name _ _ _ _ Hv) as [x [Hx|Hx]].
      - rewrite Forall_forall in Hces. by destruct (Hces _ Hx).
      - rewrite Forall_forall in Hnes. by destruct (Hnes _ Hx). }
    rewrite (recurse_classifies _ _ _ _ _ _ _ _ Hr Hpc' Hpn' _ _ _ _ _ k Hd Hk).
    rewrite <- (slot_verdict cur_root new_root rel) in Hv by done.
    destruct (_ ≫= slot_action) as [[v' es]|]; [|done].
    simpl in Hv. simplify_eq. eauto.
Qed.

(** ** How the comparison ends *)




(** ** Two trees that hold the same *)

(** What a plain directory lists is plain. *)
Lemma plain_child es k x :
  plain (Dir es) → (list_to_map es : gmap string node) !! k = Some x → plain x.
Proof.
  intros Hp Hk. inversion Hp as [|? Hall]; subst.
  apply elem_of_list_to_map_2 in Hk. rewrite Forall_forall in Hall.
  apply (Hall _ Hk).
Qed.

(** Below two directories that hold the same, every item is left and
    nothing is raised. *)
Lemma recurse_identical fuel cur_root new_root :
  ∀ ces n' rel acts w,
    obj_rel (Dir ces) n' → plain (Dir ces) →
    map_Forall (λ _ (a : action), a.1 = Leave) acts →
    post (recurse_on_rel_path fuel cur_root new_root (Some (Dir ces)) (Some n') rel acts w)
      (λ acts' _, map_Forall (λ _ (a : action), a.1 = Leave) acts')
      (λ _ _, False) True.
Proof.
  induction fuel as [|fuel IH]; intros ces n' rel acts w Hrel Hplain Hacts; [done|].
  destruct (obj_rel_dir_l _ _ Hrel) as [nes ->].
  rewrite (recurse_level _ _ _ _ _ ces nes) by done.
  destruct (listing_equiv _ _ Hrel) as (Hndc & Hndn & Hlook).
  apply for_fold_post; [done|].
  intros [k [co no]] acts1 w1 Hitem Hacts1.
  apply elem_of_sorted_items in Hitem.
  rewrite level_dict_lookup in Hitem by done. unfold listed in Hitem.
  specialize (Hlook k).
  destruct (is_swap k); [done|].
  destruct ((list_to_map ces : gmap string node) !! k) as [x|] eqn:Hx,
           ((list_to_map nes : gmap string node) !! k) as [x'|] eqn:Hx';
    inversion Hlook as [? ? Hxx'|]; subst; [|done].
  simpl in Hitem. simplify_eq.
  pose proof (plain_child _ _ _ Hplain Hx) as Hpx.
  destruct Hpx as [a|es Hes].
  - destruct Hxx' as [Heq _]. inversion Heq; subst.
    rewrite (item_step_files _ _ _ _ _ _ a a) by done.
    rewrite bool_decide_eq_true_2 by done. simpl.
    by apply map_Forall_insert_2.
  - destruct (obj_rel_dir_l _ _ Hxx') as [es' ->].
    rewrite item_step_dirs by done. simpl.
    apply IH; [done| |done]. by constructor.
Qed.

(** X27.  A candidate tree that holds the same as the current tree, the
    order of the listings apart, is detected and removed without a
    question, when the trees consist of regular files and directories
    with each name listed once: nothing is read from the console, the
    viewer is not run, and the filesystem loses the candidate root and
    nothing else. *)
Theorem identical_trees_removed cur_root new_root ces n w :
  fs w !! cur_root = Some (Dir ces) → fs w !! new_root = Some n →
  node_equiv (Dir ces) n → well_listed (Dir ces) → plain (Dir ces) →
  ∃ w', handle_dirs cur_root new_root w = Return tt w'
        ∧ fs w' = delete new_root (fs w)
        ∧ stdin w' = stdin w
        ∧ commands w' = commands w.
Proof.
  intros Hc Hn Heq Hwl Hplain.
  assert (obj_rel (Dir ces) n) as Hrel by done.
  destruct (obj_rel_dir_l _ _ Hrel) as [nes ->].
  pose proof (diff_trees_total cur_root new_root w) as Ht.
  pose proof (recurse_identical (S (from_option node_depth 0 (fs w !! cur_root)))
                cur_root new_root ces (Dir nes) "." ∅ w Hrel Hplain
                (map_Forall_empty _)) as Hpost.
  destruct (diff_trees cur_root new_root w) as [acts w1|e w1|] eqn:Hd; [| |done];
    unfold diff_trees in Hd; rewrite Hc, Hn in Hd; rewrite Hc, Hd in Hpost; [|done].
  simpl in Hpost.
  assert (diff_trees cur_root new_root w = Return acts w1) as Hd'
    by (unfold diff_trees; by rewrite Hc, Hn).
  rewrite (handle_dirs_report _ _ _ _ _ Hd').
  assert (no_effect (group_actions acts) = true) as ->.
  { apply all_leave_no_effect. intros p a Hp. by apply (Hpost p a). }
  apply diff_trees_Return in Hd' as [_ [lines ->]].
  unfold bind, print, shutil_rmtree. simpl. rewrite Hn.
  eexists. split; [reflexivity|]. done.
Qed.

(** ** What the report shows *)

Lemma out_grows_same w w' : out w' = out w → out_grows w w'.
Proof. intros H. exists []. by rewrite app_nil_r. Qed.

Lemma out_grows_trans w1 w2 w3 : out_grows w1 w2 → out_grows w2 w3 → out_grows w1 w3.
Proof. intros [o1 H1] [o2 H2]. exists (o1 ++ o2). by rewrite H2, H1, app_assoc. Qed.

Lemma out_grows_elem w w' o : out_grows w w' → o ∈ out w → o ∈ out w'.
Proof. intros [o' ->] Hin. apply elem_of_app. by left. Qed.

Lemma adds_output_bind {A B} (m : M A) (k : A → M B) w :
  adds_output w (m w) → (∀ a w1, adds_output w1 (k a w1)) →
  adds_output w (bind m k w).
Proof.
  unfold adds_output, bind. intros Hm Hk.
  destruct (m w) as [a w1|e w1|]; simpl in *; [|done..].
  specialize (Hk a w1).
  destruct (k a w1) as [b w2|e w2|]; simpl in *; [| |done];
    by eapply out_grows_trans.
Qed.

(** The system calls that change the filesystem write nothing. *)
Lemma shutil_rmtree_output pth w : adds_output w (shutil_rmtree pth w).
Proof.
  unfold adds_output, shutil_rmtree.
  destruct (fs w !! pth) as [[]|]; simpl; by apply out_grows_same.
Qed.

Lemma os_rename_output src dst w : adds_output w (os_rename src dst w).
Proof.
  unfold adds_output, os_rename.
  destruct (fs w !! src) as [s|]; simpl; [|by apply out_grows_same].
  case_decide; simpl; [by apply out_grows_same|].
  destruct (fs w !! dst) as [[| [|] | |]|], s; simpl; by apply out_grows_same.
Qed.

Lemma get_input_loop_output prompt valid lines w :
  adds_output w (get_input_loop prompt valid lines w).
Proof.
  revert w. induction lines as [|l0 lines IH]; intros w.
  - simpl. unfold adds_output, bind, input.
    destruct (stdin w) as [|l rest]; simpl; [by eexists|].
    destruct (bool_decide (l ∈ valid)); simpl; [by eexists|done].
  - simpl. unfold bind at 1. unfold input.
    destruct (stdin w) as [|l rest]; [by eexists|].
    destruct (bool_decide (l ∈ valid)); [by eexists|].
    unfold bind, stderr. specialize (IH (write_err
      ("You responded '" +:+ l +:+ "'")
      (set_stdin rest (write_out (Prompt (prompt +:+ " ")) w)))).
    unfold adds_output in *.
    destruct (get_input_loop _ _ _ _); simpl in *; [| |done];
      (eapply out_grows_trans; [|exact IH]); by eexists.
Qed.

Lemma gdiff_each_output (cur_root new_root : string) (items : list string) w :
  adds_output w
    (for_each items (λ item_rel_path,
       gdiff (cur_root +:+ "/" +:+ item_rel_path) (new_root +:+ "/" +:+ item_rel_path)) w).
Proof.
  revert w. induction items as [|p items IH]; intros w; simpl.
  { by apply out_grows_same. }
  apply adds_output_bind; [|intros _ w1; apply IH].
  rewrite gdiff_viewed. apply out_grows_same, viewed_out.
Qed.

Lemma select_loop_output lines cur_root new_root would_ w :
  adds_output w (select_loop lines cur_root new_root would_ w).
Proof.
  revert w. induction lines as [|l0 lines IH]; intros w;
    rewrite select_loop_unfold;
    (apply adds_output_bind; [by apply out_grows_same|]; intros _ w1);
    (apply adds_output_bind; [apply get_input_loop_output|]; intros r w2);
    (case_decide;
     [apply adds_output_bind; [by apply out_grows_same|]; intros _ w3;
      apply adds_output_bind; [apply shutil_rmtree_output|]; intros _ w4;
      apply os_rename_output|]);
    (case_decide; [by apply out_grows_same|]);
    (apply adds_output_bind;
     [repeat case_decide; by apply out_grows_same|]; intros v w3);
    (apply adds_output_bind; [apply gdiff_each_output|]; intros _ w4).
  - done.
  - apply IH.
Qed.

(** The report of one group holds a line for each of its items, unless
    it is the group [leave] with more than ten items. *)
Lemma print_group_shows g p w :
  g.1 ≠ Leave → p ∈ g.2 →
  ∃ w', print_group g w = Return tt w' ∧ out_grows w w' ∧ item_line p ∈ out w'.
Proof.
  intros Hv Hp. unfold print_group.
  rewrite (bind_Return _ _ _ tt (write_out (Line "") w)) by done.
  rewrite (bind_Return _ _ _ tt (write_out (Line ("    " +:+ verb_name g.1 +:+ ":"))
                                   (write_out (Line "") w))) by done.
  rewrite decide_False by (intros Heq; rewrite Heq in Hp; by apply elem_of_nil in Hp).
  rewrite bool_decide_eq_false_2 by done. cbn [andb].
  set (w0 := write_out _ _).
  assert (out_grows w w0) as Hw0.
  { unfold out_grows, w0. simpl. eexists. by rewrite <- app_assoc. }
  assert (∀ (l : list string) w1,
            ∃ w', for_each l (λ item_path,
                      print ("        " +:+ str_replace item_path "./" "")) w1
                  = Return tt w'
                  ∧ out w' = out w1 ++ (item_line <$> l)) as Hlines.
  { induction l as [|x l IH]; intros w1; simpl.
    { eexists. split; [done|]. by rewrite app_nil_r. }
    rewrite (bind_Return _ _ _ tt (write_out (item_line x) w1)) by done.
    destruct (IH (write_out (item_line x) w1)) as (w' & -> & Hout).
    eexists. split; [done|]. rewrite Hout. simpl. by rewrite <- app_assoc. }
  destruct (Hlines g.2 w0) as (w' & -> & Hout).
  exists w'. split; [done|]. split.
  - eapply out_grows_trans; [exact Hw0|]. by eexists.
  - rewrite Hout. apply elem_of_app. right. by apply list_elem_of_fmap_2.
Qed.

Lemma print_group_output g w : adds_output w (print_group g w).
Proof.
  unfold print_group.
  apply adds_output_bind; [by eexists|]. intros _ w1.
  apply adds_output_bind; [by eexists|]. intros _ w2.
  case_decide as Hg; [by eexists|]. destruct (_ && _); [by eexists|].
  clear Hg. generalize w2. induction g.2 as [|x l IH]; intros w3; simpl.
  { by apply out_grows_same. }
  apply adds_output_bind; [by eexists|]. intros _ w4. apply IH.
Qed.

Lemma print_groups_show would_ v p w :
  v ≠ Leave → p ∈ would_get would_ v →
  ∃ w', for_each would_ print_group w = Return tt w'
        ∧ out_grows w w' ∧ item_line p ∈ out w'.
Proof.
  intros Hv. revert w. induction would_ as [|g would_ IH]; intros w Hp; simpl in *.
  { by apply elem_of_nil in Hp. }
  case_decide as Hg.
  - destruct (print_group_shows g p w) as (w1 & Hg1 & Hw1 & Hin); [congruence|done|].
    rewrite (bind_Return _ _ _ _ _ Hg1).
    destruct (print_groups_frame would_ w1) as (w' & Hrest & _).
    assert (adds_output w1 (for_each would_ print_group w1)) as Hout.
    { clear. revert w1. induction would_ as [|g' would_ IH]; intros w1; simpl.
      - by apply out_grows_same.
      - apply adds_output_bind; [apply print_group_output|]. intros _ w2. apply IH. }
    rewrite Hrest in Hout |- *. simpl in Hout.
    exists w'. split; [done|]. split; [by eapply out_grows_trans|].
    by eapply out_grows_elem.
  - pose proof (print_group_output g w) as Hout.
    destruct (print_group g w) as [[] w1| |] eqn:Hg1; simpl in Hout.
    + rewrite (bind_Return _ _ _ _ _ Hg1).
      destruct (IH w1 Hp) as (w' & -> & Hw' & Hin).
      exists w'. split; [done|]. split; [by eapply out_grows_trans|done].
    + exfalso. destruct (print_groups_frame [g] w) as (w' & Hfr & _).
      simpl in Hfr. unfold bind in Hfr. by rewrite Hg1 in Hfr.
    + exfalso. destruct (print_groups_frame [g] w) as (w' & Hfr & _).
      simpl in Hfr. unfold bind in Hfr. by rewrite Hg1 in Hfr.
Qed.

(** X28.  The report hides nothing that would change.  When the
    comparison has returned, every path of the groups [delete],
    [create] and [alter] has its own line in the report on standard
    output, whatever the number of items and however the workflow ends;
    only the group [leave] may be summed up by a count. *)
Theorem report_shows_changes cur_root new_root w acts w0 v p :
  diff_trees cur_root new_root w = Return acts w0 →
  v ≠ Leave → p ∈ would_get (group_actions acts) v →
  post (handle_dirs cur_root new_root w)
    (λ _ w', item_line p ∈ out w') (λ _ w', item_line p ∈ out w') False.
Proof.
  intros Hd Hv Hp. rewrite (handle_dirs_report _ _ _ _ _ Hd).
  destruct (no_effect (group_actions acts)) eqn:Hne.
  { exfalso. apply no_effect_spec in Hne as (Hdel & Hcr & Hal).
    destruct v; [rewrite Hdel in Hp|rewrite Hcr in Hp|rewrite Hal in Hp|done];
      by apply elem_of_nil in Hp. }
  match goal with |- post (bind _ _ ?w1) _ _ _ =>
    destruct (print_groups_show (group_actions acts) v p w1 Hv Hp)
      as (w2 & Hpr & _ & Hin)
  end.
  rewrite (bind_Return _ _ _ _ _ Hpr).
  pose proof (select_loop_total (stdin w2) cur_root new_root (group_actions acts) w2
                (le_n _)) as Ht.
  pose proof (select_loop_output (stdin w2) cur_root new_root (group_actions acts) w2)
    as Hout.
  unfold adds_output in Hout.
  destruct (select_loop _ _ _ _ _); simpl in *; [| |done]; by eapply out_grows_elem.
Qed.

(** ** Concrete runs of the further properties *)

(** X2 on the argument [f] and its candidate name. *)
Lemma candidate_name_accepted_witness :
  main_body None ("f" +:+ ".new") (two_files ["n"]) = main_body None "f" (two_files ["n"]).
Proof. apply candidate_name_accepted. reflexivity. Defined.

(** X3 on one stray line before the response [n]. *)
Lemma get_input_first_valid_witness :
  get_input "update f ?" valid_file_responses (two_files ["x"; "n"; "z"])
  = Return "n" (set_stdin ["z"] (asked "update f ?" ["x"] (two_files ["x"; "n"; "z"]))).
Proof.
  apply (get_input_first_valid _ _ ["x"] "n" ["z"]).
  - repeat constructor. apply not_in_valid. reflexivity.
  - unfold valid_file_responses. by repeat constructor.
  - reflexivity.
Defined.

(** X4 on an input of one stray line. *)
Lemma get_input_eof_witness :
  get_input "update f ?" valid_file_responses (two_files ["x"])
  = Raise EOFError (set_stdin [] (asked "update f ?" ["x"] (two_files ["x"]))).
Proof.
  apply (get_input_eof "update f ?" valid_file_responses (two_files ["x"])).
  repeat constructor. apply not_in_valid. reflexivity.
Defined.

(** X5 on two files, one stray line before the response [y]. *)
Lemma handle_files_install_witness :
  ∃ w', handle_files "f" "f.new" (two_files ["x"; "y"; "z"]) = Return tt w'
        ∧ fs w' = <["f" := Reg "2"]> (delete "f.new" (fs (two_files ["x"; "y"; "z"])))
        ∧ fs w' !! "f" = Some (Reg "2")
        ∧ fs w' !! "f.new" = None
        ∧ stdin w' = ["z"]
        ∧ commands w' = commands (two_files ["x"; "y"; "z"]) ++ [viewer_command "f" "f.new"].
Proof.
  apply (handle_files_install "f" "f.new" "1" "2" ["x"] ["z"]).
  - reflexivity.
  - reflexivity.
  - discriminate.
  - repeat constructor. apply not_in_valid. reflexivity.
  - reflexivity.
Defined.

(** X6 on two arguments: the response [q] to the first ends the run. *)
Lemma handle_files_quit_witness :
  ∃ w', for_each ["f"; "g"] (main_body None) (two_files ["q"; "y"]) = Raise (SystemExit 1) w'
        ∧ fs w' = fs (two_files ["q"; "y"])
        ∧ stdin w' = ["y"].
Proof.
  apply (handle_files_quit None "f" ["g"] "f" "f.new" "1" "2" [] ["y"]).
  - reflexivity.
  - reflexivity.
  - reflexivity.
  - discriminate.
  - constructor.
  - reflexivity.
Defined.

(** X7 on two files and an input of one stray line. *)
Lemma handle_files_eof_witness :
  ∃ w', handle_files "f" "f.new" (two_files ["x"]) = Raise EOFError w'
        ∧ fs w' = fs (two_files ["x"])
        ∧ stdin w' = [].
Proof.
  apply (handle_files_eof "f" "f.new" "1" "2").
  - reflexivity.
  - reflexivity.
  - discriminate.
  - repeat constructor. apply not_in_valid. reflexivity.
Defined.

(** X11 on a previous backup that links to an empty directory. *)
Lemma backup_blocked_by_directory_link_witness :
  ∃ w', handle_files "f" "f.new" linked_backup = Raise OSError w'
        ∧ fs w' = fs linked_backup
        ∧ stdin w' = [].
Proof.
  apply (backup_blocked_by_directory_link "f" "f.new" "1" "2" (Some (Dir [])) [] [] []).
  - reflexivity.
  - reflexivity.
  - discriminate.
  - reflexivity.
  - reflexivity.
  - constructor.
  - reflexivity.
Defined.

(** X8 on an argument with no candidate, followed by one with a candidate.
    *)
Lemma missing_candidate_reported_witness :
  for_each ["zz"; "f"] (main_body None) (two_files ["n"])
  = for_each ["f"] (main_body None)
      (write_err ("ERROR: new_path does not exist: " +:+ "zz.new") (two_files ["n"])).
Proof.
  apply (missing_candidate_reported None "zz" ["f"] "zz" "zz.new"); reflexivity.
Defined.


(** X10 on a current path that is a link to a file, and on a candidate
    that is a special file. *)
Lemma unsupported_kind_reported_witness :
  for_each ["l"] (main_body None) linked_file
  = for_each [] (main_body None)
      (write_err ("ERROR: " +:+ "l" +:+ " is neither a regular file nor a directory.")
         linked_file)
  ∧ for_each ["s"] (main_body None) linked_file
    = for_each [] (main_body None)
        (write_err ("ERROR: " +:+ "s.new" +:+ " is neither a regular file nor a directory.")
           linked_file).
Proof.
  split.
  - apply (proj1 (unsupported_kind_reported None "l" [] "l" "l.new"
                    (Symlink (Some (Reg "1"))) (Reg "2") linked_file
                    eq_refl eq_refl eq_refl (mk_is_Some _ _ eq_refl) (mk_is_Some _ _ eq_refl))).
    reflexivity.
  - apply (proj2 (unsupported_kind_reported None "s" [] "s" "s.new"
                    (Reg "1") Other linked_file
                    eq_refl eq_refl eq_refl (mk_is_Some _ _ eq_refl) (mk_is_Some _ _ eq_refl)));
      reflexivity.
Defined.

Lemma two_trees_differ : ¬ mutating_groups_empty two_trees_diff.1.
Proof. intros [Hdel _]. vm_compute in Hdel. discriminate. Qed.


(** X18 on two trees that differ: the groups [c] and [a] inspected, a
    stray line between them. *)
Lemma handle_dirs_examine_witness :
  ∃ w', handle_dirs "t" "t.new" (two_trees ["c"; "zz"; "a"; "n"; "r"]) = Return tt w'
        ∧ commands w'
          = commands (two_trees ["c"; "zz"; "a"; "n"; "r"])
            ++ (item_command "t" "t.new"
                  <$> (["c"; "zz"; "a"] ≫= selected (group_actions two_trees_diff.1))).
Proof.
  apply (handle_dirs_examine "t" "t.new" two_trees_diff.1
           (write_errs ["ignoring: t/./.x.swp"] (two_trees ["c"; "zz"; "a"; "n"; "r"]))
           ["c"; "zz"; "a"] ["r"]).
  - vm_compute. reflexivity.
  - exact two_trees_differ.
  - repeat constructor; discriminate.
  - reflexivity.
Defined.

(** X20 on two trees that differ and an input without [y] or [n]. *)
Lemma handle_dirs_eof_witness :
  ∃ w', handle_dirs "t" "t.new" (two_trees ["d"; "zz"]) = Raise EOFError w'
        ∧ fs w' = fs (two_trees ["d"; "zz"])
        ∧ stdin w' = [].
Proof.
  apply (handle_dirs_eof "t" "t.new" two_trees_diff.1
           (write_errs ["ignoring: t/./.x.swp"] (two_trees ["d"; "zz"]))).
  - vm_compute. reflexivity.
  - exact two_trees_differ.
  - repeat constructor; discriminate.
Defined.

(** X21 on a path one level down. *)
Lemma report_path_witness : str_replace ("./" +:+ "sub/k") "./" "" = "sub/k".
Proof. apply report_path. no_occurrence. Defined.

Lemma cur_tree_proper : proper cur_tree.
Proof.
  apply proper_dir; [distinct_names|].
  repeat (apply Forall_cons; split; [split; [no_occurrence|]|]);
    try apply Forall_nil; try constructor.
  - distinct_names.
  - repeat constructor. no_occurrence.
Qed.

Lemma new_tree_proper : proper new_tree.
Proof.
  apply proper_dir; [distinct_names|].
  repeat (apply Forall_cons; split; [split; [no_occurrence|]|]);
    try apply Forall_nil; try constructor.
  - distinct_names.
  - repeat constructor; no_occurrence.
Qed.

Lemma two_trees_reach_sub :
  reaches "t" "t.new" "." (Some cur_tree) (Some new_tree) ("." +:+ "/" +:+ "sub")
    [("k", Reg "k")] [("k", Reg "kk"); ("j", Other)].
Proof.
  eapply (reaches_down _ _ _ _ _ _ _ "sub"
            (mkDirEntry "sub" "t/./sub" (Dir [("k", Reg "k")]))
            (mkDirEntry "sub" "t.new/./sub" (Dir [("k", Reg "kk"); ("j", Other)])));
    [reflexivity..|].
  apply reaches_here; reflexivity.
Qed.

(** X23 on the name [k] one level down, a file on both sides with two
    contents. *)
Lemma items_classified_witness :
  fst <$> two_trees_diff.1 !! (("." +:+ "/" +:+ "sub") +:+ "/" +:+ "k")
  = verdict (listed [("k", Reg "k")] "k") (listed [("k", Reg "kk"); ("j", Other)] "k").
Proof.
  apply (items_classified "t" "t.new" (two_trees ["d"; "zz"; "n"; "r"])
           two_trees_diff.1 two_trees_diff.2 cur_tree new_tree).
  - reflexivity.
  - reflexivity.
  - exact cur_tree_proper.
  - exact new_tree_proper.
  - vm_compute. reflexivity.
  - exact two_trees_reach_sub.
  - no_occurrence.
Defined.

(** X24 on the path [./b] of the dict of actions of two trees. *)
Lemma recorded_items_listed_witness :
  ∃ rel ces nes k,
    reaches "t" "t.new" "." (Some cur_tree) (Some new_tree) rel ces nes
    ∧ "./b" = rel +:+ "/" +:+ k
    ∧ verdict (listed ces k) (listed nes k) = Some Delete.
Proof.
  apply (recorded_items_listed "t" "t.new" (two_trees ["d"; "zz"; "n"; "r"])
           two_trees_diff.1 two_trees_diff.2 cur_tree new_tree "./b"
           (Delete, [mkDirEntry "b" "t/./b" (Reg "2")])).
  - reflexivity.
  - reflexivity.
  - exact cur_tree_proper.
  - exact new_tree_proper.
  - vm_compute. reflexivity.
  - vm_compute. reflexivity.
Defined.

(** X25 on the delete group of two trees and the path [./b]. *)
Lemma groups_from_trees_witness :
  "./b" ∈ would_get (group_actions two_trees_diff.1) Delete
  ↔ ∃ rel ces nes k,
      reaches "t" "t.new" "." (Some cur_tree) (Some new_tree) rel ces nes
      ∧ "./b" = rel +:+ "/" +:+ k
      ∧ verdict (listed ces k) (listed nes k) = Some Delete.
Proof.
  apply (groups_from_trees "t" "t.new" (two_trees ["d"; "zz"; "n"; "r"])
           two_trees_diff.1 two_trees_diff.2 cur_tree new_tree Delete "./b").
  - reflexivity.
  - reflexivity.
  - exact cur_tree_proper.
  - exact new_tree_proper.
  - vm_compute. reflexivity.
Defined.

(** X28 on the path [./b] of the delete group of two trees. *)
Lemma report_shows_changes_witness :
  post (handle_dirs "t" "t.new" (two_trees ["d"; "zz"; "n"; "r"]))
    (λ _ w', item_line "./b" ∈ out w') (λ _ w', item_line "./b" ∈ out w') False.
Proof.
  apply (report_shows_changes "t" "t.new" _ two_trees_diff.1 two_trees_diff.2 Delete).
  - vm_compute. reflexivity.
  - discriminate.
  - replace (would_get (group_actions two_trees_diff.1) Delete) with ["./b"]
      by (vm_compute; reflexivity).
    by constructor.
Defined.

Lemma cur_tree_plain : plain cur_tree.
Proof. repeat constructor. Qed.

(** X27 on a tree and the same tree with every listing reversed. *)
Lemma identical_trees_removed_witness :
  ∃ w', handle_dirs "t" "t.new" same_trees = Return tt w'
        ∧ fs w' = delete "t.new" (fs same_trees)
        ∧ stdin w' = stdin same_trees
        ∧ commands w' = commands same_trees.
Proof.
  apply (identical_trees_removed "t" "t.new" cur_tree_entries cur_tree_relisted).
  - reflexivity.
  - reflexivity.
  - apply (equiv_dir _ cur_tree_relisted_entries).
    + symmetry. exact (reverse_Permutation cur_tree_entries).
    + apply node_equiv_refl_listed. repeat constructor.
      apply (equiv_dir _ [("k", Reg "k")]); [reflexivity|]. repeat constructor.
  - exact cur_tree_well_listed.
  - exact cur_tree_plain.
Defined.
